(** * serverless-version-manager: the version lifecycle of src/index.ts

    A shallow embedding of the [VersionManager] class: the version
    comparison ([isGreaterVersion], [semverSort]), the candidate gate
    ([validateVersion]), the registry query ([getStagesInOrder]) and the
    retirement loop ([cleanupVersions]).

    Conventions of the embedding.
    - A JavaScript string is a sequence of UTF-16 code units.  It is modelled
      as a [string] whose characters are the code units below 256; the
      digits, the marker [v] and the separators [-] and [.] the code looks at
      are all in that range.
    - A JavaScript number is an IEEE double.  Every number this program
      computes is an integer, an infinity or NaN (see [Number] below), so a
      finite number is modelled by the integer it denotes and rounding to the
      nearest double is written out in [round_double].
    - [undefined] is [None]; a thrown value is a [Throw] completion.
    - The AWS SDK is a collaborator outside the repository: its four calls
      are fields of a record [Sdk] acting on an abstract world. *)

From Stdlib Require Import ZArith Ascii Lia.
From stdpp Require Import gmap strings list sorting.

Local Open Scope Z_scope.

(** ** Numbers *)

Module JS.

Inductive JSNum : Type :=
| NaN
| Num (z : Z)
| PInf
| NInf.

#[global] Instance JSNum_eq_dec : EqDecision JSNum.
Proof. solve_decision. Defined.

(** Round a non-negative integer to the nearest double, ties to even;
    [None] is overflow.  Integers below [2^53] are exact. *)
Definition round_nonneg (a : Z) : option Z :=
  if a <? 2 ^ 53 then Some a
  else
    let e := Z.log2 a - 52 in
    let q := a / 2 ^ e in
    let r := a mod 2 ^ e in
    let half := 2 ^ (e - 1) in
    let q' := if (half <? r) || ((r =? half) && Z.odd q) then q + 1 else q in
    let v := q' * 2 ^ e in
    if v <? 2 ^ 1024 then Some v else None.

Definition round_double (z : Z) : JSNum :=
  if 0 <=? z
  then match round_nonneg z with Some v => Num v | None => PInf end
  else match round_nonneg (- z) with Some v => Num (- v) | None => NInf end.

(** [x - y] *)
Definition sub (x y : JSNum) : JSNum :=
  match x, y with
  | NaN, _ | _, NaN => NaN
  | Num a, Num b => round_double (a - b)
  | PInf, PInf | NInf, NInf => NaN
  | PInf, _ => PInf
  | NInf, _ => NInf
  | Num _, PInf => NInf
  | Num _, NInf => PInf
  end.

(** [x < y] *)
Definition lt (x y : JSNum) : bool :=
  match x, y with
  | NaN, _ | _, NaN => false
  | Num a, Num b => a <? b
  | _, NInf => false
  | NInf, _ => true
  | PInf, _ => false
  | Num _, PInf => true
  end.

(** [x > y] *)
Definition gt (x y : JSNum) : bool := lt y x.

(** ToBoolean on a number: [0] and [NaN] are falsy. *)
Definition truthy (x : JSNum) : bool :=
  match x with
  | NaN => false
  | Num z => negb (z =? 0)
  | PInf | NInf => true
  end.

(** [x || y] on numbers *)
Definition or (x y : JSNum) : JSNum := if truthy x then x else y.

(** ** Strings *)

Definition code (c : ascii) : Z := Z.of_N (N_of_ascii c).

(** StrWhiteSpaceChar, for code units below 256: TAB, LF, VT, FF, CR, SP,
    NBSP. *)
Definition is_ws (c : ascii) : bool :=
  let n := code c in
  ((9 <=? n) && (n <=? 13)) || (n =? 32) || (n =? 160).

Fixpoint trim_start (s : string) : string :=
  match s with
  | String c s' => if is_ws c then trim_start s' else s
  | EmptyString => EmptyString
  end.

Fixpoint trim_end (s : string) : string :=
  match s with
  | String c s' =>
      match trim_end s' with
      | EmptyString => if is_ws c then EmptyString else String c EmptyString
      | r => String c r
      end
  | EmptyString => EmptyString
  end.

Definition trim (s : string) : string := trim_end (trim_start s).

(** The value of [c] as a digit in the given radix. *)
Definition digit_of (radix : Z) (c : ascii) : option Z :=
  let n := code c in
  let d :=
    if (48 <=? n) && (n <=? 57) then n - 48
    else if (97 <=? n) && (n <=? 102) then n - 87
    else if (65 <=? n) && (n <=? 70) then n - 55
    else 16 in
  if d <? radix then Some d else None.

Fixpoint digits_value (radix acc : Z) (s : string) : option Z :=
  match s with
  | EmptyString => Some acc
  | String c s' =>
      match digit_of radix c with
      | Some d => digits_value radix (acc * radix + d) s'
      | None => None
      end
  end.

(** One or more digits of the radix. *)
Definition digits1 (radix : Z) (s : string) : option Z :=
  match s with
  | EmptyString => None
  | _ => digits_value radix 0 s
  end.

(** The longest prefix of decimal digits and what follows it. *)
Fixpoint span_digits (s : string) : string * string :=
  match s with
  | String c s' =>
      match digit_of 10 c with
      | Some _ => let '(d, r) := span_digits s' in (String c d, r)
      | None => (EmptyString, s)
      end
  | EmptyString => (EmptyString, EmptyString)
  end.

(** NonDecimalIntegerLiteral: [0x], [0o], [0b] and their digits. *)
Definition non_decimal (s : string) : option Z :=
  match s with
  | String "0" (String p r) =>
      if (p =? "x")%char || (p =? "X")%char then digits1 16 r
      else if (p =? "o")%char || (p =? "O")%char then digits1 8 r
      else if (p =? "b")%char || (p =? "B")%char then digits1 2 r
      else None
  | _ => None
  end.

(** StrUnsignedDecimalLiteral without a decimal point: [Infinity], or
    digits with an optional exponent [e]/[E], itself with an optional [+]. *)
Definition unsigned_decimal (s : string) : option JSNum :=
  if decide (s = "Infinity") then Some PInf
  else
    let '(d, r) := span_digits s in
    match digits1 10 d with
    | None => None
    | Some m =>
        match r with
        | EmptyString => Some (round_double m)
        | String e x =>
            if (e =? "e")%char || (e =? "E")%char then
              let x' := match x with String "+" y => y | _ => x end in
              match digits1 10 x' with
              | Some k => Some (round_double (m * 10 ^ k))
              | None => None
              end
            else None
        end
    end.

(** [Number(s)], the StringToNumber conversion, for a string without [-]
    and [.]: the only strings the program converts are the pieces of a
    [split(/[-.]/)] (see [split_no_sep]).  Outside that domain (a sign [-],
    a fraction) the definition answers [NaN] and is not to be relied on. *)
Definition Number (s : string) : JSNum :=
  match trim s with
  | EmptyString => Num 0
  | t =>
      match non_decimal t with
      | Some n => round_double n
      | None =>
          let u := match t with String "+" u => u | _ => t end in
          match unsigned_decimal u with
          | Some x => x
          | None => NaN
          end
      end
  end.

(** [s.replace(/^v/, '')] *)
Definition replace_v (s : string) : string :=
  match s with
  | String "v" s' => s'
  | _ => s
  end.

(** [s.split(sep)] for a separator that matches single characters. *)
Fixpoint split_by (p : ascii → bool) (s : string) : list string :=
  match s with
  | EmptyString => [EmptyString]
  | String c s' =>
      if p c then EmptyString :: split_by p s'
      else match split_by p s' with
           | x :: r => String c x :: r
           | [] => [String c EmptyString]
           end
  end.

(** The class [[-.]] *)
Definition is_sep (c : ascii) : bool := (c =? "-")%char || (c =? ".")%char.

(** [s.split(/[-.]/)] *)
Definition split (s : string) : list string := split_by is_sep s.

(** [s.startsWith('v')] *)
Definition startsWith_v (s : string) : bool :=
  match s with
  | String "v" _ => true
  | _ => false
  end.

(** [/^v\d+-\d+-\d+$/.test(s)].  Each [\d+] is followed by a character that
    is not a digit or by the end of the input, so taking the longest run of
    digits loses no match. *)
Definition versionRegex_test (s : string) : bool :=
  match s with
  | String "v" r1 =>
      match span_digits r1 with
      | (String _ _, String "-" r2) =>
          match span_digits r2 with
          | (String _ _, String "-" r3) =>
              match span_digits r3 with
              | (String _ _, EmptyString) => true
              | _ => false
              end
          | _ => false
          end
      | _ => false
      end
  | _ => false
  end.

End JS.

Import JS.


(** ** Completions, errors and events *)

(** What the program throws.  [Error] is [new Error(message)] thrown by the
    plugin itself, [TypeError] is raised by the engine when a property of
    [undefined] is read, [AWSError] is the rejection of an SDK promise. *)
Inductive exn : Type :=
| Error (message : string)
| TypeError (message : string)
| AWSError (message : string).

(** [(error as Error).message] *)
Definition message_of (e : exn) : string :=
  match e with
  | Error m | TypeError m | AWSError m => m
  end.

Inductive completion (A : Type) : Type :=
| Normal (value : A)
| Throw (error : exn).
Arguments Normal {A} value.
Arguments Throw {A} error.

#[global] Instance completion_ret : MRet completion := λ A, Normal.
#[global] Instance completion_bind : MBind completion := λ A B f m,
  match m with
  | Normal a => f a
  | Throw e => Throw e
  end.
#[global] Instance completion_throw : MThrow exn completion := λ A, Throw.

(** The values a hook of the plugin can resolve with: [undefined], or an
    object whose properties are numbers. *)
Inductive jsval : Type :=
| VUndefined
| VObject (props : list (string * JSNum)).

(** [v.key] *)
Definition get_prop (v : jsval) (key : string) : option JSNum :=
  match v with
  | VObject props => snd <$> List.find (λ kv, bool_decide (fst kv = key)) props
  | VUndefined => None
  end.

(** Everything a run does that the outside can see, in the order it
    happens: the three logger methods and the four SDK calls. *)
Inductive event : Type :=
| log_info (msg : string)
| log_success (msg : string)
| log_error (msg : string)
| call_describeStacks (StackName : string)
| call_getStages (restApiId : string)
| call_deleteStack (StackName : string)
| call_waitFor_stackDeleteComplete (StackName : string).

#[global] Instance event_eq_dec : EqDecision event.
Proof. solve_decision. Defined.

(** ** The data of the AWS SDK the code reads *)

Record Stage : Type := {
  stageName : option string;
  tags : option (gmap string string);
}.

(** A reference to a [Stage] object.  [Array.prototype.includes] compares
    objects by identity; the identity of a stage object is its position in
    the [item] array of the response that created it. *)
Record StageRef : Type := {
  ref : nat;
  target : Stage;
}.

Record Stages : Type := {
  item : option (list Stage);
}.

Record Output : Type := {
  OutputKey : option string;
  OutputValue : option string;
}.

Record Stack : Type := {
  Outputs : option (list Output);
}.

Record DescribeStacksOutput : Type := {
  Stacks : option (list Stack);
}.

(** How an SDK promise settles. *)
Inductive settled (A : Type) : Type :=
| Resolved (value : A)
| Rejected (message : string).
Arguments Resolved {A} value.
Arguments Rejected {A} message.

(** The four SDK calls, each acting on the state of the outside world. *)
Record Sdk (World : Type) : Type := {
  describeStacks : string → World → settled DescribeStacksOutput * World;
  getStages : string → World → settled Stages * World;
  deleteStack : string → World → settled () * World;
  waitFor_stackDeleteComplete : string → World → settled () * World;
}.
Arguments describeStacks {World} _ _ _.
Arguments getStages {World} _ _ _.
Arguments deleteStack {World} _ _ _.
Arguments waitFor_stackDeleteComplete {World} _ _ _.

(** ** The plugin instance *)

Record Env : Type := {
  env_retainPolicy : option string;
  env_apiVersion : option string;
}.

(** The fields of [VersionManager] the methods read.  [service] is
    [this.serverless.service.service] ([null] is [None]); [retainPolicy] is
    the number the constructor parsed, which it checks to be positive. *)
Record VersionManager : Type := {
  service : option string;
  stage : string;
  env : Env;
  retainPolicy : Z;
}.

(** ** Version comparison (lines 148-165) *)

(** [s.replace(/^v/, '').split(/[-.]/).map(Number)] *)
Definition components (s : string) : list JSNum :=
  Number <$> split (replace_v s).

Definition undefined_read (prop : string) : exn :=
  TypeError ("Cannot read properties of undefined (reading '" +:+ prop +:+ "')").

(** [arr.reduce(f, init)], the callback receiving the index. *)
Fixpoint reduce_from {A B : Type} (f : B → A → nat → completion B)
    (i : nat) (l : list A) (acc : B) : completion B :=
  match l with
  | [] => Normal acc
  | cur :: l' => acc' ← f acc cur i; reduce_from f (S i) l' acc'
  end.

Definition reduce {A B : Type} (f : B → A → nat → completion B)
    (l : list A) (init : B) : completion B :=
  reduce_from f 0 l init.

(** [b.tags?.ALIAS.replace(/^v/, '').split(/[-.]/).map(Number)[i] ?? 0]:
    an absent [tags] short-circuits the whole chain to [undefined]; a present
    [tags] without [ALIAS] makes [.replace] read a property of [undefined]. *)
Definition semverSort_rhs (b : Stage) (i : nat) : completion JSNum :=
  match tags b with
  | None => Normal (Num 0)
  | Some t =>
      match t !! "ALIAS" with
      | None => Throw (undefined_read "replace")
      | Some alias => Normal (default (Num 0) (components alias !! i))
      end
  end.

(** [semverSort], line 148.  [a.tags!.ALIAS] is a type assertion only: at
    run time an absent [tags] or [ALIAS] raises a [TypeError]. *)
Definition semverSort (a b : Stage) : completion JSNum :=
  match tags a with
  | None => Throw (undefined_read "ALIAS")
  | Some t =>
      match t !! "ALIAS" with
      | None => Throw (undefined_read "replace")
      | Some alias =>
          reduce
            (λ acc cur i,
               if JS.truthy acc then Normal acc
               else bi ← semverSort_rhs b i; Normal (JS.sub cur bi))
            (components alias) (Num 0)
      end
  end.

(** [v[i] || 0] *)
Definition at_or_zero (v : list JSNum) (i : nat) : JSNum :=
  match v !! i with
  | Some x => JS.or x (Num 0)
  | None => Num 0
  end.

(** The [for] loop of [isGreaterVersion]: [n] iterations are left, [i] is
    the index. *)
Fixpoint isGreaterVersion_loop (n i : nat) (v1 v2 : list JSNum) : bool :=
  match n with
  | O => false
  | S n' =>
      let num1 := at_or_zero v1 i in
      let num2 := at_or_zero v2 i in
      if JS.gt num1 num2 then true
      else if JS.lt num1 num2 then false
      else isGreaterVersion_loop n' (S i) v1 v2
  end.

(** [isGreaterVersion], line 152, on two strings. *)
Definition isGreaterVersion (greater lesser : string) : bool :=
  let v1 := components greater in
  let v2 := components lesser in
  isGreaterVersion_loop (Nat.max (length v1) (length v2)) 0 v1 v2.

(** ** Arrays *)

(** [arr.sort(comparefn)].  ECMAScript fixes the result only for a
    consistent [comparefn], where it is the stable sorted permutation; the
    sequence of calls is the engine's.  The model is the stable insertion
    sort, each call being [comparefn(pivot, element)] with the pivot the
    later element.  On an array of two elements this is the one call V8
    makes; on longer arrays V8 looks for runs and inserts by binary search,
    with the same result when [comparefn] is consistent.  With a [comparefn]
    that is not consistent the two can order an array of three or more
    elements differently: what is proved below of the order of the result is
    proved for a consistent [comparefn] or for an array of two elements, and
    the rest uses only that the result is a permutation and which calls of
    [comparefn] throw.  A comparator result that is [NaN] counts as [0]; an
    exception of the comparator aborts the sort. *)
Fixpoint sort_insert {A : Type} (comparefn : A → A → completion JSNum)
    (pivot : A) (sorted_rev : list A) : completion (list A) :=
  match sorted_rev with
  | [] => Normal [pivot]
  | element :: rest =>
      order ← comparefn pivot element;
      if JS.lt order (Num 0)
      then r ← sort_insert comparefn pivot rest; Normal (element :: r)
      else Normal (pivot :: sorted_rev)
  end.

Fixpoint sort_from {A : Type} (comparefn : A → A → completion JSNum)
    (sorted_rev rest : list A) : completion (list A) :=
  match rest with
  | [] => Normal (rev sorted_rev)
  | pivot :: rest' =>
      s ← sort_insert comparefn pivot sorted_rev;
      sort_from comparefn s rest'
  end.

Definition sort {A : Type} (comparefn : A → A → completion JSNum)
    (l : list A) : completion (list A) :=
  sort_from comparefn [] l.

(** [arr.slice(start)] *)
Definition slice {A : Type} (start : Z) (l : list A) : list A :=
  let len := Z.of_nat (length l) in
  let k := if start <? 0 then Z.max (len + start) 0 else Z.min start len in
  drop (Z.to_nat k) l.

(** [arr.includes(x)] on stage objects: identity of the object. *)
Definition includes (arr : list StageRef) (x : StageRef) : bool :=
  existsb (λ y, Nat.eqb (ref y) (ref x)) arr.

(** ** The orchestration monad

    An [async] method is a function of the world that yields a completion,
    the world it leaves behind and the events it emitted, oldest first. *)
Definition M (World A : Type) : Type :=
  World → completion A * World * list event.

#[global] Instance M_ret {World} : MRet (M World) := λ A a w, (Normal a, w, []).
#[global] Instance M_bind {World} : MBind (M World) := λ A B f m w,
  match m w with
  | (Normal a, w1, tr1) => let '(c, w2, tr2) := f a w1 in (c, w2, tr1 ++ tr2)
  | (Throw e, w1, tr1) => (Throw e, w1, tr1)
  end.
#[global] Instance M_throw {World} : MThrow exn (M World) :=
  λ A e w, (Throw e, w, []).

Definition emit {World} (ev : event) : M World () :=
  λ w, (Normal (), w, [ev]).

(** [await call.promise()]: the call is recorded, a rejection is thrown. *)
Definition await {World A} (ev : event) (call : World → settled A * World)
    : M World A :=
  λ w, match call w with
       | (Resolved a, w1) => (Normal a, w1, [ev])
       | (Rejected msg, w1) => (Throw (AWSError msg), w1, [ev])
       end.

(** [try { body } catch (error) { handler }] *)
Definition try_catch {World A} (body : M World A) (handler : exn → M World A)
    : M World A :=
  λ w, match body w with
       | (Normal a, w1, tr1) => (Normal a, w1, tr1)
       | (Throw e, w1, tr1) =>
           let '(c, w2, tr2) := handler e w1 in (c, w2, tr1 ++ tr2)
       end.

(** A pure computation that may throw. *)
Definition lift {World A} (c : completion A) : M World A :=
  λ w, (c, w, []).

(** [for (const x of l) body], [continue] being the end of the body. *)
Fixpoint for_of {World A} (body : A → M World ()) (l : list A) : M World () :=
  match l with
  | [] => mret ()
  | x :: l' => body x;; for_of body l'
  end.

Definition completion_of {World A} (r : completion A * World * list event)
    : completion A := r.1.1.
Definition world_of {World A} (r : completion A * World * list event)
    : World := r.1.2.
Definition trace_of {World A} (r : completion A * World * list event)
    : list event := r.2.
Arguments completion_of {World A} !r /.
Arguments world_of {World A} !r /.
Arguments trace_of {World A} !r /.

(** ** The methods of [VersionManager] *)

Section VersionManager.
Context {World : Type} (aws : Sdk World).

(** A string in a condition: the empty string is falsy. *)
Definition truthy_string (s : string) : bool := negb (bool_decide (s = "")).

(** [x || y] on strings, [x] possibly [undefined]. *)
Definition or_string (x : option string) (y : string) : string :=
  match x with
  | Some s => if truthy_string s then s else y
  | None => y
  end.

(** Lines 208-214 on the response of [describeStacks]. *)
Definition restApiId_of (stack : DescribeStacksOutput) : completion string :=
  outputs ← match Stacks stack with
            | None => Normal None
            | Some l =>
                match l !! 0%nat with
                | None => Throw (undefined_read "Outputs")
                | Some s => Normal (Outputs s)
                end
            end;
  let apiGatewayOutput :=
    outputs ≫= List.find (λ output,
      bool_decide (OutputKey output = Some "ApiGatewayRestApi")) in
  match apiGatewayOutput ≫= OutputValue with
  | None => Throw (Error "Rest API ID could not be found")
  | Some restApiId => Normal restApiId
  end.

(** [stage.stageName?.startsWith('v')] *)
Definition is_version_stage (st : Stage) : bool :=
  match stageName st with
  | Some n => startsWith_v n
  | None => false
  end.

(** The stage objects of a response, each with its identity. *)
Definition stage_objects (l : list Stage) : list StageRef :=
  imap (λ i st, {| ref := i; target := st |}) l.

(** [getStagesInOrder], line 202. *)
Definition getStagesInOrder (vm : VersionManager)
    : M World (option (list StageRef)) :=
  match service vm with
  | None => mthrow (Error "Service is not defined")
  | Some service =>
      let stackName := service +:+ "-" +:+ stage vm in
      stack ← await (call_describeStacks stackName)
                 (describeStacks aws stackName);
      restApiId ← lift (restApiId_of stack);
      stages ← await (call_getStages restApiId) (getStages aws restApiId);
      let versionStages :=
        List.filter (λ r, is_version_stage (target r)) <$>
          (stage_objects <$> item stages) in
      match versionStages with
      | None => mret None
      | Some l =>
          sorted ← lift (sort (λ a b, semverSort (target a) (target b)) l);
          mret (Some sorted)
      end
  end.

(** The body of the loop at line 114 for one stage. *)
Definition retire_stage (vm : VersionManager) (service : string)
    (st : StageRef) : M World () :=
  let version := tags (target st) ≫= (.!! "ALIAS") in
  match stageName (target st) with
  | None => emit (log_error "STAGE undefined, continuing")
  | Some name =>
      match version with
      | None => emit (log_info ("ALIAS not present for stage " +:+ name))
      | Some version =>
          let aliasStackName :=
            or_string (Some service) "" +:+ "-" +:+ stage vm +:+ "-"
            +:+ version in
          emit (log_info ("Removing stack for version: " +:+ version));;
          try_catch
            (await (call_deleteStack aliasStackName)
               (deleteStack aws aliasStackName);;
             await (call_waitFor_stackDeleteComplete aliasStackName)
               (waitFor_stackDeleteComplete aws aliasStackName);;
             emit (log_success
                     ("Successfully removed stack for version: " +:+ version)))
            (λ error,
               emit (log_error ("Warning: Error removing version " +:+ version
                                +:+ ": " +:+ message_of error)))
      end
  end.

(** Lines 110-111: the stages to keep and the stages to delete. *)
Definition stagesToKeep (vm : VersionManager) (orderedStages : list StageRef)
    : list StageRef :=
  slice (- retainPolicy vm) orderedStages.

Definition stagesToDelete (vm : VersionManager) (orderedStages : list StageRef)
    : list StageRef :=
  List.filter (λ st, negb (includes (stagesToKeep vm orderedStages) st))
    orderedStages.

(** [cleanupVersions], line 104.  The method has no [return]: it resolves
    with [undefined]. *)
Definition cleanupVersions (vm : VersionManager) : M World jsval :=
  match service vm with
  | None => mthrow (Error "Service is not defined")
  | Some service =>
      orderedStages ← getStagesInOrder vm;
      match stagesToDelete vm <$> orderedStages with
      | None => mthrow (Error "Stages could not be determined")
      | Some toDelete =>
          for_of (retire_stage vm service) toDelete;;
          mret VUndefined
      end
  end.

(** [afterDeploy], line 167. *)
Definition afterDeploy (vm : VersionManager) : M World jsval :=
  cleanupVersions vm;; mret VUndefined.

Definition format_message : string :=
  "apiVersion must be in format vX-Y-Z (e.g., v3-2-0)".

(** Lines 182-184: the format is tested only when [apiVersion] is truthy,
    and the test is the regular expression. *)
Definition format_violation (apiVersion : string) : bool :=
  truthy_string apiVersion && negb (versionRegex_test apiVersion).

Definition not_greater_message (apiVersion alias : string) : string :=
  "The version provided: (" +:+ apiVersion +:+ ") should be greater than "
  +:+ alias.

(** [validateVersion], line 171. *)
Definition validateVersion (vm : VersionManager) : M World jsval :=
  match env_retainPolicy (env vm) with
  | None | Some EmptyString =>
      mthrow (Error "retainPolicy must be configured in custom.versionManager.retainPolicy")
  | Some retainPolicy =>
      match env_apiVersion (env vm) with
      | None => mthrow (Error "apiVersion must be provided")
      | Some apiVersion =>
          (if format_violation apiVersion
           then mthrow (Error format_message)
           else mret ());;
          orderedStages ← getStagesInOrder vm;
          let lastStage := orderedStages ≫= last in
          match lastStage ≫= (λ st, tags (target st)) with
          | Some lastTags =>
              emit (log_info ("Last deployed version: " +:+
                      or_string (lastStage ≫= (λ st, stageName (target st)))
                        "undefined stage"));;
              match lastTags !! "ALIAS" with
              | None => mthrow (undefined_read "replace")
              | Some alias =>
                  if negb (isGreaterVersion apiVersion alias)
                  then mthrow (Error (not_greater_message apiVersion alias))
                  else mret ()
              end
          | None => mret ()
          end;;
          emit (log_info ("Using retention policy: " +:+ retainPolicy
                          +:+ " versions"));;
          mret VUndefined
      end
  end.

End VersionManager.

(** ** The constructor and [getNextVersion] (lines 38-102) *)

(** [x + y] *)
Definition num_add (x y : JSNum) : JSNum :=
  match x, y with
  | NaN, _ | _, NaN => NaN
  | Num a, Num b => round_double (a + b)
  | PInf, NInf | NInf, PInf => NaN
  | PInf, _ | _, PInf => PInf
  | NInf, _ | _, NInf => NInf
  end.

(** [x <= y] *)
Definition num_le (x y : JSNum) : bool :=
  match x, y with
  | NaN, _ | _, NaN => false
  | _, _ => negb (JS.lt y x)
  end.

(** [parseInt(s, 10)]: leading white space, an optional sign, then the
    longest run of decimal digits; [NaN] when there is no digit.  The result
    [-0] of an input such as ["-0"] is [Num 0] here: the only tests made on
    the result, [Number.isNaN] and [<= 0], do not tell the two zeros apart. *)
Definition parseInt10 (s : string) : JSNum :=
  let t := trim_start s in
  let '(negative, u) :=
    match t with
    | String "-" r => (true, r)
    | String "+" r => (false, r)
    | _ => (false, t)
    end in
  let '(d, _) := span_digits u in
  match digits1 10 d with
  | None => NaN
  | Some m => round_double (if negative : bool then - m else m)
  end.

(** [custom.versionManager] of the service file. *)
Record Custom : Type := {
  custom_stack : option string;
  custom_retainPolicy : option string;
  custom_apiVersion : option string;
}.

(** What the constructor reads of [this.serverless.service]. *)
Record ServerlessService : Type := {
  service_service : option string;
  provider_stage : option string;
  custom_versionManager : option Custom;
}.

(** The fields the constructor sets.  [retainPolicy] is a number here: for
    a run of more than 308 digits [parseInt] answers [Infinity], which passes
    the checks. *)
Record Instance : Type := {
  this_service : option string;
  this_stage : string;
  this_stack : string;
  this_env : Env;
  this_retainPolicy : JSNum;
}.

(** The constructor, lines 38-59, the provider and its SDK being there; the
    tables of commands and hooks that follow cannot fail. *)
Definition constructor (sls : ServerlessService) : completion Instance :=
  let stage := or_string (provider_stage sls) "dev" in
  let stack := custom_versionManager sls ≫= custom_stack in
  match stack with
  | None | Some EmptyString =>
      Throw (Error "Stack must be configured in custom.versionManager.stack")
  | Some stack =>
      let env := custom_versionManager sls in
      match env ≫= custom_retainPolicy with
      | None | Some EmptyString =>
          Throw (Error "retainPolicy must be configured in custom.versionManager.retainPolicy")
      | Some retainPolicy =>
          let parsedRetainPolicy := parseInt10 retainPolicy in
          if bool_decide (parsedRetainPolicy = NaN)
             || num_le parsedRetainPolicy (Num 0)
          then Throw (Error "retainPolicy must be a positive number")
          else
            Normal {| this_service := service_service sls;
                      this_stage := stage;
                      this_stack := stack;
                      this_env :=
                        {| env_retainPolicy := Some retainPolicy;
                           env_apiVersion := env ≫= custom_apiVersion |};
                      this_retainPolicy := parsedRetainPolicy |}
      end
  end.

(** The instance as the methods above take it, when its retention count is
    finite. *)
Definition as_VersionManager (this : Instance) : option VersionManager :=
  match this_retainPolicy this with
  | Num z =>
      Some {| service := this_service this; stage := this_stage this;
              env := this_env this; retainPolicy := z |}
  | _ => None
  end.

(** The decimal digits of a non-negative integer, most significant first;
    [fuel] bounds their number. *)
Fixpoint decimal_digits (fuel : nat) (z : Z) (acc : string) : string :=
  match fuel with
  | O => acc
  | S fuel' =>
      let acc' := String (ascii_of_N (Z.to_N (48 + z mod 10))) acc in
      if z <? 10 then acc' else decimal_digits fuel' (z / 10) acc'
  end.

(** [String(n)] for a number that is [NaN], infinite or an integer below
    [10^21] in absolute value, where it is written without an exponent. *)
Definition ToString (n : JSNum) : string :=
  match n with
  | NaN => "NaN"
  | PInf => "Infinity"
  | NInf => "-Infinity"
  | Num z =>
      if z <? 0
      then String "-" (decimal_digits (S (Z.to_nat (Z.log2 (- z)))) (- z) "")
      else decimal_digits (S (Z.to_nat (Z.log2 z))) z ""
  end.

(** [`${x}`] for a number or [undefined] *)
Definition template (x : option JSNum) : string :=
  match x with
  | Some n => ToString n
  | None => "undefined"
  end.

(** [s[s.length - 1]] *)
Fixpoint last_char (s : string) : option ascii :=
  match s with
  | EmptyString => None
  | String c EmptyString => Some c
  | String _ s' => last_char s'
  end.

(** [getNextVersion], line 89.  The parameter is declared a [string]:
    [currentVersions[currentVersions.length - 1]] is its last character.
    The pieces [Number] converts here are that character or, for a dot, two
    empty strings; on a single character [Number] above is exact, a lone
    sign being [NaN]. *)
Definition getNextVersion (vm : VersionManager) (currentVersions : string)
    : string :=
  match env_apiVersion (env vm) with
  | Some (String c v) => String c v
  | _ =>
      match last_char currentVersions with
      | None => "1.0.0"
      | Some c =>
          let latestVersion := String c EmptyString in
          let parts :=
            Number <$> split_by (λ x, (x =? ".")%char) latestVersion in
          let major := parts !! 0%nat in
          let minor := parts !! 1%nat in
          let patch := parts !! 2%nat in
          template major +:+ "." +:+ template minor +:+ "."
          +:+ ToString (match patch with
                        | Some p => num_add p (Num 1)
                        | None => NaN
                        end)
      end
  end.

(** ** A concrete cloud

    One API with the given stages; deleting a stack fails for the names
    listed in [failing], and the world records the stacks deleted. *)
Module Scenario.

Record Cloud : Type := {
  stages : list Stage;
  failing : list string;
  deleted : list string;
}.

Definition sdk : Sdk Cloud := {|
  describeStacks := λ _ w,
    (Resolved {| Stacks := Some [ {| Outputs := Some [
       {| OutputKey := Some "ApiGatewayRestApi";
          OutputValue := Some "api" |} ] |} ] |}, w);
  getStages := λ _ w, (Resolved {| item := Some (stages w) |}, w);
  deleteStack := λ name w,
    if bool_decide (name ∈ failing w)
    then (Rejected "stack is locked", w)
    else (Resolved (), {| stages := stages w; failing := failing w;
                          deleted := deleted w ++ [name] |});
  waitFor_stackDeleteComplete := λ _ w, (Resolved (), w);
|}.

(** A version stage named after its tag. *)
Definition tagged (alias : string) : Stage :=
  {| stageName := Some alias; tags := Some {[ "ALIAS" := alias ]} |}.

Definition cloud (l : list Stage) (bad : list string) : Cloud :=
  {| stages := l; failing := bad; deleted := [] |}.

Definition plugin (retain : Z) (apiVersion : option string) : VersionManager :=
  {| service := Some "svc"; stage := "dev";
     env := {| env_retainPolicy := Some "2"; env_apiVersion := apiVersion |};
     retainPolicy := retain |}.

End Scenario.

(** * The vocabulary of the properties *)

(** ** Version tokens: the specification's reading *)

(** The spec's shape [v<int>(-<int>)*], written after its words: the marker
    [v], then integers separated by [-]; an integer is one or more decimal
    digits.  A second definition, to compare the code with. *)
Module Token.

Definition is_dash (c : ascii) : bool := (c =? "-")%char.

Definition is_decimal_digit (c : ascii) : bool :=
  (48 <=? code c) && (code c <=? 57).

Fixpoint all_decimal (s : string) : bool :=
  match s with
  | EmptyString => true
  | String c s' => is_decimal_digit c && all_decimal s'
  end.

Definition is_int (s : string) : bool :=
  match s with
  | EmptyString => false
  | _ => all_decimal s
  end.

(** The integer a string of digits denotes, by position. *)
Fixpoint int_of (s : string) : Z :=
  match s with
  | EmptyString => 0
  | String c s' => (code c - 48) * 10 ^ Z.of_nat (String.length s') + int_of s'
  end.

Definition shape (s : string) : bool :=
  match s with
  | String "v" r => forallb is_int (split_by is_dash r)
  | _ => false
  end.

(** [parse] of the spec: the tuple of integers of a string of the shape. *)
Definition parse (s : string) : option (list Z) :=
  match s with
  | String "v" r =>
      if forallb is_int (split_by is_dash r)
      then Some (int_of <$> split_by is_dash r)
      else None
  | _ => None
  end.

(** [compare] of the spec: component by component from the left, the
    shorter token padded with zeros on the right. *)
Definition pad (n : nat) (t : list Z) : list Z :=
  t ++ replicate (n - length t) 0.

Fixpoint lex_compare (a b : list Z) : comparison :=
  match a, b with
  | x :: a', y :: b' =>
      match x ?= y with
      | Eq => lex_compare a' b'
      | c => c
      end
  | _, _ => Eq
  end.

Definition compare (a b : list Z) : comparison :=
  let n := Nat.max (length a) (length b) in
  lex_compare (pad n a) (pad n b).

(** The exactly three components of the format [vX-Y-Z]. *)
Definition three_components (s : string) : Prop :=
  ∃ x y z, is_int x = true ∧ is_int y = true ∧ is_int z = true
           ∧ s = "v" +:+ x +:+ "-" +:+ y +:+ "-" +:+ z.

End Token.

(** [Number.MAX_SAFE_INTEGER] *)
Definition MAX_SAFE_INTEGER : Z := 2 ^ 53 - 1.

(** The three-way comparison [isGreaterVersion] induces. *)
Definition compareVersion (a b : string) : comparison :=
  if isGreaterVersion a b then Gt
  else if isGreaterVersion b a then Lt
  else Eq.

(** ** Planning and teardown *)

(** The number of stages kept out of [len]. *)
Definition kept_count (vm : VersionManager) (len : nat) : nat :=
  Nat.min (Z.to_nat (retainPolicy vm)) len.

(** The stack a stage is torn down as, when its name and its [ALIAS] tag are
    both readable. *)
Definition teardown_name (vm : VersionManager) (service : string)
    (st : StageRef) : option string :=
  match stageName (target st), tags (target st) ≫= (.!! "ALIAS") with
  | Some _, Some version =>
      Some (or_string (Some service) "" +:+ "-" +:+ stage vm +:+ "-"
            +:+ version)
  | _, _ => None
  end.

(** The message of the first call that rejects, deleting then waiting. *)
Definition teardown_error {World : Type} (aws : Sdk World) (name : string)
    (w : World) : option string :=
  match deleteStack aws name w with
  | (Rejected m, _) => Some m
  | (Resolved _, w1) =>
      match waitFor_stackDeleteComplete aws name w1 with
      | (Rejected m, _) => Some m
      | (Resolved _, _) => None
      end
  end.

(** ** Reading a trace *)

Definition deleteStack_calls (tr : list event) : list string :=
  omap (λ ev, match ev with call_deleteStack n => Some n | _ => None end) tr.

Definition is_call (ev : event) : bool :=
  match ev with
  | log_info _ | log_success _ | log_error _ => false
  | _ => true
  end.

Definition sdk_calls (tr : list event) : list event := List.filter is_call tr.

(** The three kinds of event that end the treatment of one record. *)
Definition is_success (ev : event) : bool :=
  match ev with
  | log_success _ => true
  | _ => false
  end.

Definition is_teardown_error (ev : event) : bool :=
  match ev with
  | log_error m => String.prefix "Warning: Error removing version " m
  | _ => false
  end.

Definition is_skip (ev : event) : bool :=
  match ev with
  | log_error m => bool_decide (m = "STAGE undefined, continuing")
  | log_info m => String.prefix "ALIAS not present for stage " m
  | _ => false
  end.

Definition count (f : event → bool) (tr : list event) : nat :=
  length (List.filter f tr).

Definition outcomes (tr : list event) : nat :=
  (count is_success tr + count is_teardown_error tr + count is_skip tr)%nat.

(** Sequences of SDK calls made of whole cycles: a deletion followed by the
    wait for the same stack, or a deletion alone when it was rejected. *)
Inductive cycles : list event → Prop :=
| cycles_nil : cycles []
| cycles_complete n tr :
    cycles tr →
    cycles (call_deleteStack n :: call_waitFor_stackDeleteComplete n :: tr)
| cycles_rejected n tr :
    cycles tr → cycles (call_deleteStack n :: tr).

(** The teardown calls of a run that starts in one world and ends in
    another, read against the answers of the SDK: a deletion the SDK resolved
    is followed by the wait for the same stack, whatever the wait answers; a
    deletion the SDK rejected is followed by no wait; each call is made in
    the world the previous one left. *)
Inductive teardowns {World : Type} (aws : Sdk World)
    : World → list event → World → Prop :=
| teardowns_nil w : teardowns aws w [] w
| teardowns_complete n w w1 w2 w3 r tr :
    deleteStack aws n w = (Resolved (), w1) →
    waitFor_stackDeleteComplete aws n w1 = (r, w2) →
    teardowns aws w2 tr w3 →
    teardowns aws w
      (call_deleteStack n :: call_waitFor_stackDeleteComplete n :: tr) w3
| teardowns_rejected n m w w1 w3 tr :
    deleteStack aws n w = (Rejected m, w1) →
    teardowns aws w1 tr w3 →
    teardowns aws w (call_deleteStack n :: tr) w3.

Definition is_TypeError (e : exn) : Prop := ∃ m, e = TypeError m.

(** ** Tokens of stages *)

(** What follows a run of digits is the end or a character that is not a
    digit. *)
Definition no_digit_ahead (r : string) : Prop :=
  match r with
  | String c _ => Token.is_decimal_digit c = false
  | EmptyString => True
  end.

Fixpoint no_sep (s : string) : bool :=
  match s with
  | EmptyString => true
  | String c s' => negb (is_sep c) && no_sep s'
  end.

(** The first non-zero difference over the components of [ta], [tb] being
    read at the same indices and padded with zeros: what the [reduce] of
    [semverSort] computes. *)
Fixpoint first_difference (ta tb : list Z) : Z :=
  match ta with
  | [] => 0
  | x :: ta' =>
      let d := x - hd 0 tb in
      if d =? 0 then first_difference ta' (tail tb) else d
  end.

Definition safe (t : list Z) : Prop :=
  Forall (λ z, 0 ≤ z ≤ MAX_SAFE_INTEGER) t.

(** The token of a stage, read from its [ALIAS] tag. *)
Definition token_of (st : Stage) : option (list Z) :=
  (tags st ≫= (.!! "ALIAS")) ≫= Token.parse.

(** A stage whose tag is a token of [n] exactly representable components. *)
Definition uniform (n : nat) (st : Stage) : Prop :=
  ∃ t, token_of st = Some t ∧ length t = n
       ∧ Forall (λ z, z ≤ MAX_SAFE_INTEGER) t.

(** [x] is not above [y] in the spec's order of tokens. *)
Definition not_above (x y : Stage) : Prop :=
  ∀ tx ty, token_of x = Some tx → token_of y = Some ty →
           Token.compare tx ty ≠ Gt.

(** ** Kinds of events *)

(** The two calls that change what is deployed. *)
Definition is_teardown_call (ev : event) : bool :=
  match ev with
  | call_deleteStack _ | call_waitFor_stackDeleteComplete _ => true
  | _ => false
  end.

Definition is_log_info (ev : event) : bool :=
  match ev with
  | log_info _ => true
  | _ => false
  end.

(** The traces the registry query can leave: nothing, the call of
    [describeStacks], or that call followed by the call of [getStages]. *)
Definition registry_trace (tr : list event) : Prop :=
  tr = []
  ∨ (∃ n, tr = [call_describeStacks n])
  ∨ (∃ n id, tr = [call_describeStacks n; call_getStages id]).

(** ** Where two versions part *)

(** [v1] and [v2], read with [v[i] || 0], agree before index [k] and [v1] is
    the greater at [k]. *)
Definition greater_at (v1 v2 : list JSNum) (k : nat) : Prop :=
  (∀ j, (j < k)%nat → at_or_zero v1 j = at_or_zero v2 j)
  ∧ JS.gt (at_or_zero v1 k) (at_or_zero v2 k) = true.

(** ** Other spellings of a version *)

(** The string with every [.] turned into [-]. *)
Fixpoint dots_to_dashes (s : string) : string :=
  match s with
  | EmptyString => EmptyString
  | String c s' =>
      String (if (c =? ".")%char then "-"%char else c) (dots_to_dashes s')
  end.

(** The [ALIAS] tag of a stage, if it has one. *)
Definition alias_of (st : Stage) : option string :=
  tags st ≫= (.!! "ALIAS").

(** ** Concrete clouds *)

(** A retire set of two records, the first deletion failing, the second
    succeeding, and one record kept. *)
Definition two_retired : Scenario.Cloud :=
  Scenario.cloud
    [Scenario.tagged "v1-0-0"; Scenario.tagged "v1-1-0"; Scenario.tagged "v1-2-0"]
    ["svc-dev-v1-0-0"].

(** Two version stages, the newer one with a [tags] object that has no
    [ALIAS]. *)
Definition untagged_stage : Scenario.Cloud :=
  Scenario.cloud
    [Scenario.tagged "v1-0-0";
     {| stageName := Some "v2-0-0"; tags := Some {[ "owner" := "ops" ]} |}]
    [].

(** The same, the newer stage having no [tags] at all. *)
Definition tagless_stage : Scenario.Cloud :=
  Scenario.cloud
    [Scenario.tagged "v1-0-0";
     {| stageName := Some "v2-0-0"; tags := None |}]
    [].

(** The registry lists [v1-0-1] before [v1]. *)
Definition unequal_lengths : Scenario.Cloud :=
  Scenario.cloud [Scenario.tagged "v1-0-1"; Scenario.tagged "v1"] [].

(** * Properties *)

(** ** Retention planning *)

Section Planning.
Context (vm : VersionManager) (Hpos : 0 < retainPolicy vm).

Lemma stagesToKeep_drop (ordered : list StageRef) :
  stagesToKeep vm ordered
  = drop (length ordered - kept_count vm (length ordered)) ordered.
Proof using Hpos.
  unfold stagesToKeep, slice, kept_count.
  destruct (Z.ltb_spec (- retainPolicy vm) 0) as [_|?]; [|lia].
  f_equal. lia.
Qed.

Lemma includes_true (arr : list StageRef) (x : StageRef) :
  x ∈ arr → includes arr x = true.
Proof.
  intros Hin. unfold includes. apply existsb_exists.
  exists x. split; [by apply list_elem_of_In | apply Nat.eqb_refl].
Qed.

Lemma includes_false (arr : list StageRef) (x : StageRef) :
  ref x ∉ ref <$> arr → includes arr x = false.
Proof.
  intros Hnot. unfold includes.
  destruct (existsb _ arr) eqn:E; [|done].
  apply existsb_exists in E as (y & Hy & Heq).
  apply Nat.eqb_eq in Heq. exfalso. apply Hnot.
  rewrite <- Heq. apply list_elem_of_fmap. exists y.
  split; [done | by apply list_elem_of_In].
Qed.

Lemma filter_all {A} (f : A → bool) (l : list A) :
  (∀ x, x ∈ l → f x = true) → List.filter f l = l.
Proof.
  induction l as [|a l IH]; intros H; [done|]. simpl.
  rewrite H by left. f_equal. apply IH. intros x Hx. apply H. by right.
Qed.

Lemma filter_none {A} (f : A → bool) (l : list A) :
  (∀ x, x ∈ l → f x = false) → List.filter f l = [].
Proof.
  induction l as [|a l IH]; intros H; [done|]. simpl.
  rewrite H by left. apply IH. intros x Hx. apply H. by right.
Qed.

Lemma filter_not_included (l1 l2 : list StageRef) :
  NoDup (ref <$> (l1 ++ l2)) →
  List.filter (λ st, negb (includes l2 st)) (l1 ++ l2) = l1.
Proof.
  intros Hnd. rewrite fmap_app in Hnd.
  apply NoDup_app in Hnd as (_ & Hdisj & _).
  rewrite List.filter_app.
  rewrite filter_all, filter_none; [by rewrite app_nil_r | |].
  - intros x Hx. by rewrite includes_true.
  - intros x Hx. rewrite includes_false; [done|].
    apply Hdisj. apply list_elem_of_fmap. by exists x.
Qed.

Lemma stagesToDelete_take (ordered : list StageRef) :
  NoDup (ref <$> ordered) →
  stagesToDelete vm ordered
  = take (length ordered - kept_count vm (length ordered)) ordered.
Proof using Hpos.
  intros Hnd. unfold stagesToDelete. rewrite stagesToKeep_drop.
  set (k := (length ordered - kept_count vm (length ordered))%nat).
  pose proof (filter_not_included (take k ordered) (drop k ordered)) as H.
  rewrite take_drop in H. by apply H.
Qed.

End Planning.

(** C2.  Retention partition.  For an array of distinct stage objects (what
    every response of the registry is, see [getStagesInOrder_NoDup]) and a
    positive retention count, the stages kept are the last
    [min retainPolicy length] of the ordered input, the stages deleted are
    the prefix before them; the two are disjoint and make up the input.  An
    empty input gives two empty lists, and a retention count of at least the
    length deletes nothing. *)
Theorem retention_partition (vm : VersionManager) (ordered : list StageRef) :
  0 < retainPolicy vm →
  NoDup (ref <$> ordered) →
  let n := Nat.min (Z.to_nat (retainPolicy vm)) (length ordered) in
  let keep := stagesToKeep vm ordered in
  let retire := stagesToDelete vm ordered in
  keep = drop (length ordered - n) ordered
  ∧ retire = take (length ordered - n) ordered
  ∧ length keep = n
  ∧ retire ++ keep = ordered
  ∧ (∀ st, st ∈ retire → st ∉ keep)
  ∧ (ordered = [] → keep = [] ∧ retire = [])
  ∧ (Z.of_nat (length ordered) ≤ retainPolicy vm →
     keep = ordered ∧ retire = []).
Proof.
  intros Hpos Hnd n keep retire.
  assert (Hk : keep = drop (length ordered - n) ordered)
    by apply (stagesToKeep_drop vm Hpos).
  assert (Hr : retire = take (length ordered - n) ordered)
    by apply (stagesToDelete_take vm Hpos _ Hnd).
  split; [done|]. split; [done|].
  split; [rewrite Hk, length_drop; lia|].
  split; [rewrite Hk, Hr; apply take_drop|].
  split.
  - intros st Hin Hin'. rewrite Hr in Hin. rewrite Hk in Hin'.
    rewrite <- (take_drop (length ordered - n) ordered), fmap_app in Hnd.
    apply NoDup_app in Hnd as (_ & Hdisj & _).
    apply (Hdisj (ref st)); apply list_elem_of_fmap; by exists st.
  - split.
    + intros ->. by rewrite Hk, Hr.
    + intros Hle. rewrite Hk, Hr.
      replace (length ordered - n)%nat with 0%nat by lia.
      by rewrite drop_0, take_0.
Qed.

Lemma retention_partition_witness :
  let vm := Scenario.plugin 2 None in
  let ordered := stage_objects
    [Scenario.tagged "v1"; Scenario.tagged "v2"; Scenario.tagged "v3";
     Scenario.tagged "v4"; Scenario.tagged "v5"] in
  stagesToKeep vm ordered = drop 3 ordered
  ∧ stagesToDelete vm ordered = take 3 ordered.
Proof.
  intros vm ordered.
  assert (Hpos : 0 < retainPolicy vm) by (simpl; lia).
  assert (Hnd : NoDup (ref <$> ordered))
    by (apply (bool_decide_unpack _); vm_compute; exact I).
  destruct (retention_partition vm ordered Hpos Hnd) as (Hk & Hr & _).
  split; [exact Hk | exact Hr].
Defined.

(** ** The retirement loop *)

Section Retirement.
Context {World : Type} (aws : Sdk World) (vm : VersionManager)
  (service : string).

(** One iteration, case by case. *)
Lemma retire_stage_unfold (st : StageRef) (w : World) :
  retire_stage aws vm service st w =
  match stageName (target st) with
  | None => (Normal (), w, [log_error "STAGE undefined, continuing"])
  | Some name =>
      match tags (target st) ≫= (.!! "ALIAS") with
      | None =>
          (Normal (), w, [log_info ("ALIAS not present for stage " +:+ name)])
      | Some version =>
          let n := or_string (Some service) "" +:+ "-" +:+ stage vm +:+ "-"
                   +:+ version in
          let start := log_info ("Removing stack for version: " +:+ version) in
          let failed m :=
            log_error ("Warning: Error removing version " +:+ version
                       +:+ ": " +:+ m) in
          match deleteStack aws n w with
          | (Rejected m, w1) =>
              (Normal (), w1, [start; call_deleteStack n; failed m])
          | (Resolved _, w1) =>
              match waitFor_stackDeleteComplete aws n w1 with
              | (Rejected m, w2) =>
                  (Normal (), w2,
                   [start; call_deleteStack n;
                    call_waitFor_stackDeleteComplete n; failed m])
              | (Resolved _, w2) =>
                  (Normal (), w2,
                   [start; call_deleteStack n;
                    call_waitFor_stackDeleteComplete n;
                    log_success ("Successfully removed stack for version: "
                                 +:+ version)])
              end
          end
      end
  end.
Proof.
  unfold retire_stage.
  destruct (stageName (target st)) as [name|]; [|done].
  destruct (tags (target st) ≫= (.!! "ALIAS")) as [version|]; [|done].
  unfold mbind, M_bind, try_catch, await, emit. cbn zeta.
  destruct (deleteStack aws _ w) as [[[]|m] w1]; [|done].
  by destruct (waitFor_stackDeleteComplete aws _ w1) as [[[]|m] w2].
Qed.

Lemma retire_stage_normal (st : StageRef) (w : World) :
  completion_of (retire_stage aws vm service st w) = Normal ().
Proof.
  rewrite retire_stage_unfold.
  destruct (stageName (target st)); [|done].
  destruct (tags (target st) ≫= (.!! "ALIAS")); [|done]. cbn zeta.
  destruct (deleteStack aws _ w) as [[[]|m] w1]; [|done].
  by destruct (waitFor_stackDeleteComplete aws _ w1) as [[[]|m] w2].
Qed.

Lemma retire_stage_deletes (st : StageRef) (w : World) :
  deleteStack_calls (trace_of (retire_stage aws vm service st w))
  = option_list (teardown_name vm service st).
Proof.
  rewrite retire_stage_unfold. unfold teardown_name.
  destruct (stageName (target st)); [|done].
  destruct (tags (target st) ≫= (.!! "ALIAS")); [|done]. cbn zeta.
  destruct (deleteStack aws _ w) as [[[]|m] w1]; [|done].
  by destruct (waitFor_stackDeleteComplete aws _ w1) as [[[]|m] w2].
Qed.

Lemma for_of_cons {A} (body : A → M World ()) (x : A) (l : list A) (w : World) :
  for_of body (x :: l) w =
  match body x w with
  | (Normal _, w1, tr1) =>
      let '(c, w2, tr2) := for_of body l w1 in (c, w2, tr1 ++ tr2)
  | (Throw e, w1, tr1) => (Throw e, w1, tr1)
  end.
Proof. reflexivity. Qed.

Lemma deleteStack_calls_app (t1 t2 : list event) :
  deleteStack_calls (t1 ++ t2) = deleteStack_calls t1 ++ deleteStack_calls t2.
Proof. apply omap_app. Qed.

Lemma retire_loop_spec (l : list StageRef) (w : World) :
  completion_of (for_of (retire_stage aws vm service) l w) = Normal ()
  ∧ deleteStack_calls (trace_of (for_of (retire_stage aws vm service) l w))
    = omap (teardown_name vm service) l.
Proof.
  revert w. induction l as [|st l IH]; intros w; [done|].
  rewrite for_of_cons.
  pose proof (retire_stage_normal st w) as Hn.
  pose proof (retire_stage_deletes st w) as Hd.
  destruct (retire_stage aws vm service st w) as [[c w1] tr1].
  simpl in Hn, Hd. subst c.
  destruct (IH w1) as [IHn IHd].
  destruct (for_of _ l w1) as [[c2 w2] tr2]. simpl in *.
  split; [done|].
  rewrite deleteStack_calls_app, Hd, IHd.
  by destruct (teardown_name vm service st).
Qed.

Lemma retire_stage_logs_failure (st : StageRef) (w : World)
    (name version n m : string) :
  stageName (target st) = Some name →
  tags (target st) ≫= (.!! "ALIAS") = Some version →
  teardown_name vm service st = Some n →
  teardown_error aws n w = Some m →
  log_error ("Warning: Error removing version " +:+ version +:+ ": " +:+ m)
    ∈ trace_of (retire_stage aws vm service st w).
Proof.
  intros Hname Hver Hn Herr. rewrite retire_stage_unfold.
  unfold teardown_name in Hn. rewrite Hname, Hver in *. simplify_eq.
  cbn zeta. unfold teardown_error in Herr.
  destruct (deleteStack aws _ w) as [[[]|m'] w1].
  - destruct (waitFor_stackDeleteComplete aws _ w1) as [[[]|m''] w2];
      simplify_eq; cbn; set_solver.
  - simplify_eq; cbn; set_solver.
Qed.

Lemma for_of_app (l1 l2 : list StageRef) (w : World) :
  for_of (retire_stage aws vm service) (l1 ++ l2) w =
  let '(_, w1, tr1) := for_of (retire_stage aws vm service) l1 w in
  let '(c, w2, tr2) := for_of (retire_stage aws vm service) l2 w1 in
  (c, w2, tr1 ++ tr2).
Proof.
  revert w. induction l1 as [|st l1 IH]; intros w.
  - simpl. by destruct (for_of _ l2 w) as [[c w2] tr2].
  - rewrite <- app_comm_cons, !for_of_cons.
    pose proof (retire_stage_normal st w) as Hn.
    destruct (retire_stage aws vm service st w) as [[c w1] tr1].
    simpl in Hn. subst c. rewrite IH.
    destruct (for_of _ l1 w1) as [[c1 w2] tr2].
    destruct (for_of _ l2 w2) as [[c3 w3] tr3].
    by rewrite app_assoc.
Qed.

End Retirement.

(** C1.  Failure isolation in the retirement loop.  Take any list of retired
    records, cut at any record whose stack deletion or wait rejects, in the
    world the records before it left: the loop still completes normally, the
    rejection is logged as an error naming the version and the message, and
    the stacks deleted are those of all records with a readable name and
    tag, the ones after the failing record included, in the order of the
    list. *)
Theorem cleanup_failure_isolation {World : Type} (aws : Sdk World)
    (vm : VersionManager) (service : string)
    (before after : list StageRef) (st : StageRef) (w : World)
    (name version n m : string) :
  let loop := for_of (retire_stage aws vm service) in
  stageName (target st) = Some name →
  tags (target st) ≫= (.!! "ALIAS") = Some version →
  teardown_name vm service st = Some n →
  teardown_error aws n (world_of (loop before w)) = Some m →
  completion_of (loop (before ++ st :: after) w) = Normal ()
  ∧ log_error ("Warning: Error removing version " +:+ version +:+ ": " +:+ m)
      ∈ trace_of (loop (before ++ st :: after) w)
  ∧ deleteStack_calls (trace_of (loop (before ++ st :: after) w))
    = omap (teardown_name vm service) before ++ n
      :: omap (teardown_name vm service) after.
Proof.
  intros loop Hname Hver Hn Herr.
  destruct (retire_loop_spec aws vm service (before ++ st :: after) w)
    as [Hnormal Hcalls].
  split; [done|]. split.
  - subst loop. rewrite for_of_app.
    destruct (for_of _ before w) as [[c0 w0] tr0]. simpl in Herr.
    rewrite for_of_cons.
    pose proof (retire_stage_logs_failure aws vm service st w0
                  name version n m Hname Hver Hn Herr) as Hlog.
    pose proof (retire_stage_normal aws vm service st w0) as Hc.
    destruct (retire_stage aws vm service st w0) as [[c1 w1] tr1].
    simpl in Hlog, Hc. subst c1.
    destruct (for_of _ after w1) as [[c2 w2] tr2]. simpl.
    set_solver.
  - subst loop. rewrite Hcalls, omap_app. simpl. by rewrite Hn.
Qed.

Lemma cleanup_failure_isolation_witness :
  let vA := {| ref := 0; target := Scenario.tagged "vA" |} in
  let vB := {| ref := 1; target := Scenario.tagged "vB" |} in
  let w := Scenario.cloud [] ["svc-dev-vA"] in
  let run := for_of (retire_stage Scenario.sdk (Scenario.plugin 1 None) "svc")
               [vA; vB] w in
  completion_of run = Normal ()
  ∧ log_error "Warning: Error removing version vA: stack is locked"
      ∈ trace_of run
  ∧ deleteStack_calls (trace_of run) = ["svc-dev-vA"; "svc-dev-vB"].
Proof.
  intros vA vB w run.
  apply (cleanup_failure_isolation Scenario.sdk (Scenario.plugin 1 None) "svc"
           [] [vB] vA w "vA" "vA" "svc-dev-vA" "stack is locked");
    vm_compute; reflexivity.
Defined.

(** ** The registry query *)

Section Registry.
Context {World : Type} (aws : Sdk World) (vm : VersionManager).

(** The query logs nothing: its events are SDK calls. *)
Lemma getStagesInOrder_calls (w : World) :
  forallb is_call (trace_of (getStagesInOrder aws vm w)) = true.
Proof.
  unfold getStagesInOrder. destruct (service vm) as [svc|]; [|done].
  unfold mbind, M_bind, await, lift.
  destruct (describeStacks aws _ w) as [[stack|m] w1]; [|done].
  destruct (restApiId_of stack) as [restApiId|e]; [|done].
  destruct (getStages aws restApiId w1) as [[stages|m] w2]; [|done].
  destruct (item stages) as [l|]; [|done]. cbn.
  by destruct (sort _ _).
Qed.

(** [cleanupVersions] once the query has answered with an array. *)
Lemma cleanupVersions_unfold (w w1 : World) (tr1 : list event)
    (ordered : list StageRef) :
  getStagesInOrder aws vm w = (Normal (Some ordered), w1, tr1) →
  ∃ svc, service vm = Some svc ∧
  cleanupVersions aws vm w =
  let '(_, w2, tr2) :=
    for_of (retire_stage aws vm svc) (stagesToDelete vm ordered) w1 in
  (Normal VUndefined, w2, tr1 ++ tr2).
Proof.
  intros Hq. unfold cleanupVersions.
  destruct (service vm) as [svc|] eqn:Hsvc.
  - exists svc. split; [done|].
    unfold mbind at 1. unfold M_bind at 1. rewrite Hq. cbn.
    unfold mbind, M_bind.
    pose proof (retire_loop_spec aws vm svc (stagesToDelete vm ordered) w1)
      as [Hn _].
    destruct (for_of _ _ w1) as [[c w2] tr2]. simpl in Hn. subst c.
    cbn. by rewrite app_nil_r.
  - unfold getStagesInOrder in Hq. by rewrite Hsvc in Hq.
Qed.

End Registry.

(** ** What a cleanup run reports *)

Lemma count_app (f : event → bool) (t1 t2 : list event) :
  count f (t1 ++ t2) = (count f t1 + count f t2)%nat.
Proof. unfold count. by rewrite List.filter_app, length_app. Qed.

Lemma outcomes_app (t1 t2 : list event) :
  outcomes (t1 ++ t2) = (outcomes t1 + outcomes t2)%nat.
Proof. unfold outcomes. rewrite !count_app. lia. Qed.

Lemma outcomes_calls (tr : list event) :
  forallb is_call tr = true → outcomes tr = 0%nat.
Proof.
  induction tr as [|ev tr IH]; [done|]. simpl.
  intros [Hev Htr]%andb_prop.
  change (ev :: tr) with ([ev] ++ tr). rewrite outcomes_app, IH by done.
  by destruct ev.
Qed.

Lemma prefix_append (p s : string) : String.prefix p (p +:+ s) = true.
Proof.
  induction p as [|c p IH]; simpl; [by destruct s|].
  by destruct (ascii_dec c c).
Qed.

Section Report.
Context {World : Type} (aws : Sdk World) (vm : VersionManager).

Lemma retire_stage_outcome (service : string) (st : StageRef) (w : World) :
  outcomes (trace_of (retire_stage aws vm service st w)) = 1%nat.
Proof.
  rewrite retire_stage_unfold.
  destruct (stageName (target st)); [|by vm_compute].
  destruct (tags (target st) ≫= (.!! "ALIAS")); cbn zeta.
  - destruct (deleteStack aws _ w) as [[[]|m] w1].
    + destruct (waitFor_stackDeleteComplete aws _ w1) as [[[]|m] w2];
        unfold outcomes, count; simpl;
        rewrite ?prefix_append; done.
    + unfold outcomes, count; simpl.
      by rewrite ?prefix_append.
  - unfold outcomes, count; simpl.
    by rewrite ?prefix_append.
Qed.

Lemma retire_loop_outcomes (service : string) (l : list StageRef) (w : World) :
  outcomes (trace_of (for_of (retire_stage aws vm service) l w)) = length l.
Proof.
  revert w. induction l as [|st l IH]; intros w; [done|].
  rewrite for_of_cons.
  pose proof (retire_stage_normal aws vm service st w) as Hn.
  pose proof (retire_stage_outcome service st w) as Ho.
  destruct (retire_stage aws vm service st w) as [[c w1] tr1].
  simpl in Hn, Ho. subst c. specialize (IH w1).
  destruct (for_of _ l w1) as [[c2 w2] tr2]. simpl in *.
  rewrite outcomes_app. lia.
Qed.

End Report.

(** C5, as stated, fails: for the retire set of two records
    whose first deletion fails and whose second succeeds, [cleanupVersions]
    resolves with [undefined], which carries no [retiredWithError] and no
    [retiredSuccessfully]. *)
Lemma cleanup_report_absent :
  let result :=
    completion_of (cleanupVersions Scenario.sdk (Scenario.plugin 1 None)
                     two_retired) in
  result = Normal VUndefined
  ∧ ¬ (∃ report, result = Normal report
         ∧ get_prop report "retiredWithError" = Some (Num 1)
         ∧ get_prop report "retiredSuccessfully" = Some (Num 1)).
Proof.
  assert (H : completion_of (cleanupVersions Scenario.sdk
                (Scenario.plugin 1 None) two_retired) = Normal VUndefined)
    by (vm_compute; reflexivity).
  cbv zeta. rewrite H. split; [done|].
  intros (report & Hr & Herr & _). by simplify_eq.
Qed.

(** C5, amended.  A cleanup run that reaches the retirement loop resolves
    with [undefined]; what happened to the retired records is in the log:
    each record ends in exactly one event, a success, a teardown error or a
    skip, so these events number as many as the records retired.  For the
    retire set of two records whose first deletion fails and whose second
    succeeds, one teardown error and one success are logged. *)
Theorem cleanup_outcomes_logged {World : Type} (aws : Sdk World)
    (vm : VersionManager) (w w1 : World) (tr1 : list event)
    (ordered : list StageRef) :
  getStagesInOrder aws vm w = (Normal (Some ordered), w1, tr1) →
  let run := cleanupVersions aws vm w in
  completion_of run = Normal VUndefined
  ∧ (count is_success (trace_of run) + count is_teardown_error (trace_of run)
     + count is_skip (trace_of run))%nat
    = length (stagesToDelete vm ordered)
  ∧ (let run2 := cleanupVersions Scenario.sdk (Scenario.plugin 1 None)
                   two_retired in
     count is_teardown_error (trace_of run2) = 1%nat
     ∧ count is_success (trace_of run2) = 1%nat
     ∧ count is_skip (trace_of run2) = 0%nat).
Proof.
  intros Hq run.
  destruct (cleanupVersions_unfold aws vm w w1 tr1 ordered Hq)
    as (svc & Hsvc & Hrun).
  pose proof (retire_loop_outcomes aws vm svc (stagesToDelete vm ordered) w1)
    as Hout.
  pose proof (getStagesInOrder_calls aws vm w) as Hcalls.
  rewrite Hq in Hcalls. simpl in Hcalls.
  subst run. rewrite Hrun.
  destruct (for_of _ _ w1) as [[c w2] tr2]. simpl in *.
  split; [done|]. split.
  - fold (outcomes (tr1 ++ tr2)).
    by rewrite outcomes_app, (outcomes_calls tr1 Hcalls), Hout.
  - by vm_compute.
Qed.

Lemma cleanup_outcomes_logged_witness :
  let run := cleanupVersions Scenario.sdk (Scenario.plugin 1 None)
               two_retired in
  completion_of run = Normal VUndefined
  ∧ (count is_success (trace_of run) + count is_teardown_error (trace_of run)
     + count is_skip (trace_of run))%nat = 2%nat.
Proof.
  intros run.
  pose proof (cleanup_outcomes_logged Scenario.sdk (Scenario.plugin 1 None)
    two_retired two_retired
    [call_describeStacks "svc-dev"; call_getStages "api"]
    (stage_objects (Scenario.stages two_retired))) as H.
  destruct H as (Hc & Hn & _); [vm_compute; reflexivity|].
  split; [exact Hc | exact Hn].
Defined.

(** ** Stages whose tag cannot be read *)

Section Skip.
Context {World : Type} (aws : Sdk World) (vm : VersionManager)
  (service : string).

(** Inside the loop, a record without a stage name or without an [ALIAS]
    tag is skipped with one log event: no SDK call, the world untouched. *)
Lemma retire_stage_skips (st : StageRef) (w : World) :
  teardown_name vm service st = None →
  let r := retire_stage aws vm service st w in
  completion_of r = Normal ()
  ∧ world_of r = w
  ∧ sdk_calls (trace_of r) = []
  ∧ count is_skip (trace_of r) = 1%nat.
Proof.
  intros Hnone r. subst r. rewrite retire_stage_unfold.
  unfold teardown_name in Hnone.
  destruct (stageName (target st)) as [name|]; [|by vm_compute].
  destruct (tags (target st) ≫= (.!! "ALIAS")); [done|].
  repeat split. unfold count. simpl. by rewrite prefix_append.
Qed.

End Skip.

Lemma components_nonempty (s : string) : components s ≠ [].
Proof.
  unfold components, split.
  destruct (replace_v s) as [|ch r]; simpl; [done|].
  destruct (is_sep ch); [done|]. by destruct (split_by is_sep r).
Qed.

(** Whichever side of a comparison a stage with a [tags] object but no
    [ALIAS] is on, the comparator throws. *)
Lemma semverSort_throws_without_ALIAS (a b : Stage) (t : gmap string string) :
  t !! "ALIAS" = None →
  tags a = Some t ∨ tags b = Some t →
  ∃ m, semverSort a b = Throw (TypeError m).
Proof.
  intros Ht [Ha|Hb]; unfold semverSort.
  - rewrite Ha, Ht. unfold undefined_read. eauto.
  - destruct (tags a) as [ta|]; [|unfold undefined_read; eauto].
    destruct (ta !! "ALIAS") as [alias|]; [|unfold undefined_read; eauto].
    pose proof (components_nonempty alias) as Hne.
    destruct (components alias) as [|c l]; [done|].
    unfold reduce. simpl. unfold semverSort_rhs. rewrite Hb, Ht.
    simpl. unfold undefined_read. eauto.
Qed.

(** C6 at the failing input: the comparator of the sort reads [ALIAS] of
    the stage without one, and the whole cleanup run fails with a
    [TypeError] after the two registry calls, before any record is
    treated.  The same happens when the stage has no [tags] at all. *)
Theorem cleanup_aborts_on_unreadable_tag :
  let run := cleanupVersions Scenario.sdk (Scenario.plugin 1 None)
               untagged_stage in
  let run' := cleanupVersions Scenario.sdk (Scenario.plugin 1 None)
                tagless_stage in
  completion_of run = Throw (undefined_read "replace")
  ∧ trace_of run = [call_describeStacks "svc-dev"; call_getStages "api"]
  ∧ completion_of run' = Throw (undefined_read "ALIAS")
  ∧ trace_of run' = [call_describeStacks "svc-dev"; call_getStages "api"].
Proof. repeat split; by vm_compute. Qed.

(** ** The candidate gate *)

Lemma reduce_from_TypeError {A B} (f : B → A → nat → completion B)
    (i : nat) (l : list A) (acc : B) (e : exn) :
  (∀ acc cur i e, f acc cur i = Throw e → is_TypeError e) →
  reduce_from f i l acc = Throw e → is_TypeError e.
Proof.
  intros Hf. revert i acc. induction l as [|cur l IH]; intros i acc; [done|].
  simpl. destruct (f acc cur i) as [acc'|e'] eqn:Hcur; simpl.
  - apply IH.
  - intros [= <-]. eauto.
Qed.

Lemma semverSort_TypeError (a b : Stage) (e : exn) :
  semverSort a b = Throw e → is_TypeError e.
Proof.
  unfold semverSort, undefined_read.
  destruct (tags a) as [t|]; [|intros [= <-]; by eexists].
  destruct (t !! "ALIAS") as [alias|]; [|intros [= <-]; by eexists].
  apply reduce_from_TypeError. clear. intros acc cur i e.
  destruct (JS.truthy acc); [done|].
  unfold semverSort_rhs, undefined_read.
  destruct (tags b) as [t|]; [|done].
  destruct (t !! "ALIAS"); [done|]. simpl. intros [= <-]. by eexists.
Qed.

Section Sort.
Context {A : Type} (comparefn : A → A → completion JSNum).
Context (Hcmp : ∀ a b e, comparefn a b = Throw e → is_TypeError e).

Lemma sort_insert_TypeError (pivot : A) (l : list A) (e : exn) :
  sort_insert comparefn pivot l = Throw e → is_TypeError e.
Proof using Hcmp.
  induction l as [|x l IH]; [done|]. simpl.
  destruct (comparefn pivot x) as [order|e'] eqn:Hc; simpl.
  - destruct (JS.lt order (Num 0)); [|done].
    destruct (sort_insert comparefn pivot l); simpl; [done|].
    intros [= <-]. by apply IH.
  - intros [= <-]. eauto.
Qed.

Lemma sort_TypeError (l : list A) (e : exn) :
  sort comparefn l = Throw e → is_TypeError e.
Proof using Hcmp.
  unfold sort. generalize (@nil A) as acc.
  induction l as [|x l IH]; intros acc; [done|]. simpl.
  destruct (sort_insert comparefn x acc) as [s|e'] eqn:Hi; simpl.
  - apply IH.
  - intros [= <-]. by eapply sort_insert_TypeError.
Qed.

End Sort.

Section Gate.
Context {World : Type} (aws : Sdk World) (vm : VersionManager).

(** What the registry query can throw. *)
Lemma getStagesInOrder_throws (w : World) (e : exn) :
  completion_of (getStagesInOrder aws vm w) = Throw e →
  e = Error "Service is not defined"
  ∨ e = Error "Rest API ID could not be found"
  ∨ (∃ m, e = AWSError m)
  ∨ is_TypeError e.
Proof.
  unfold getStagesInOrder. destruct (service vm) as [svc|].
  2:{ intros [= <-]. by left. }
  unfold mbind, M_bind, await, lift.
  destruct (describeStacks aws _ w) as [[stack|m] w1].
  2:{ intros [= <-]. right. right. left. by eexists. }
  destruct (restApiId_of stack) as [restApiId|e'] eqn:Hid.
  2:{ simpl. intros [= <-]. unfold restApiId_of in Hid.
      destruct (Stacks stack) as [l|]; simpl in Hid.
      - destruct (l !! 0%nat); simpl in Hid.
        + destruct (_ ≫= OutputValue); simplify_eq. right. by left.
        + simplify_eq. right. right. right. by eexists.
      - simplify_eq. right. by left. }
  destruct (getStages aws restApiId w1) as [[stages|m] w2].
  2:{ intros [= <-]. right. right. left. by eexists. }
  destruct (item stages) as [l|]; [|done]. cbn.
  destruct (sort _ _) as [sorted|e'] eqn:Hsort; [done|].
  simpl. intros [= <-]. right. right. right.
  eapply sort_TypeError; [|exact Hsort].
  intros a b e0. apply semverSort_TypeError.
Qed.

(** [validateVersion] once the configuration and the format checks have
    passed. *)
Lemma validateVersion_unfold (w : World) (rp c : string) :
  env_retainPolicy (env vm) = Some rp → rp ≠ "" →
  env_apiVersion (env vm) = Some c →
  format_violation c = false →
  validateVersion aws vm w =
  match getStagesInOrder aws vm w with
  | (Throw e, w1, tr1) => (Throw e, w1, tr1)
  | (Normal orderedStages, w1, tr1) =>
      let lastStage := orderedStages ≫= last in
      let policy :=
        log_info ("Using retention policy: " +:+ rp +:+ " versions") in
      match lastStage ≫= (λ st, tags (target st)) with
      | None => (Normal VUndefined, w1, tr1 ++ [policy])
      | Some lastTags =>
          let seen :=
            log_info ("Last deployed version: " +:+
              or_string (lastStage ≫= (λ st, stageName (target st)))
                "undefined stage") in
          match lastTags !! "ALIAS" with
          | None => (Throw (undefined_read "replace"), w1, tr1 ++ [seen])
          | Some alias =>
              if isGreaterVersion c alias
              then (Normal VUndefined, w1, tr1 ++ [seen; policy])
              else (Throw (Error (not_greater_message c alias)), w1,
                    tr1 ++ [seen])
          end
      end
  end.
Proof.
  intros Hrp Hne Hc Hfmt. unfold validateVersion.
  rewrite Hrp, Hc, Hfmt. destruct rp as [|ch rp]; [done|].
  unfold mbind at 1. unfold M_bind at 1. unfold mret at 1. unfold M_ret at 1.
  unfold mbind at 1. unfold M_bind at 1.
  destruct (getStagesInOrder aws vm w) as [[[ordered|e] w1] tr1]; [|done].
  cbn zeta.
  destruct ((ordered ≫= last) ≫= (λ st, tags (target st))) as [lastTags|];
    [|done].
  destruct (lastTags !! "ALIAS") as [alias|]; [|done].
  by destruct (isGreaterVersion c alias).
Qed.

End Gate.

Lemma lt_irrefl (x : JSNum) : JS.lt x x = false.
Proof. destruct x; simpl; [done| |done|done]. apply Z.ltb_irrefl. Qed.

Lemma isGreaterVersion_loop_same (n i : nat) (v : list JSNum) :
  isGreaterVersion_loop n i v v = false.
Proof.
  revert i. induction n as [|n IH]; intros i; [done|].
  simpl. unfold JS.gt. by rewrite lt_irrefl, IH.
Qed.

(** No version is greater than itself, whatever the string. *)
Lemma isGreaterVersion_irrefl (s : string) : isGreaterVersion s s = false.
Proof. apply isGreaterVersion_loop_same. Qed.

(** C3.  Strict monotonic version gate.  The latest deployed stage exists
    and carries the tag [alias].  For every candidate string,
    [validateVersion] succeeds only if [isGreaterVersion candidate alias]
    holds, and a candidate equal to the tag is rejected.  Once the checks
    before the comparison have passed (lines 173-187), the outcome is decided
    by the comparison alone: the error "should be greater than" when the
    candidate is not greater, success when it is. *)
Theorem strict_version_gate {World : Type} (aws : Sdk World)
    (vm : VersionManager) (w w1 : World) (tr1 : list event)
    (rp candidate alias : string) (ordered : list StageRef) (latest : StageRef)
    (lastTags : gmap string string) :
  env_retainPolicy (env vm) = Some rp → rp ≠ "" →
  env_apiVersion (env vm) = Some candidate →
  getStagesInOrder aws vm w = (Normal (Some ordered), w1, tr1) →
  last ordered = Some latest →
  tags (target latest) = Some lastTags →
  lastTags !! "ALIAS" = Some alias →
  let result := completion_of (validateVersion aws vm w) in
  (∀ v, result = Normal v → isGreaterVersion candidate alias = true)
  ∧ (candidate = alias → ∃ e, result = Throw e)
  ∧ (format_violation candidate = false →
     if isGreaterVersion candidate alias
     then result = Normal VUndefined
     else result = Throw (Error (not_greater_message candidate alias))).
Proof.
  intros Hrp Hne Hc Hq Hlast Htags Halias result.
  assert (Hpass : format_violation candidate = false →
    result = if isGreaterVersion candidate alias
             then Normal VUndefined
             else Throw (Error (not_greater_message candidate alias))).
  { intros Hfmt. subst result.
    rewrite (validateVersion_unfold aws vm w rp candidate) by done.
    rewrite Hq. simpl. rewrite Hlast. simpl. rewrite Htags. simpl.
    rewrite Halias. by destruct (isGreaterVersion candidate alias). }
  assert (Hfail : format_violation candidate = true →
    result = Throw (Error format_message)).
  { intros Hfmt. subst result. unfold validateVersion.
    rewrite Hrp, Hc, Hfmt. by destruct rp. }
  destruct (format_violation candidate) eqn:Hfmt.
  - rewrite Hfail by done. split; [done|]. split; [eauto|done].
  - rewrite Hpass by done. split; [|split].
    + intros v. by destruct (isGreaterVersion candidate alias).
    + intros ->. rewrite isGreaterVersion_irrefl. eauto.
    + intros _. by destruct (isGreaterVersion candidate alias).
Qed.

Lemma strict_version_gate_witness :
  completion_of (validateVersion Scenario.sdk
    (Scenario.plugin 1 (Some "v1-2-0"))
    (Scenario.cloud [Scenario.tagged "v1-1-9"] [])) = Normal VUndefined
  ∧ completion_of (validateVersion Scenario.sdk
      (Scenario.plugin 1 (Some "v1-1-9"))
      (Scenario.cloud [Scenario.tagged "v1-1-9"] []))
    = Throw (Error (not_greater_message "v1-1-9" "v1-1-9")).
Proof.
  set (w := Scenario.cloud [Scenario.tagged "v1-1-9"] []).
  set (latest := {| ref := 0; target := Scenario.tagged "v1-1-9" |}).
  split.
  - destruct (strict_version_gate Scenario.sdk
      (Scenario.plugin 1 (Some "v1-2-0")) w w
      [call_describeStacks "svc-dev"; call_getStages "api"]
      "2" "v1-2-0" "v1-1-9" [latest] latest {[ "ALIAS" := "v1-1-9" ]})
      as (_ & _ & H);
      [vm_compute; reflexivity | done | vm_compute; reflexivity .. | ].
    apply H. vm_compute; reflexivity.
  - destruct (strict_version_gate Scenario.sdk
      (Scenario.plugin 1 (Some "v1-1-9")) w w
      [call_describeStacks "svc-dev"; call_getStages "api"]
      "2" "v1-1-9" "v1-1-9" [latest] latest {[ "ALIAS" := "v1-1-9" ]})
      as (_ & _ & H);
      [vm_compute; reflexivity | done | vm_compute; reflexivity .. | ].
    apply H. vm_compute; reflexivity.
Defined.

(** C10.  The guard at line 191 tests that the [tags] object is present,
    not that it has an [ALIAS].  When the latest stage has a [tags] object
    without [ALIAS], the comparison is entered with [undefined] and
    [lesser.replace] raises a [TypeError]: the run ends after the
    "Last deployed version" event with neither success nor the error of the
    gate. *)
Theorem validate_dereferences_missing_alias {World : Type} (aws : Sdk World)
    (vm : VersionManager) (w w1 : World) (tr1 : list event)
    (rp candidate : string) (ordered : list StageRef) (latest : StageRef)
    (lastTags : gmap string string) :
  env_retainPolicy (env vm) = Some rp → rp ≠ "" →
  env_apiVersion (env vm) = Some candidate →
  format_violation candidate = false →
  getStagesInOrder aws vm w = (Normal (Some ordered), w1, tr1) →
  last ordered = Some latest →
  tags (target latest) = Some lastTags →
  lastTags !! "ALIAS" = None →
  let run := validateVersion aws vm w in
  completion_of run
  = Throw (TypeError "Cannot read properties of undefined (reading 'replace')")
  ∧ trace_of run
    = tr1 ++ [log_info ("Last deployed version: " +:+
                or_string (stageName (target latest)) "undefined stage")].
Proof.
  intros Hrp Hne Hc Hfmt Hq Hlast Htags Halias run. subst run.
  rewrite (validateVersion_unfold aws vm w rp candidate) by done.
  rewrite Hq. simpl. rewrite Hlast. simpl. rewrite Htags. simpl.
  by rewrite Halias.
Qed.

Lemma validate_dereferences_missing_alias_witness :
  completion_of (validateVersion Scenario.sdk
    (Scenario.plugin 1 (Some "v1-0-0"))
    (Scenario.cloud [ {| stageName := Some "v0-9-0"; tags := Some ∅ |} ] []))
  = Throw (TypeError "Cannot read properties of undefined (reading 'replace')").
Proof.
  set (latest := {| ref := 0;
    target := {| stageName := Some "v0-9-0"; tags := Some ∅ |} |}).
  set (w := Scenario.cloud [target latest] []).
  destruct (validate_dereferences_missing_alias Scenario.sdk
    (Scenario.plugin 1 (Some "v1-0-0")) w w
    [call_describeStacks "svc-dev"; call_getStages "api"]
    "2" "v1-0-0" [latest] latest ∅) as [H _];
    [vm_compute; reflexivity | done | vm_compute; reflexivity .. | ].
  exact H.
Defined.

Section Digits.
Import Token.

Lemma decimal_digit_cases (c : ascii) :
  is_decimal_digit c = true →
  c ∈ ["0"; "1"; "2"; "3"; "4"; "5"; "6"; "7"; "8"; "9"]%char.
Proof.
  destruct c as [[] [] [] [] [] [] [] []]; intros H;
    try discriminate H; set_solver.
Qed.

Lemma decimal_digit_of (c : ascii) :
  is_decimal_digit c = true → digit_of 10 c = Some (code c - 48).
Proof.
  intros H. apply decimal_digit_cases in H.
  repeat (apply elem_of_cons in H as [->|H]; [reflexivity|]).
  by apply elem_of_nil in H.
Qed.

Lemma decimal_digit_bounds (c : ascii) :
  is_decimal_digit c = true → 0 ≤ code c - 48 ≤ 9.
Proof. unfold is_decimal_digit. lia. Qed.

Lemma decimal_not_ws (c : ascii) :
  is_decimal_digit c = true → is_ws c = false.
Proof. unfold is_decimal_digit, is_ws. lia. Qed.

Lemma decimal_not_sep (c : ascii) :
  is_decimal_digit c = true → is_sep c = false ∧ is_dash c = false.
Proof.
  intros H. apply decimal_digit_cases in H.
  repeat (apply elem_of_cons in H as [->|H]; [by split|]).
  by apply elem_of_nil in H.
Qed.

Lemma int_of_nonneg (s : string) : all_decimal s = true → 0 ≤ int_of s.
Proof.
  induction s as [|c s IH]; simpl; [lia|].
  intros [Hc Hs]%andb_prop. apply decimal_digit_bounds in Hc.
  specialize (IH Hs). nia.
Qed.

Lemma digits_value_decimal (s : string) (acc : Z) :
  all_decimal s = true →
  digits_value 10 acc s
  = Some (acc * 10 ^ Z.of_nat (String.length s) + int_of s).
Proof.
  revert acc. induction s as [|c s IH]; intros acc; simpl.
  - intros _. f_equal. lia.
  - intros [Hc Hs]%andb_prop. rewrite (decimal_digit_of c Hc), (IH _ Hs).
    f_equal. rewrite Nat2Z.inj_succ, Z.pow_succ_r by lia. lia.
Qed.

Lemma span_digits_decimal (s : string) :
  all_decimal s = true → span_digits s = (s, EmptyString).
Proof.
  induction s as [|c s IH]; simpl; [done|].
  intros [Hc Hs]%andb_prop. by rewrite (decimal_digit_of c Hc), (IH Hs).
Qed.

Lemma trim_end_decimal (s : string) :
  all_decimal s = true → trim_end s = s.
Proof.
  induction s as [|c s IH]; simpl; [done|].
  intros [Hc Hs]%andb_prop. rewrite (IH Hs), (decimal_not_ws c Hc).
  by destruct s.
Qed.

(** [Number] on a string of digits is the double nearest to the integer the
    digits denote. *)
Lemma Number_int (s : string) :
  is_int s = true → Number s = round_double (int_of s).
Proof.
  destruct s as [|c s]; [done|]. unfold is_int. intros Hall.
  pose proof Hall as [Hc Hs]%andb_prop.
  unfold Number, trim.
  assert (Hts : trim_start (String c s) = String c s)
    by (simpl; by rewrite (decimal_not_ws c Hc)).
  rewrite Hts, (trim_end_decimal _ Hall).
  assert (Hnd : non_decimal (String c s) = None).
  { unfold non_decimal. destruct s as [|p r].
    - by destruct c as [[] [] [] [] [] [] [] []].
    - simpl in Hs. apply andb_prop in Hs as [Hp _].
      apply decimal_digit_cases in Hp.
      assert (Hx : ((p =? "x") || (p =? "X"))%char = false
                   ∧ ((p =? "o") || (p =? "O"))%char = false
                   ∧ ((p =? "b") || (p =? "B"))%char = false).
      { repeat (apply elem_of_cons in Hp as [->|Hp]; [done|]).
        by apply elem_of_nil in Hp. }
      destruct Hx as (-> & -> & ->).
      by destruct c as [[] [] [] [] [] [] [] []]. }
  rewrite Hnd.
  assert (Hplus : match String c s with
                  | String "+" u => u
                  | _ => String c s
                  end = String c s).
  { apply decimal_digit_cases in Hc.
    repeat (apply elem_of_cons in Hc as [->|Hc]; [done|]).
    by apply elem_of_nil in Hc. }
  rewrite Hplus. unfold unsigned_decimal.
  destruct (decide (String c s = "Infinity")) as [Heq|_].
  { rewrite Heq in Hall. discriminate Hall. }
  rewrite (span_digits_decimal _ Hall). unfold digits1.
  rewrite (digits_value_decimal _ 0 Hall). simpl. done.
Qed.

Lemma round_double_safe (z : Z) :
  0 ≤ z ≤ MAX_SAFE_INTEGER → round_double z = Num z.
Proof.
  unfold MAX_SAFE_INTEGER. intros [H0 H1]. unfold round_double, round_nonneg.
  destruct (Z.leb_spec 0 z); [|lia].
  destruct (Z.ltb_spec z (2 ^ 53)); [done|lia].
Qed.

End Digits.

Section Components.
Import Token.

Lemma split_by_nonempty (p : ascii → bool) (s : string) : split_by p s ≠ [].
Proof.
  destruct s as [|c s]; simpl; [done|].
  destruct (p c); [done|]. by destruct (split_by p s).
Qed.

(** On a string whose [-]-separated pieces are digits, splitting at [-] or
    [.] is splitting at [-]. *)
Lemma split_decimal (r : string) :
  forallb all_decimal (split_by is_dash r) = true →
  split r = split_by is_dash r.
Proof.
  unfold split. induction r as [|c r IH]; [done|]. simpl.
  destruct (is_dash c) eqn:Hd.
  - simpl. intros H.
    assert (Hsep : is_sep c = true)
      by (unfold is_sep; unfold is_dash in Hd; by rewrite Hd).
    rewrite Hsep. by rewrite IH.
  - pose proof (split_by_nonempty is_dash r) as Hne.
    destruct (split_by is_dash r) as [|x l]; [done|]. simpl.
    intros [[Hc Hx]%andb_prop Hl]%andb_prop.
    destruct (decimal_not_sep c Hc) as [-> _].
    rewrite IH; [done|]. simpl. by rewrite Hx, Hl.
Qed.

Lemma is_int_all_decimal (s : string) : is_int s = true → all_decimal s = true.
Proof. by destruct s. Qed.

Lemma forallb_impl {A} (f g : A → bool) (l : list A) :
  (∀ x, f x = true → g x = true) → forallb f l = true → forallb g l = true.
Proof.
  intros Hfg. induction l as [|x l IH]; [done|]. simpl.
  intros [Hx Hl]%andb_prop. by rewrite (Hfg x Hx), IH.
Qed.

(** The components the code computes for a token of the spec's shape are
    the doubles nearest to the integers of the spec's [parse]. *)
Lemma components_parse (s : string) (t : list Z) :
  parse s = Some t → components s = round_double <$> t.
Proof.
  unfold parse, components.
  destruct s as [|c r]; [done|].
  destruct c as [[] [] [] [] [] [] [] []]; try done.
  simpl replace_v.
  destruct (forallb is_int (split_by is_dash r)) eqn:Hall; [|done].
  intros [= <-].
  rewrite split_decimal by (eapply forallb_impl, Hall; apply is_int_all_decimal).
  induction (split_by is_dash r) as [|x l IH]; [done|].
  simpl in Hall. apply andb_prop in Hall as [Hx Hl].
  rewrite !fmap_cons, (Number_int x Hx). f_equal. by apply IH.
Qed.

Lemma parse_nonneg (s : string) (t : list Z) :
  parse s = Some t → Forall (λ z, 0 ≤ z) t.
Proof.
  unfold parse. destruct s as [|c r]; [done|].
  destruct c as [[] [] [] [] [] [] [] []]; try done.
  destruct (forallb is_int (split_by is_dash r)) eqn:Hall; [|done].
  intros [= <-].
  induction (split_by is_dash r) as [|x l IH]; [constructor|].
  simpl in Hall. apply andb_prop in Hall as [Hx Hl].
  rewrite fmap_cons. constructor; [|by apply IH].
  by apply int_of_nonneg, is_int_all_decimal.
Qed.

Lemma components_safe (s : string) (t : list Z) :
  parse s = Some t →
  Forall (λ z, z ≤ MAX_SAFE_INTEGER) t →
  components s = Num <$> t.
Proof.
  intros Hp Hsafe. rewrite (components_parse s t Hp).
  pose proof (parse_nonneg s t Hp) as Hnn.
  clear Hp. induction t as [|z t IH]; [done|].
  inversion_clear Hsafe. inversion_clear Hnn.
  rewrite !fmap_cons, round_double_safe by lia. f_equal. by apply IH.
Qed.

End Components.

Section Loop.
Import Token.

Lemma at_or_zero_Num (t : list Z) (i : nat) :
  at_or_zero (Num <$> t) i = Num (default 0 (t !! i)).
Proof.
  unfold at_or_zero. rewrite list_lookup_fmap.
  destruct (t !! i) as [z|]; [|done]. simpl.
  unfold JS.or. simpl. by destruct (Z.eqb_spec z 0) as [->|].
Qed.

Lemma at_or_zero_tail (v : list JSNum) (i : nat) :
  at_or_zero v (S i) = at_or_zero (tail v) i.
Proof. by destruct v. Qed.

Lemma isGreaterVersion_loop_tail (n i : nat) (v1 v2 : list JSNum) :
  isGreaterVersion_loop n (S i) v1 v2
  = isGreaterVersion_loop n i (tail v1) (tail v2).
Proof.
  revert i. induction n as [|n IH]; intros i; [done|].
  simpl. by rewrite !at_or_zero_tail, IH.
Qed.

Lemma pad_cons (n : nat) (x : Z) (t : list Z) :
  pad (S n) (x :: t) = x :: pad n t.
Proof. reflexivity. Qed.

Lemma pad_nil (n : nat) : pad (S n) [] = 0 :: pad n [].
Proof. unfold pad. simpl. by rewrite Nat.sub_0_r. Qed.

(** The loop of the code is the padded, left-to-right comparison. *)
Lemma isGreaterVersion_loop_lex (n : nat) (ta tb : list Z) :
  (length ta ≤ n)%nat → (length tb ≤ n)%nat →
  isGreaterVersion_loop n 0 (Num <$> ta) (Num <$> tb)
  = bool_decide (lex_compare (pad n ta) (pad n tb) = Gt).
Proof.
  revert ta tb. induction n as [|n IH]; intros ta tb Ha Hb.
  - destruct ta, tb; simpl in *; try lia; done.
  - cbn [isGreaterVersion_loop]. rewrite !at_or_zero_Num.
    rewrite isGreaterVersion_loop_tail.
    assert (Hta : ∃ x ta', pad (S n) ta = x :: pad n ta'
                  ∧ default 0 (ta !! 0%nat) = x
                  ∧ tail (Num <$> ta) = Num <$> ta' ∧ (length ta' ≤ n)%nat).
    { destruct ta as [|x ta']; [exists 0, []|exists x, ta'];
        rewrite ?pad_nil, ?pad_cons; simpl in *; repeat split; lia. }
    assert (Htb : ∃ y tb', pad (S n) tb = y :: pad n tb'
                  ∧ default 0 (tb !! 0%nat) = y
                  ∧ tail (Num <$> tb) = Num <$> tb' ∧ (length tb' ≤ n)%nat).
    { destruct tb as [|y tb']; [exists 0, []|exists y, tb'];
        rewrite ?pad_nil, ?pad_cons; simpl in *; repeat split; lia. }
    destruct Hta as (x & ta' & -> & -> & -> & Ha').
    destruct Htb as (y & tb' & -> & -> & -> & Hb').
    rewrite IH by done. unfold JS.gt. cbn [JS.lt lex_compare].
    destruct (Z.compare_spec x y) as [->|Hlt|Hgt].
    + by rewrite Z.ltb_irrefl.
    + destruct (Z.ltb_spec y x); [lia|].
      destruct (Z.ltb_spec x y); [|lia]. done.
    + destruct (Z.ltb_spec y x); [|lia]. done.
Qed.

Lemma lex_compare_antisym (a b : list Z) :
  lex_compare b a = CompOpp (lex_compare a b).
Proof.
  revert b. induction a as [|x a IH]; intros [|y b]; simpl; try done.
  rewrite (Z.compare_antisym x y).
  destruct (x ?= y); simpl; [apply IH|done|done].
Qed.

Lemma pad_length (n : nat) (t : list Z) :
  (length t ≤ n)%nat → length (pad n t) = n.
Proof. intros H. unfold pad. rewrite length_app, length_replicate. lia. Qed.

End Loop.

Lemma isGreaterVersion_compare (a b : string) (ta tb : list Z) :
  Token.parse a = Some ta → Token.parse b = Some tb →
  Forall (λ z, z ≤ MAX_SAFE_INTEGER) ta →
  Forall (λ z, z ≤ MAX_SAFE_INTEGER) tb →
  isGreaterVersion a b = bool_decide (Token.compare ta tb = Gt).
Proof.
  intros Ha Hb Sa Sb. unfold isGreaterVersion, Token.compare.
  rewrite (components_safe a ta Ha Sa), (components_safe b tb Hb Sb).
  rewrite !length_fmap. apply isGreaterVersion_loop_lex; lia.
Qed.

Lemma token_compare_antisym (ta tb : list Z) :
  Token.compare tb ta = CompOpp (Token.compare ta tb).
Proof.
  unfold Token.compare. rewrite (Nat.max_comm (length tb) (length ta)).
  apply lex_compare_antisym.
Qed.

(** C8, amended.  Component-wise numeric comparison with zero padding.  For
    two tokens of the shape [v<int>(-<int>)*] whose components are exactly
    representable (at most [Number.MAX_SAFE_INTEGER], [2^53 - 1]), the
    comparison [isGreaterVersion] makes is the spec's
    [compare] of the parsed tuples: integers, left to right, the shorter
    tuple padded with zeros.  [v2-10-0] is greater than [v2-9-9], although
    the string ["v2-10-0"] is below ["v2-9-9"] in the order of strings, and
    [v1] equals [v1-0-0]. *)
Theorem componentwise_numeric_comparison (a b : string) (ta tb : list Z) :
  Token.parse a = Some ta → Token.parse b = Some tb →
  Forall (λ z, z ≤ MAX_SAFE_INTEGER) ta →
  Forall (λ z, z ≤ MAX_SAFE_INTEGER) tb →
  compareVersion a b = Token.compare ta tb
  ∧ (isGreaterVersion a b = true ↔ Token.compare ta tb = Gt)
  ∧ compareVersion "v2-10-0" "v2-9-9" = Gt
  ∧ String.ltb "v2-10-0" "v2-9-9" = true
  ∧ compareVersion "v1" "v1-0-0" = Eq.
Proof.
  intros Ha Hb Sa Sb.
  pose proof (isGreaterVersion_compare a b ta tb Ha Hb Sa Sb) as Hab.
  pose proof (isGreaterVersion_compare b a tb ta Hb Ha Sb Sa) as Hba.
  rewrite token_compare_antisym in Hba.
  split; [|split; [|by vm_compute]].
  - unfold compareVersion. rewrite Hab, Hba.
    by destruct (Token.compare ta tb).
  - rewrite Hab. by rewrite bool_decide_eq_true.
Qed.

Lemma componentwise_numeric_comparison_witness :
  compareVersion "v3-0" "v2-9-9" = Token.compare [3; 0] [2; 9; 9]
  ∧ (isGreaterVersion "v3-0" "v2-9-9" = true
     ↔ Token.compare [3; 0] [2; 9; 9] = Gt).
Proof.
  destruct (componentwise_numeric_comparison "v3-0" "v2-9-9" [3; 0] [2; 9; 9])
    as (H1 & H2 & _);
    [vm_compute; reflexivity | vm_compute; reflexivity
    | repeat constructor; vm_compute; discriminate
    | repeat constructor; vm_compute; discriminate | ].
  split; [exact H1 | exact H2].
Defined.

(** C8, as stated, fails: beyond the exactly representable integers the
    components are rounded to doubles before they are compared.  The tokens
    [v1-0-9007199254740993] and [v1-0-9007199254740992] have components below
    [2^63]; as tuples of integers the first is the greater, and
    [isGreaterVersion] answers [false] both ways: they compare equal. *)
Lemma comparison_rounds_beyond_safe_integers :
  let a := "v1-0-9007199254740993" in
  let b := "v1-0-9007199254740992" in
  let ta := [1; 0; 9007199254740993] in
  let tb := [1; 0; 9007199254740992] in
  Token.parse a = Some ta ∧ Token.parse b = Some tb
  ∧ Forall (λ z, 0 ≤ z < 2 ^ 63) ta ∧ Forall (λ z, 0 ≤ z < 2 ^ 63) tb
  ∧ Token.compare ta tb = Gt
  ∧ isGreaterVersion a b = false
  ∧ compareVersion a b = Eq
  ∧ ¬ (compareVersion a b = Token.compare ta tb)
  ∧ ¬ (isGreaterVersion a b = true ↔ Token.compare ta tb = Gt).
Proof.
  cbv zeta.
  assert (Hgt : isGreaterVersion "v1-0-9007199254740993"
                  "v1-0-9007199254740992" = false) by (vm_compute; reflexivity).
  assert (Heq : compareVersion "v1-0-9007199254740993"
                  "v1-0-9007199254740992" = Eq) by (vm_compute; reflexivity).
  assert (Hcmp : Token.compare [1; 0; 9007199254740993]
                   [1; 0; 9007199254740992] = Gt) by (vm_compute; reflexivity).
  split; [vm_compute; reflexivity|]. split; [vm_compute; reflexivity|].
  split; [repeat constructor; vm_compute; (discriminate || reflexivity)|].
  split; [repeat constructor; vm_compute; (discriminate || reflexivity)|].
  split; [exact Hcmp|]. split; [exact Hgt|]. split; [exact Heq|]. split.
  - intros H. rewrite Heq, Hcmp in H. discriminate H.
  - intros [_ H]. specialize (H Hcmp). rewrite Hgt in H. discriminate H.
Qed.

(** ** The format of a candidate *)

Section Format.
Import Token.

Lemma digit_of_decimal (c : ascii) :
  digit_of 10 c = if is_decimal_digit c then Some (code c - 48) else None.
Proof.
  unfold digit_of, is_decimal_digit.
  destruct (Z.leb_spec 48 (code c)), (Z.leb_spec (code c) 57); simpl;
    try (destruct (Z.ltb_spec (code c - 48) 10); [done|lia]);
    destruct (Z.leb_spec 97 (code c)), (Z.leb_spec (code c) 102); simpl;
    try (destruct (Z.ltb_spec (code c - 87) 10); [lia|done]);
    destruct (Z.leb_spec 65 (code c)), (Z.leb_spec (code c) 70); simpl;
    try (destruct (Z.ltb_spec (code c - 55) 10); [lia|done]);
    done.
Qed.

Lemma span_digits_spec (s d r : string) :
  span_digits s = (d, r) →
  s = d +:+ r ∧ all_decimal d = true ∧ no_digit_ahead r.
Proof.
  revert d r. induction s as [|c s IH]; intros d r; simpl.
  - by intros [= <- <-].
  - rewrite digit_of_decimal. destruct (is_decimal_digit c) eqn:Hc.
    + destruct (span_digits s) as [d' r'] eqn:Hs. intros [= <- <-].
      destruct (IH d' r' eq_refl) as (-> & Hd & Hr).
      simpl. by rewrite Hc, Hd.
    + by intros [= <- <-].
Qed.

Lemma span_digits_append (d r : string) :
  all_decimal d = true → no_digit_ahead r → span_digits (d +:+ r) = (d, r).
Proof.
  intros Hd Hr. induction d as [|c d IH]; simpl.
  - destruct r as [|c r]; [done|]. simpl in *.
    by rewrite digit_of_decimal, Hr.
  - simpl in Hd. apply andb_prop in Hd as [Hc Hd].
    by rewrite digit_of_decimal, Hc, (IH Hd).
Qed.

Lemma is_int_nonempty (s : string) :
  is_int s = true ↔ all_decimal s = true ∧ s ≠ EmptyString.
Proof.
  destruct s as [|c s]; simpl; split; try done.
  - by intros [_ ?].
  - by intros [? _].
Qed.

Lemma append_assoc (x y z : string) : (x +:+ y) +:+ z = x +:+ y +:+ z.
Proof.
  induction x as [|c x IH]; [done|].
  change (String c ((x +:+ y) +:+ z) = String c (x +:+ y +:+ z)).
  by rewrite IH.
Qed.

Lemma append_nil_r (x : string) : x +:+ "" = x.
Proof.
  induction x as [|c x IH]; [done|].
  change (String c (x +:+ "") = String c x). by rewrite IH.
Qed.

(** The regular expression of line 183 accepts exactly [v], an integer,
    [-], an integer, [-], an integer. *)
Lemma versionRegex_three_components (s : string) :
  versionRegex_test s = true ↔ three_components s.
Proof.
  split.
  - unfold versionRegex_test. destruct s as [|c r1]; [done|].
    destruct c as [[] [] [] [] [] [] [] []]; try done.
    destruct (span_digits r1) as [x q1] eqn:H1.
    destruct x as [|cx x]; [done|]. destruct q1 as [|c1 r2]; [done|].
    destruct c1 as [[] [] [] [] [] [] [] []]; try done.
    destruct (span_digits r2) as [y q2] eqn:H2.
    destruct y as [|cy y]; [done|]. destruct q2 as [|c2 r3]; [done|].
    destruct c2 as [[] [] [] [] [] [] [] []]; try done.
    destruct (span_digits r3) as [z q3] eqn:H3.
    destruct z as [|cz z]; [done|]. destruct q3; [|done]. intros _.
    apply span_digits_spec in H1 as (-> & Hx & _).
    apply span_digits_spec in H2 as (-> & Hy & _).
    apply span_digits_spec in H3 as (-> & Hz & _).
    exists (String cx x), (String cy y), (String cz z).
    repeat split; try done.
    by rewrite append_nil_r.
  - intros (x & y & z & Hx & Hy & Hz & ->).
    apply is_int_nonempty in Hx as [Hx Hx'].
    apply is_int_nonempty in Hy as [Hy Hy'].
    apply is_int_nonempty in Hz as [Hz Hz'].
    change ("v" +:+ x +:+ "-" +:+ y +:+ "-" +:+ z)
      with (String "v" (x +:+ String "-" (y +:+ String "-" z))).
    unfold versionRegex_test.
    rewrite (span_digits_append x) by done.
    destruct x; [done|].
    rewrite (span_digits_append y) by done.
    destruct y; [done|].
    rewrite <- (append_nil_r z) at 1.
    rewrite (span_digits_append z) by done.
    by destruct z.
Qed.

End Format.

Section FormatGate.
Context {World : Type} (aws : Sdk World) (vm : VersionManager).

(** Past the format check, no path throws the format error. *)
Lemma validateVersion_no_format_error (w : World) (rp c : string) :
  env_retainPolicy (env vm) = Some rp → rp ≠ "" →
  env_apiVersion (env vm) = Some c →
  format_violation c = false →
  completion_of (validateVersion aws vm w) ≠ Throw (Error format_message).
Proof.
  intros Hrp Hne Hc Hfmt.
  rewrite (validateVersion_unfold aws vm w rp c) by done.
  pose proof (getStagesInOrder_throws aws vm w) as Hthrow.
  destruct (getStagesInOrder aws vm w) as [[[ordered|e] w1] tr1].
  - cbn zeta.
    destruct ((ordered ≫= last) ≫= (λ st, tags (target st))) as [lastTags|];
      [|done].
    destruct (lastTags !! "ALIAS") as [alias|]; [|done].
    by destruct (isGreaterVersion c alias).
  - simpl in *. intros [= ->].
    destruct (Hthrow _ eq_refl) as [H|[H|[[m H]|[m H]]]]; discriminate H.
Qed.

Lemma validateVersion_format_error (w : World) (rp c : string) :
  env_retainPolicy (env vm) = Some rp → rp ≠ "" →
  env_apiVersion (env vm) = Some c →
  format_violation c = true →
  validateVersion aws vm w = (Throw (Error format_message), w, []).
Proof.
  intros Hrp Hne Hc Hfmt. unfold validateVersion.
  rewrite Hrp, Hc, Hfmt. by destruct rp.
Qed.

End FormatGate.

(** The empty candidate is falsy: line 182 skips the test of its format,
    and with nothing deployed the validation succeeds. *)
Lemma empty_candidate_skips_format_test :
  completion_of (validateVersion Scenario.sdk (Scenario.plugin 1 (Some ""))
                   (Scenario.cloud [] [])) = Normal VUndefined
  ∧ versionRegex_test "" = false.
Proof. by vm_compute. Qed.

(** C7, as stated, fails: [v1] has the shape
    [v<int>(-<int>)*], and the gate rejects it with the format error, no
    stage being deployed. *)
Lemma format_gate_rejects_shorter_token :
  let result :=
    completion_of (validateVersion Scenario.sdk
      (Scenario.plugin 1 (Some "v1")) (Scenario.cloud [] [])) in
  Token.shape "v1" = true
  ∧ result = Throw (Error format_message)
  ∧ ¬ (result = Throw (Error format_message) ↔ Token.shape "v1" = false).
Proof.
  assert (H : completion_of (validateVersion Scenario.sdk
      (Scenario.plugin 1 (Some "v1")) (Scenario.cloud [] []))
    = Throw (Error format_message)) by (vm_compute; reflexivity).
  cbv zeta. rewrite H. split; [by vm_compute|]. split; [done|].
  intros [Hf _]. specialize (Hf eq_refl). vm_compute in Hf. discriminate Hf.
Qed.

(** C7, amended.  With the retention policy configured and a non-empty
    candidate supplied, [validateVersion] fails with the format error if and
    only if the candidate is not exactly [v<int>-<int>-<int>], three
    integers; what the registry answers plays no part.  In particular
    [1-2-0], without the marker, is rejected with the format error whatever
    is deployed, nothing included. *)
Theorem candidate_format_gate {World : Type} (aws : Sdk World)
    (vm : VersionManager) (w : World) (rp candidate : string) :
  env_retainPolicy (env vm) = Some rp → rp ≠ "" →
  env_apiVersion (env vm) = Some candidate →
  candidate ≠ "" →
  let result := completion_of (validateVersion aws vm w) in
  (result = Throw (Error format_message)
   ↔ ¬ Token.three_components candidate)
  ∧ (candidate = "1-2-0" → result = Throw (Error format_message)).
Proof.
  intros Hrp Hne Hc Hcne result.
  assert (Hviol : format_violation candidate
                  = negb (versionRegex_test candidate)).
  { unfold format_violation, truthy_string.
    by rewrite bool_decide_eq_false_2. }
  assert (Hiff : result = Throw (Error format_message)
                 ↔ versionRegex_test candidate = false).
  { split.
    - intros Hres. destruct (versionRegex_test candidate) eqn:Hre; [|done].
      exfalso.
      apply (validateVersion_no_format_error aws vm w rp candidate);
        [done..| |done]. exact Hviol.
    - intros Hre. subst result. rewrite Hre in Hviol.
      by rewrite (validateVersion_format_error aws vm w rp candidate). }
  split.
  - rewrite Hiff, <- versionRegex_three_components.
    by destruct (versionRegex_test candidate).
  - intros ->. by apply Hiff.
Qed.

Lemma candidate_format_gate_witness :
  let result :=
    completion_of (validateVersion Scenario.sdk
      (Scenario.plugin 1 (Some "1-2-0")) (Scenario.cloud [] [])) in
  (result = Throw (Error format_message) ↔ ¬ Token.three_components "1-2-0")
  ∧ result = Throw (Error format_message).
Proof.
  destruct (candidate_format_gate Scenario.sdk
    (Scenario.plugin 1 (Some "1-2-0")) (Scenario.cloud [] []) "2" "1-2-0")
    as [H1 H2]; [vm_compute; reflexivity | done | vm_compute; reflexivity
                | done | ].
  split; [exact H1 | exact (H2 eq_refl)].
Defined.

(** ** The pieces of a split and the objects of a response *)

(** No piece of [split] holds a [-] or a [.]: [Number] is only ever applied
    to strings without sign and without fraction. *)
Lemma split_no_sep (s : string) : forallb no_sep (split s) = true.
Proof.
  unfold split. induction s as [|c s IH]; [done|]. simpl.
  destruct (is_sep c) eqn:Hc; [done|].
  pose proof (split_by_nonempty is_sep s) as Hne.
  destruct (split_by is_sep s) as [|x l]; [done|].
  simpl in *. by rewrite Hc.
Qed.

Lemma stage_objects_refs (l : list Stage) :
  ref <$> stage_objects l = seq 0 (length l).
Proof.
  unfold stage_objects.
  assert (H : ∀ k, ref <$> imap (λ i st, {| ref := k + i; target := st |}) l
                   = seq k (length l)).
  { induction l as [|st l IH]; intros k; [done|]. simpl.
    rewrite Nat.add_0_r. f_equal. rewrite <- (IH (S k)).
    f_equal. apply imap_ext. intros i x _. simpl. f_equal. lia. }
  apply (H 0%nat).
Qed.

Lemma filter_sublist {A} (f : A → bool) (l : list A) :
  sublist (List.filter f l) l.
Proof.
  induction l as [|x l IH]; [done|]. simpl.
  destruct (f x); by constructor.
Qed.

Section SortPermutation.
Context {A : Type} (comparefn : A → A → completion JSNum).

Lemma sort_insert_Permutation (pivot : A) (l r : list A) :
  sort_insert comparefn pivot l = Normal r → r ≡ₚ pivot :: l.
Proof.
  revert r. induction l as [|x l IH]; intros r; simpl.
  - by intros [= <-].
  - destruct (comparefn pivot x) as [order|]; [|done]. simpl.
    destruct (JS.lt order (Num 0)); [|by intros [= <-]].
    destruct (sort_insert comparefn pivot l) as [r'|]; [|done]. simpl.
    intros [= <-]. rewrite (IH r' eq_refl). apply Permutation_swap.
Qed.

Lemma sort_from_Permutation (acc rest r : list A) :
  sort_from comparefn acc rest = Normal r → r ≡ₚ acc ++ rest.
Proof.
  revert acc r. induction rest as [|x rest IH]; intros acc r; simpl.
  - intros [= <-]. rewrite app_nil_r. symmetry. apply Permutation_rev.
  - destruct (sort_insert comparefn x acc) as [s|] eqn:Hs; [|done]. simpl.
    intros Hr. rewrite (IH s r Hr), (sort_insert_Permutation x acc s Hs).
    simpl. apply Permutation_middle.
Qed.

Lemma sort_Permutation (l r : list A) :
  sort comparefn l = Normal r → r ≡ₚ l.
Proof. apply (sort_from_Permutation []). Qed.

End SortPermutation.

(** The array [getStagesInOrder] answers with holds distinct objects. *)
Lemma getStagesInOrder_NoDup {World : Type} (aws : Sdk World)
    (vm : VersionManager) (w : World) (ordered : list StageRef) :
  completion_of (getStagesInOrder aws vm w) = Normal (Some ordered) →
  NoDup (ref <$> ordered).
Proof.
  unfold getStagesInOrder. destruct (service vm) as [svc|]; [|done].
  unfold mbind, M_bind, await, lift.
  destruct (describeStacks aws _ w) as [[stack|m] w1]; [|done].
  destruct (restApiId_of stack) as [restApiId|e]; [|done].
  destruct (getStages aws restApiId w1) as [[stages|m] w2]; [|done].
  destruct (item stages) as [l|]; [|done]. cbn.
  destruct (sort _ _) as [sorted|e] eqn:Hsort; [|done]. simpl.
  intros [= <-]. apply sort_Permutation in Hsort. rewrite Hsort.
  assert (Hsub : ref <$> List.filter (λ r, is_version_stage (target r))
                           (stage_objects l)
                 `sublist_of` ref <$> stage_objects l)
    by apply fmap_sublist, filter_sublist.
  refine (sublist_NoDup _ _ _ Hsub).
  rewrite stage_objects_refs. apply NoDup_seq.
Qed.

(** What [cleanupVersions] plans from a registry answer: the hypothesis on
    the identities is met by every array [getStagesInOrder] returns. *)
Lemma cleanup_plan_of_registry {World : Type} (aws : Sdk World)
    (vm : VersionManager) (w : World) (ordered : list StageRef) :
  0 < retainPolicy vm →
  completion_of (getStagesInOrder aws vm w) = Normal (Some ordered) →
  stagesToKeep vm ordered
  = drop (length ordered - kept_count vm (length ordered)) ordered
  ∧ stagesToDelete vm ordered
    = take (length ordered - kept_count vm (length ordered)) ordered.
Proof.
  intros Hpos Hq. split; [by apply stagesToKeep_drop|].
  apply stagesToDelete_take; [done|].
  by apply (getStagesInOrder_NoDup aws vm w).
Qed.

(** ** The sort comparator on tokens *)

Lemma parse_safe (s : string) (t : list Z) :
  Token.parse s = Some t → Forall (λ z, z ≤ MAX_SAFE_INTEGER) t → safe t.
Proof.
  intros Hp Hs. pose proof (parse_nonneg s t Hp) as Hn. unfold safe.
  rewrite Forall_forall in *. intros z Hz. split; [by apply Hn|by apply Hs].
Qed.

Lemma round_double_difference (x y : Z) :
  0 ≤ x ≤ MAX_SAFE_INTEGER → 0 ≤ y ≤ MAX_SAFE_INTEGER →
  round_double (x - y) = Num (x - y).
Proof.
  unfold MAX_SAFE_INTEGER. intros Hx Hy. unfold round_double, round_nonneg.
  destruct (Z.leb_spec 0 (x - y)).
  - destruct (Z.ltb_spec (x - y) (2 ^ 53)); [done|lia].
  - destruct (Z.ltb_spec (- (x - y)) (2 ^ 53)); [|lia]. f_equal. lia.
Qed.

Lemma tail_drop {A} (l : list A) (i : nat) : tail (drop i l) = drop (S i) l.
Proof.
  revert i. induction l as [|x l IH]; intros [|i]; simpl; done.
Qed.

Section Comparator.
Context (a b : Stage) (ta tb : list Z) (sa sb : string)
  (ma mb : gmap string string).
Context (Ha : tags a = Some ma) (Hb : tags b = Some mb).
Context (Hsa : ma !! "ALIAS" = Some sa) (Hsb : mb !! "ALIAS" = Some sb).
Context (Hca : components sa = Num <$> ta) (Hcb : components sb = Num <$> tb).
Context (Sa : safe ta) (Sb : safe tb).

Lemma semverSort_rhs_safe (i : nat) :
  semverSort_rhs b i = Normal (Num (hd 0 (drop i tb))).
Proof using Hb Hsb Hcb.
  unfold semverSort_rhs. rewrite Hb, Hsb, Hcb, list_lookup_fmap.
  assert (Hi : tb !! i = drop i tb !! 0%nat)
    by (rewrite lookup_drop; f_equal; lia).
  rewrite Hi. by destruct (drop i tb).
Qed.

Lemma semverSort_reduce (l : list Z) (i : nat) :
  safe l →
  reduce_from
    (λ acc cur i,
       if JS.truthy acc then Normal acc
       else bi ← semverSort_rhs b i; Normal (JS.sub cur bi))
    i (Num <$> l) (Num 0)
  = Normal (Num (first_difference l (drop i tb))).
Proof using Hb Hsb Hcb Sb.
  revert i. induction l as [|x l IH]; intros i Hl; [done|].
  inversion_clear Hl as [|? ? Hx Hl'].
  rewrite fmap_cons. cbn [reduce_from JS.truthy Z.eqb negb].
  rewrite semverSort_rhs_safe. cbn [mbind completion_bind JS.sub].
  assert (Hy : 0 ≤ hd 0 (drop i tb) ≤ MAX_SAFE_INTEGER).
  { destruct (drop i tb) as [|y r] eqn:Hd; simpl.
    - unfold MAX_SAFE_INTEGER. lia.
    - assert (Hin : y ∈ tb).
      { apply (list_elem_of_lookup_2 _ i).
        assert (Hi : tb !! i = drop i tb !! 0%nat)
          by (rewrite lookup_drop; f_equal; lia).
        by rewrite Hi, Hd. }
      unfold safe in Sb. rewrite Forall_forall in Sb. by apply Sb. }
  rewrite round_double_difference by done. cbn [first_difference].
  destruct (Z.eqb_spec (x - hd 0 (drop i tb)) 0) as [Hz|Hnz].
  - rewrite Hz. rewrite IH by done. by rewrite tail_drop.
  - clear IH. generalize (S i).
    assert (Ht : JS.truthy (Num (x - hd 0 (drop i tb))) = true).
    { simpl. by destruct (Z.eqb_spec (x - hd 0 (drop i tb)) 0). }
    revert Ht. generalize (Num (x - hd 0 (drop i tb))). clear.
    intros v Hv. induction l as [|z l IH]; intros j; [done|].
    simpl. rewrite Hv. simpl. apply IH.
Qed.

(** On stages tagged with safe tokens the comparator answers the first
    non-zero difference. *)
Lemma semverSort_safe :
  semverSort a b = Normal (Num (first_difference ta tb)).
Proof using All.
  unfold semverSort. rewrite Ha, Hsa, Hca. unfold reduce.
  by rewrite semverSort_reduce.
Qed.

End Comparator.

Section FirstDifference.
Import Token.

Lemma compare_cons (x : Z) (ta tb : list Z) :
  Token.compare (x :: ta) tb
  = match x ?= hd 0 tb with
    | Eq => Token.compare ta (tail tb)
    | c => c
    end.
Proof.
  unfold Token.compare. destruct tb as [|y tb].
  - cbn [length hd tail]. rewrite !Nat.max_0_r, pad_cons, pad_nil. done.
  - cbn [length hd tail]. rewrite <- Nat.succ_max_distr, !pad_cons. done.
Qed.

Lemma compare_nil_l (tb : list Z) :
  Forall (λ z, 0 ≤ z) tb → Token.compare [] tb ≠ Gt.
Proof.
  unfold Token.compare. cbn [length]. rewrite Nat.max_0_l.
  induction tb as [|y tb IH]; [done|].
  intros Hnn. inversion_clear Hnn as [|? ? Hy Htb].
  cbn [length]. rewrite pad_nil, pad_cons. cbn [lex_compare].
  destruct (Z.compare_spec 0 y); [by apply IH|done|lia].
Qed.

Lemma compare_nil_nil : Token.compare [] [] = Eq.
Proof. reflexivity. Qed.

Lemma Forall_tail {A} (P : A → Prop) (l : list A) :
  Forall P l → Forall P (tail l).
Proof. destruct 1; [constructor|done]. Qed.

(** The comparator's answer is positive exactly when the padded comparison
    says greater. *)
Lemma first_difference_positive (ta tb : list Z) :
  Forall (λ z, 0 ≤ z) tb →
  (0 <? first_difference ta tb) = bool_decide (Token.compare ta tb = Gt).
Proof.
  revert tb. induction ta as [|x ta IH]; intros tb Hnn.
  - simpl. symmetry. apply bool_decide_eq_false_2. by apply compare_nil_l.
  - cbn [first_difference]. rewrite compare_cons.
    destruct (Z.eqb_spec (x - hd 0 tb) 0) as [Hz|Hnz].
    + rewrite IH by by apply Forall_tail.
      destruct (Z.compare_spec x (hd 0 tb)); [done|lia|lia].
    + destruct (Z.compare_spec x (hd 0 tb)); [lia| |].
      * destruct (Z.ltb_spec 0 (x - hd 0 tb)); [lia|done].
      * destruct (Z.ltb_spec 0 (x - hd 0 tb)); [done|lia].
Qed.

(** It is negative exactly when the padded comparison says less, provided
    the first token is not the shorter one. *)
Lemma first_difference_negative (ta tb : list Z) :
  (length tb ≤ length ta)%nat →
  (first_difference ta tb <? 0) = bool_decide (Token.compare ta tb = Lt).
Proof.
  revert tb. induction ta as [|x ta IH]; intros tb Hlen.
  - destruct tb; [done|simpl in Hlen; lia].
  - cbn [first_difference]. rewrite compare_cons.
    assert (Hlen' : (length (tail tb) ≤ length ta)%nat)
      by (destruct tb; simpl in *; lia).
    destruct (Z.eqb_spec (x - hd 0 tb) 0) as [Hz|Hnz].
    + rewrite IH by done.
      destruct (Z.compare_spec x (hd 0 tb)); [done|lia|lia].
    + destruct (Z.compare_spec x (hd 0 tb)); [lia| |].
      * destruct (Z.ltb_spec (x - hd 0 tb) 0); [done|lia].
      * destruct (Z.ltb_spec (x - hd 0 tb) 0); [lia|done].
Qed.

End FirstDifference.

(** For tokens of the spec's shape with exactly representable components,
    [isGreaterVersion] holds exactly when the sort comparator answers a
    positive number: the two agree on "greater". *)
Lemma isGreaterVersion_semverSort (sa sb : string) (ta tb : list Z) :
  Token.parse sa = Some ta → Token.parse sb = Some tb →
  Forall (λ z, z ≤ MAX_SAFE_INTEGER) ta →
  Forall (λ z, z ≤ MAX_SAFE_INTEGER) tb →
  ∃ v, semverSort (Scenario.tagged sa) (Scenario.tagged sb) = Normal v
       ∧ JS.gt v (Num 0) = isGreaterVersion sa sb.
Proof.
  intros Ha Hb Sa Sb. exists (Num (first_difference ta tb)). split.
  - apply (semverSort_safe _ _ ta tb sa sb {[ "ALIAS" := sa ]}
             {[ "ALIAS" := sb ]});
      first [ done | apply lookup_singleton_eq | by apply components_safe
            | by eapply parse_safe ].
  - rewrite (isGreaterVersion_compare sa sb ta tb) by done.
    unfold JS.gt. cbn [JS.lt].
    apply first_difference_positive. by eapply parse_nonneg.
Qed.

(** C4 at the failing input: the sort comparator reads only as many
    components as its first argument has.  It answers 0 for
    ([v1], [v1-0-1]) and 1 for ([v1-0-1], [v1]): the first answer says
    "equal", the second "greater", so the comparison is not antisymmetric;
    [isGreaterVersion] pads both sides and has [v1-0-1] greater than
    [v1]. *)
Theorem semverSort_not_antisymmetric :
  semverSort (Scenario.tagged "v1") (Scenario.tagged "v1-0-1")
  = Normal (Num 0)
  ∧ semverSort (Scenario.tagged "v1-0-1") (Scenario.tagged "v1")
    = Normal (Num 1)
  ∧ isGreaterVersion "v1-0-1" "v1" = true
  ∧ isGreaterVersion "v1" "v1-0-1" = false.
Proof. by vm_compute. Qed.

(** ** Sorting with a consistent comparator *)

Section SortSorted.
Context {A : Type} (comparefn : A → A → completion JSNum).
Context (le : relation A) (P : A → Prop).
Context (Htrans : ∀ x y z, P x → P y → P z → le x y → le y z → le x z).
Context (Hcmp : ∀ a b, P a → P b →
  ∃ v, comparefn a b = Normal v
       ∧ if JS.lt v (Num 0) then le a b else le b a).

Lemma sort_insert_sorted (pivot : A) (l : list A) :
  P pivot → Forall P l → StronglySorted (flip le) l →
  ∃ r, sort_insert comparefn pivot l = Normal r
       ∧ StronglySorted (flip le) r.
Proof using Htrans Hcmp.
  intros Hp. induction l as [|x l IH]; intros HP Hs.
  - exists [pivot]. split; [done|]. repeat constructor.
  - inversion_clear HP as [|? ? Hx Hl].
    apply StronglySorted_cons in Hs as [Hxl Hs].
    destruct (Hcmp pivot x Hp Hx) as (v & Hv & Hle).
    simpl. rewrite Hv. simpl. destruct (JS.lt v (Num 0)).
    + destruct (IH Hl Hs) as (r & Hr & Hsr). rewrite Hr. simpl.
      exists (x :: r). split; [done|].
      apply StronglySorted_cons. split; [|done].
      apply sort_insert_Permutation in Hr. rewrite Hr.
      by constructor.
    + exists (pivot :: x :: l). split; [done|].
      apply StronglySorted_cons. split.
      * constructor; [done|].
        rewrite Forall_forall in *. intros z Hz. unfold flip in *.
        apply (Htrans z x pivot); auto.
      * by apply StronglySorted_cons.
Qed.

Lemma sort_insert_domain (pivot : A) (l r : list A) :
  P pivot → Forall P l → sort_insert comparefn pivot l = Normal r →
  Forall P r.
Proof.
  intros Hp Hl Hr. apply sort_insert_Permutation in Hr. rewrite Hr.
  by constructor.
Qed.

Lemma StronglySorted_rev (l : list A) :
  StronglySorted (flip le) l → StronglySorted le (rev l).
Proof.
  induction l as [|x l IH]; [constructor|].
  intros [Hxl Hs]%StronglySorted_cons. simpl.
  apply StronglySorted_app_2; [|by apply IH|repeat constructor].
  intros y z Hy Hz. apply list_elem_of_singleton in Hz as ->.
  rewrite Forall_forall in Hxl. apply Hxl.
  rewrite list_elem_of_In in Hy |- *. by apply in_rev.
Qed.

Lemma sort_from_sorted (acc rest : list A) :
  Forall P acc → Forall P rest → StronglySorted (flip le) acc →
  ∃ r, sort_from comparefn acc rest = Normal r ∧ StronglySorted le r.
Proof using Htrans Hcmp.
  revert acc. induction rest as [|x rest IH]; intros acc Hacc Hrest Hs.
  - exists (rev acc). split; [done|]. by apply StronglySorted_rev.
  - inversion_clear Hrest as [|? ? Hx Hrest'].
    destruct (sort_insert_sorted x acc Hx Hacc Hs) as (s & Hi & Hss).
    simpl. rewrite Hi. simpl. apply IH; [|done|done].
    exact (sort_insert_domain x acc s Hx Hacc Hi).
Qed.

(** With a comparator that answers according to a transitive order, the
    sort completes and its result is in ascending order. *)
Lemma sort_sorted (l : list A) :
  Forall P l →
  ∃ r, sort comparefn l = Normal r ∧ StronglySorted le r ∧ r ≡ₚ l.
Proof using Htrans Hcmp.
  intros Hl.
  destruct (sort_from_sorted [] l) as (r & Hr & Hs);
    [constructor | done | constructor |].
  exists r. split; [done|]. split; [done|]. by apply sort_Permutation in Hr.
Qed.

End SortSorted.

(** ** Ascending order of the registry answer *)

Section Ascending.
Import Token.

Lemma pad_exact (t : list Z) : pad (length t) t = t.
Proof. unfold pad. by rewrite Nat.sub_diag, app_nil_r. Qed.

Lemma compare_same_length (ta tb : list Z) :
  length ta = length tb → Token.compare ta tb = lex_compare ta tb.
Proof.
  intros Hlen. unfold Token.compare. rewrite <- Hlen, Nat.max_id.
  rewrite pad_exact. rewrite Hlen. by rewrite pad_exact.
Qed.

Lemma lex_compare_trans (a b c : list Z) :
  length a = length b → length b = length c →
  lex_compare a b ≠ Gt → lex_compare b c ≠ Gt → lex_compare a c ≠ Gt.
Proof.
  revert b c. induction a as [|x a IH]; intros [|y b] [|z c]; simpl;
    try done.
  intros [= Hab] [= Hbc].
  destruct (Z.compare_spec x y), (Z.compare_spec y z),
    (Z.compare_spec x z); try done; try lia.
  by apply IH.
Qed.

Lemma not_above_trans (n : nat) (x y z : Stage) :
  uniform n x → uniform n y → uniform n z →
  not_above x y → not_above y z → not_above x z.
Proof.
  intros (tx & Hx & Lx & _) (ty & Hy & Ly & _) (tz & Hz & Lz & _) Hxy Hyz.
  intros tx' tz' Hx' Hz'. simplify_eq.
  specialize (Hxy tx ty Hx Hy). specialize (Hyz ty tz Hy Hz).
  rewrite compare_same_length in Hxy by congruence.
  rewrite compare_same_length in Hyz by congruence.
  rewrite compare_same_length by congruence.
  eapply lex_compare_trans; [| |exact Hxy|exact Hyz]; congruence.
Qed.

Lemma token_of_Some (st : Stage) (t : list Z) :
  token_of st = Some t →
  ∃ m s, tags st = Some m ∧ m !! "ALIAS" = Some s ∧ Token.parse s = Some t.
Proof.
  unfold token_of. destruct (tags st) as [m|]; [|done]. simpl.
  destruct (m !! "ALIAS") as [s|] eqn:Hs; [|done]. simpl. eauto.
Qed.

(** On stages with tokens of one length the comparator answers according
    to the spec's order. *)
Lemma semverSort_consistent (n : nat) (a b : Stage) :
  uniform n a → uniform n b →
  ∃ v, semverSort a b = Normal v
       ∧ if JS.lt v (Num 0) then not_above a b else not_above b a.
Proof.
  intros (ta & Ha & La & Sa) (tb & Hb & Lb & Sb).
  destruct (token_of_Some a ta Ha) as (ma & sa & Hma & Hsa & Hpa).
  destruct (token_of_Some b tb Hb) as (mb & sb & Hmb & Hsb & Hpb).
  exists (Num (first_difference ta tb)). split.
  - apply (semverSort_safe a b ta tb sa sb ma mb);
      first [ done | by apply components_safe | by eapply parse_safe ].
  - cbn [JS.lt].
    rewrite first_difference_negative by lia.
    case_bool_decide as Hc; intros t1 t2 H1 H2; simplify_eq.
    + by rewrite Hc.
    + rewrite (token_compare_antisym ta tb).
      by destruct (Token.compare ta tb).
Qed.

(** The sort of [getStagesInOrder] on such stages: it completes, and the
    array it leaves is in ascending order of the tokens. *)
Lemma sort_stages_ascending (n : nat) (l : list StageRef) :
  Forall (λ r, uniform n (target r)) l →
  ∃ sorted,
    sort (λ a b, semverSort (target a) (target b)) l = Normal sorted
    ∧ StronglySorted (λ x y, not_above (target x) (target y)) sorted
    ∧ sorted ≡ₚ l.
Proof.
  apply (sort_sorted _ _ (λ r, uniform n (target r))).
  - intros x y z. apply not_above_trans.
  - intros a b. apply semverSort_consistent.
Qed.

End Ascending.

Lemma stage_objects_Forall (Q : Stage → Prop) (l : list Stage) :
  Forall Q l → Forall (λ r, Q (target r)) (stage_objects l).
Proof.
  unfold stage_objects. generalize 0%nat as k.
  assert (H : ∀ (f : nat → nat), Forall Q l →
    Forall (λ r, Q (target r)) (imap (λ i st, {| ref := f i; target := st |}) l)).
  { induction l as [|st l IH]; intros f Hl; [constructor|].
    inversion_clear Hl. simpl. constructor; [done|].
    apply (IH (f ∘ S)). done. }
  intros _. apply (H id).
Qed.

Lemma filter_Forall {A} (f : A → bool) (Q : A → Prop) (l : list A) :
  Forall (λ x, f x = true → Q x) l → Forall Q (List.filter f l).
Proof.
  induction 1 as [|x l Hx Hl IH]; [constructor|]. simpl.
  destruct (f x) eqn:Hf; [constructor; auto|done].
Qed.

Section AscendingCleanup.
Context {World : Type} (aws : Sdk World) (vm : VersionManager).
Context (w w1 w2 : World) (svc restApiId : string)
  (stack : DescribeStacksOutput) (stages : Stages) (l : list Stage) (n : nat).
Context (Hsvc : service vm = Some svc).
Context (Hdescribe :
  describeStacks aws (svc +:+ "-" +:+ stage vm) w = (Resolved stack, w1)).
Context (Hid : restApiId_of stack = Normal restApiId).
Context (Hstages : getStages aws restApiId w1 = (Resolved stages, w2)).
Context (Hitem : item stages = Some l).
Context (Huniform : Forall (λ st, is_version_stage st = true → uniform n st) l).

(** When the tags of the version stages are tokens of one length, the
    registry query answers with the stages in ascending order. *)
Lemma getStagesInOrder_ascending :
  ∃ sorted,
    getStagesInOrder aws vm w
    = (Normal (Some sorted), w2,
       [call_describeStacks (svc +:+ "-" +:+ stage vm);
        call_getStages restApiId])
    ∧ StronglySorted (λ x y, not_above (target x) (target y)) sorted.
Proof using All.
  destruct (sort_stages_ascending n
    (List.filter (λ r, is_version_stage (target r)) (stage_objects l)))
    as (sorted & Hsort & Hsorted & _).
  { apply filter_Forall.
    by apply (stage_objects_Forall
                (λ st, is_version_stage st = true → uniform n st)). }
  exists sorted. split; [|done].
  unfold getStagesInOrder. rewrite Hsvc.
  unfold mbind, M_bind, await, lift.
  rewrite Hdescribe, Hid, Hstages, Hitem. cbn. by rewrite Hsort.
Qed.

(** Then, with a positive retention count, the stacks are deleted in
    ascending order of the versions: the calls are those of the stages to
    delete, a prefix of the sorted array, in the order of the array. *)
Lemma cleanup_ascending :
  0 < retainPolicy vm →
  ∃ sorted,
    completion_of (getStagesInOrder aws vm w) = Normal (Some sorted)
    ∧ StronglySorted (λ x y, not_above (target x) (target y))
        (stagesToDelete vm sorted)
    ∧ stagesToDelete vm sorted
      = take (length sorted - kept_count vm (length sorted)) sorted
    ∧ completion_of (cleanupVersions aws vm w) = Normal VUndefined
    ∧ deleteStack_calls (trace_of (cleanupVersions aws vm w))
      = omap (teardown_name vm svc) (stagesToDelete vm sorted).
Proof using All.
  intros Hpos.
  destruct getStagesInOrder_ascending as (sorted & Hq & Hsorted).
  exists sorted.
  assert (Hnd : NoDup (ref <$> sorted)).
  { apply (getStagesInOrder_NoDup aws vm w). by rewrite Hq. }
  pose proof (stagesToDelete_take vm Hpos sorted Hnd) as Htake.
  split; [by rewrite Hq|]. split; [|split; [done|]].
  - rewrite Htake.
    rewrite <- (take_drop (length sorted - kept_count vm (length sorted))
                  sorted) in Hsorted.
    by apply StronglySorted_app_1_l in Hsorted.
  - destruct (cleanupVersions_unfold aws vm w _ _ sorted Hq)
      as (svc' & Hsvc' & Hrun).
    rewrite Hsvc in Hsvc'. injection Hsvc' as <-.
    rewrite Hrun.
    destruct (retire_loop_spec aws vm svc (stagesToDelete vm sorted) w2)
      as [_ Hcalls].
    destruct (for_of _ _ w2) as [[c w3] tr3]. simpl in *.
    split; [done|]. exact Hcalls.
Qed.

End AscendingCleanup.

(** ** One teardown at a time *)

Lemma sdk_calls_app (t1 t2 : list event) :
  sdk_calls (t1 ++ t2) = sdk_calls t1 ++ sdk_calls t2.
Proof. apply List.filter_app. Qed.

(** The loop never starts a deletion before the wait of the previous one
    has settled. *)
Lemma retire_loop_cycles {World : Type} (aws : Sdk World)
    (vm : VersionManager) (service : string) (l : list StageRef) (w : World) :
  cycles (sdk_calls (trace_of (for_of (retire_stage aws vm service) l w))).
Proof.
  revert w. induction l as [|st l IH]; intros w; [constructor|].
  rewrite for_of_cons.
  pose proof (retire_stage_unfold aws vm service st w) as Hst.
  destruct (retire_stage aws vm service st w) as [[c w1] tr1].
  specialize (IH w1).
  assert (Hc : c = Normal () ∧
    ∀ tr, cycles (sdk_calls tr) → cycles (sdk_calls (tr1 ++ tr))).
  { destruct (stageName (target st)); [|by simplify_eq].
    destruct (tags (target st) ≫= (.!! "ALIAS")); [|by simplify_eq].
    cbn zeta in Hst.
    destruct (deleteStack aws _ w) as [[[]|m] w'].
    - destruct (waitFor_stackDeleteComplete aws _ w') as [[[]|m] w''];
        simplify_eq; (split; [done|]); intros tr Htr;
        rewrite sdk_calls_app; simpl; by constructor.
    - simplify_eq. split; [done|]. intros tr Htr.
      rewrite sdk_calls_app. simpl. by constructor. }
  destruct Hc as [-> Hc].
  destruct (for_of _ l w1) as [[c2 w2] tr2]. simpl in *. by apply Hc.
Qed.

(** C9 at the failing input: [v1-0-1] is listed before [v1]; the comparator
    answers 0 for ([v1], [v1-0-1]), the sort leaves the array as it is,
    which is not ascending, and with a retention of one the newer version
    [v1-0-1] is the one deleted. *)
Theorem cleanup_retires_newer_version :
  let run := cleanupVersions Scenario.sdk (Scenario.plugin 1 None)
               unequal_lengths in
  completion_of (getStagesInOrder Scenario.sdk (Scenario.plugin 1 None)
                   unequal_lengths)
  = Normal (Some [ {| ref := 0; target := Scenario.tagged "v1-0-1" |};
                   {| ref := 1; target := Scenario.tagged "v1" |} ])
  ∧ isGreaterVersion "v1-0-1" "v1" = true
  ∧ deleteStack_calls (trace_of run) = ["svc-dev-v1-0-1"]
  ∧ Scenario.deleted (world_of run) = ["svc-dev-v1-0-1"].
Proof. by vm_compute. Qed.


(** * Further properties of the code *)

(** ** What validation and a failed cleanup leave untouched *)

Section Untouched.
Context {World : Type} (aws : Sdk World) (vm : VersionManager).

Lemma getStagesInOrder_registry_trace (w : World) :
  registry_trace (trace_of (getStagesInOrder aws vm w)).
Proof.
  unfold getStagesInOrder, registry_trace.
  destruct (service vm) as [svc|]; [|by left].
  unfold mbind, M_bind, await, lift.
  destruct (describeStacks aws _ w) as [[stack|m] w1]; [|right; left; eauto].
  destruct (restApiId_of stack) as [restApiId|e]; [|right; left; eauto].
  destruct (getStages aws restApiId w1) as [[stages|m] w2];
    [|right; right; eauto].
  destruct (item stages) as [l|]; [|right; right; eauto]. cbn.
  destruct (sort _ _); right; right; eauto.
Qed.

Lemma registry_trace_no_teardown (tr logs : list event) :
  registry_trace tr → forallb is_log_info logs = true →
  List.filter is_teardown_call (tr ++ logs) = [].
Proof.
  intros Htr Hlogs. rewrite List.filter_app.
  assert (H1 : List.filter is_teardown_call tr = [])
    by (destruct Htr as [->|[[n ->]|(n & id & ->)]]; done).
  rewrite H1. simpl. clear -Hlogs.
  induction logs as [|ev logs IH]; [done|]. simpl in *.
  apply andb_prop in Hlogs as [Hev Hl]. destruct ev; try done; by apply IH.
Qed.

(** The trace of a validation: that of the registry query followed by
    informational events only, or nothing at all. *)
Lemma validateVersion_trace (w : World) :
  ∃ logs,
    forallb is_log_info logs = true
    ∧ (trace_of (validateVersion aws vm w) = []
       ∨ trace_of (validateVersion aws vm w)
         = trace_of (getStagesInOrder aws vm w) ++ logs).
Proof.
  destruct (env_retainPolicy (env vm)) as [rp|] eqn:Hrp;
    [|exists []; split; [done|left]; unfold validateVersion; by rewrite Hrp].
  destruct (decide (rp = "")) as [->|Hne];
    [exists []; split; [done|left]; unfold validateVersion; by rewrite Hrp|].
  destruct (env_apiVersion (env vm)) as [c|] eqn:Hc.
  2:{ exists []. split; [done|left]. unfold validateVersion.
      rewrite Hrp, Hc. by destruct rp. }
  destruct (format_violation c) eqn:Hfmt.
  { exists []. split; [done|left].
    by rewrite (validateVersion_format_error aws vm w rp c). }
  rewrite (validateVersion_unfold aws vm w rp c) by done.
  destruct (getStagesInOrder aws vm w) as [[[ordered|e] w1] tr1];
    [|exists []; split; [done|right]; simpl; by rewrite app_nil_r].
  cbn zeta.
  destruct ((ordered ≫= last) ≫= (λ st, tags (target st))) as [lastTags|].
  - destruct (lastTags !! "ALIAS") as [alias|].
    + destruct (isGreaterVersion c alias); eexists; (split; [|right]);
        simpl; try reflexivity; reflexivity.
    + eexists; (split; [|right]); simpl; try reflexivity; reflexivity.
  - eexists; (split; [|right]); simpl; try reflexivity; reflexivity.
Qed.

End Untouched.

(** X1.  Validation changes nothing that is deployed: whatever the
    configuration, the candidate and the answers of the SDK,
    [validateVersion] never calls [deleteStack] or [waitFor]; the only calls
    it makes are those of the registry query, [describeStacks] then
    [getStages], each at most once. *)
Theorem validateVersion_never_tears_down {World : Type} (aws : Sdk World)
    (vm : VersionManager) (w : World) :
  List.filter is_teardown_call (trace_of (validateVersion aws vm w)) = []
  ∧ registry_trace (sdk_calls (trace_of (validateVersion aws vm w))).
Proof.
  destruct (validateVersion_trace aws vm w) as (logs & Hlogs & [Htr|Htr]); rewrite Htr.
  - split; [done|by left].
  - pose proof (getStagesInOrder_registry_trace aws vm w) as Hreg.
    split; [by apply registry_trace_no_teardown|].
    rewrite sdk_calls_app.
    assert (Hl : sdk_calls logs = []).
    { clear -Hlogs. induction logs as [|ev logs IH]; [done|]. simpl in *.
      apply andb_prop in Hlogs as [Hev Hl]. destruct ev; try done.
      by apply IH. }
    rewrite Hl, app_nil_r.
    by destruct Hreg as [->|[[n ->]|(n & id & ->)]];
      [left|right; left; exists n|right; right; exists n, id].
Qed.

(** X2.  A cleanup run that fails has deleted nothing: when
    [cleanupVersions] throws, the error arose before the retirement loop,
    no [deleteStack] or [waitFor] call was made and nothing was logged. *)
Theorem failed_cleanup_deletes_nothing {World : Type} (aws : Sdk World)
    (vm : VersionManager) (w : World) (e : exn) :
  completion_of (cleanupVersions aws vm w) = Throw e →
  List.filter is_teardown_call (trace_of (cleanupVersions aws vm w)) = []
  ∧ registry_trace (trace_of (cleanupVersions aws vm w)).
Proof.
  intros Hthrow.
  assert (Hreg : registry_trace (trace_of (cleanupVersions aws vm w))).
  { unfold cleanupVersions in *. destruct (service vm) as [svc|]; [|by left].
    pose proof (getStagesInOrder_registry_trace aws vm w) as Hreg.
    unfold mbind at 1 in Hthrow. unfold M_bind at 1 in Hthrow.
    unfold mbind at 1. unfold M_bind at 1.
    destruct (getStagesInOrder aws vm w) as [[[ordered|e'] w1] tr1];
      [|done].
    destruct ordered as [ordered|]; simpl in *.
    - exfalso. unfold mbind, M_bind in Hthrow.
      pose proof (retire_loop_spec aws vm svc (stagesToDelete vm ordered) w1)
        as [Hn _].
      destruct (for_of _ _ w1) as [[c w2] tr2]. simpl in *. by subst c.
    - by rewrite app_nil_r. }
  split; [|done].
  rewrite <- (app_nil_r (trace_of _)).
  by apply registry_trace_no_teardown.
Qed.

Lemma failed_cleanup_deletes_nothing_witness :
  List.filter is_teardown_call
    (trace_of (cleanupVersions Scenario.sdk (Scenario.plugin 1 None)
                 untagged_stage)) = [].
Proof.
  destruct (failed_cleanup_deletes_nothing Scenario.sdk
    (Scenario.plugin 1 None) untagged_stage (undefined_read "replace"))
    as [H _]; [vm_compute; reflexivity|].
  exact H.
Defined.

(** ** What the registry query answers *)

Lemma filter_elem_of {A} (f : A → bool) (l : list A) (x : A) :
  x ∈ List.filter f l ↔ x ∈ l ∧ f x = true.
Proof. rewrite !list_elem_of_In. apply filter_In. Qed.

Lemma getStagesInOrder_answer {World : Type}
    (aws : Sdk World) (vm : VersionManager) (w : World)
    (ordered : list StageRef) :
  completion_of (getStagesInOrder aws vm w) = Normal (Some ordered) →
  NoDup (ref <$> ordered)
  ∧ (∀ r, r ∈ ordered →
       ∃ n, stageName (target r) = Some n ∧ startsWith_v n = true)
  ∧ ∃ svc stack restApiId stages w1 w2 l,
      service vm = Some svc
      ∧ describeStacks aws (svc +:+ "-" +:+ stage vm) w = (Resolved stack, w1)
      ∧ restApiId_of stack = Normal restApiId
      ∧ getStages aws restApiId w1 = (Resolved stages, w2)
      ∧ item stages = Some l
      ∧ ordered
        ≡ₚ List.filter (λ r, is_version_stage (target r)) (stage_objects l).
Proof.
  intros Hq. split; [by apply (getStagesInOrder_NoDup aws vm w)|].
  unfold getStagesInOrder in Hq. destruct (service vm) as [svc|]; [|done].
  unfold mbind, M_bind, await, lift in Hq.
  destruct (describeStacks aws _ w) as [[stack|m] w1] eqn:Hd; [|done].
  destruct (restApiId_of stack) as [restApiId|e] eqn:Hid; [|done].
  destruct (getStages aws restApiId w1) as [[stages|m] w2] eqn:Hg; [|done].
  destruct (item stages) as [l|] eqn:Hitem; [|done]. cbn in Hq.
  destruct (sort _ _) as [sorted|e] eqn:Hsort; [|done]. simpl in Hq.
  injection Hq as <-. apply sort_Permutation in Hsort.
  split.
  - intros r Hr. rewrite Hsort in Hr.
    apply filter_elem_of in Hr as [_ Hv]. unfold is_version_stage in Hv.
    destruct (stageName (target r)) as [n|]; [eauto|done].
  - exists svc, stack, restApiId, stages, w1, w2, l. by repeat split.
Qed.

(** X3.  The array [getStagesInOrder] resolves with holds exactly the
    version stages of the [getStages] response, each once, in some order:
    every stage in it has a name that starts with [v], nothing of the
    response with such a name is lost, and no stage appears twice. *)
Theorem registry_answer_is_the_version_stages {World : Type}
    (aws : Sdk World) (vm : VersionManager) (w : World)
    (ordered : list StageRef) :
  completion_of (getStagesInOrder aws vm w) = Normal (Some ordered) →
  NoDup (ref <$> ordered)
  ∧ (∀ r, r ∈ ordered →
       ∃ n, stageName (target r) = Some n ∧ startsWith_v n = true)
  ∧ ∃ svc stack restApiId stages w1 w2 l,
      service vm = Some svc
      ∧ describeStacks aws (svc +:+ "-" +:+ stage vm) w = (Resolved stack, w1)
      ∧ restApiId_of stack = Normal restApiId
      ∧ getStages aws restApiId w1 = (Resolved stages, w2)
      ∧ item stages = Some l
      ∧ ordered
        ≡ₚ List.filter (λ r, is_version_stage (target r)) (stage_objects l).
Proof. apply getStagesInOrder_answer. Qed.

Lemma registry_answer_is_the_version_stages_witness :
  ∃ n, stageName (Scenario.tagged "v1-0-0") = Some n ∧ startsWith_v n = true.
Proof.
  destruct (registry_answer_is_the_version_stages Scenario.sdk
    (Scenario.plugin 1 None)
    (Scenario.cloud [ {| stageName := Some "dev"; tags := None |};
                      Scenario.tagged "v1-0-0" ] [])
    [ {| ref := 1; target := Scenario.tagged "v1-0-0" |} ])
    as (_ & H & _); [vm_compute; reflexivity|].
  apply (H {| ref := 1; target := Scenario.tagged "v1-0-0" |}). left.
Defined.

Section DeadBranch.
Context {World : Type} (aws : Sdk World) (vm : VersionManager)
  (service : string).

Lemma retire_stage_named (st : StageRef) (w : World) (n : string) :
  stageName (target st) = Some n →
  log_error "STAGE undefined, continuing"
    ∉ trace_of (retire_stage aws vm service st w).
Proof.
  intros Hn. rewrite retire_stage_unfold, Hn.
  destruct (tags (target st) ≫= (.!! "ALIAS")) as [version|].
  - cbn zeta.
    destruct (deleteStack aws _ w) as [[[]|m] w1].
    + destruct (waitFor_stackDeleteComplete aws _ w1) as [[[]|m] w2];
        simpl; rewrite !not_elem_of_cons; repeat split; try done;
        apply not_elem_of_nil.
    + simpl. rewrite !not_elem_of_cons. repeat split; try done.
      apply not_elem_of_nil.
  - simpl. rewrite !not_elem_of_cons. split; [done|]. apply not_elem_of_nil.
Qed.

Lemma retire_loop_named (l : list StageRef) (w : World) :
  (∀ st, st ∈ l → ∃ n, stageName (target st) = Some n) →
  log_error "STAGE undefined, continuing"
    ∉ trace_of (for_of (retire_stage aws vm service) l w).
Proof.
  revert w. induction l as [|st l IH]; intros w Hl.
  - simpl. apply not_elem_of_nil.
  - rewrite for_of_cons.
    destruct (Hl st) as [n Hn]; [by left|].
    pose proof (retire_stage_named st w n Hn) as Hst.
    pose proof (retire_stage_normal aws vm service st w) as Hc.
    destruct (retire_stage aws vm service st w) as [[c w1] tr1].
    simpl in Hst, Hc. subst c.
    specialize (IH w1 (λ st' Hin, Hl st' (list_elem_of_further _ _ _ Hin))).
    destruct (for_of _ l w1) as [[c2 w2] tr2]. simpl in *.
    rewrite not_elem_of_app. by split.
Qed.

End DeadBranch.

(** X4.  The branch of the loop for a stage without a name is never taken
    in a cleanup run: the registry query has already dropped every stage
    whose name does not start with [v], so [cleanupVersions] never logs
    "STAGE undefined, continuing". *)
Theorem cleanup_never_meets_unnamed_stage {World : Type} (aws : Sdk World)
    (vm : VersionManager) (w : World) :
  log_error "STAGE undefined, continuing"
    ∉ trace_of (cleanupVersions aws vm w).
Proof.
  pose proof (getStagesInOrder_calls aws vm w) as Hcalls.
  pose proof (getStagesInOrder_answer aws vm w) as Hans.
  unfold cleanupVersions. destruct (service vm) as [svc|];
    [|simpl; apply not_elem_of_nil].
  unfold mbind at 1. unfold M_bind at 1.
  destruct (getStagesInOrder aws vm w) as [[[ordered|e] w1] tr1];
    simpl in Hcalls.
  - assert (Htr1 : log_error "STAGE undefined, continuing" ∉ tr1).
    { intros Hin. rewrite forallb_forall in Hcalls.
      apply list_elem_of_In in Hin. by specialize (Hcalls _ Hin). }
    destruct ordered as [ordered|]; simpl.
    + destruct (Hans ordered eq_refl) as (_ & Hnamed & _).
      unfold mbind, M_bind.
      pose proof (retire_loop_named aws vm svc (stagesToDelete vm ordered) w1)
        as Hloop.
      destruct (for_of _ _ w1) as [[c w2] tr2]. simpl in *.
      destruct c; simpl; rewrite ?app_nil_r, not_elem_of_app;
        (split; [done|]); apply Hloop; intros st Hst;
        apply filter_elem_of in Hst as [Hst _];
        destruct (Hnamed st Hst) as (n & Hn & _); eauto.
    + by rewrite app_nil_r.
  - simpl. intros Hin. rewrite forallb_forall in Hcalls.
    apply list_elem_of_In in Hin. by specialize (Hcalls _ Hin).
Qed.

(** ** Validation with nothing to compare with *)

(** X5.  When the checks on the configuration and the format have passed
    and the registry has no latest stage to compare with (no array, an empty
    array, or a last stage without a [tags] object), the candidate is
    accepted without any comparison; the one event logged is the retention
    policy. *)
Theorem validate_without_latest {World : Type} (aws : Sdk World)
    (vm : VersionManager) (w w1 : World) (tr1 : list event)
    (rp candidate : string) (orderedStages : option (list StageRef)) :
  env_retainPolicy (env vm) = Some rp → rp ≠ "" →
  env_apiVersion (env vm) = Some candidate →
  format_violation candidate = false →
  getStagesInOrder aws vm w = (Normal orderedStages, w1, tr1) →
  (orderedStages = None ∨ orderedStages = Some []
   ∨ ∃ l st, orderedStages = Some l ∧ last l = Some st
             ∧ tags (target st) = None) →
  validateVersion aws vm w
  = (Normal VUndefined, w1,
     tr1 ++ [log_info ("Using retention policy: " +:+ rp +:+ " versions")]).
Proof.
  intros Hrp Hne Hc Hfmt Hq Hnone.
  rewrite (validateVersion_unfold aws vm w rp candidate) by done.
  rewrite Hq. cbn zeta.
  assert (H : (orderedStages ≫= last) ≫= (λ st, tags (target st)) = None).
  { destruct Hnone as [->|[->|(l & st & -> & Hl & Ht)]]; [done|done|].
    simpl. rewrite Hl. simpl. by rewrite Ht. }
  by rewrite H.
Qed.

Lemma validate_without_latest_witness :
  validateVersion Scenario.sdk (Scenario.plugin 1 (Some "v1-0-0"))
    (Scenario.cloud [] [])
  = (Normal VUndefined, Scenario.cloud [] [],
     [call_describeStacks "svc-dev"; call_getStages "api";
      log_info "Using retention policy: 2 versions"]).
Proof.
  apply (validate_without_latest Scenario.sdk
    (Scenario.plugin 1 (Some "v1-0-0")) (Scenario.cloud [] [])
    (Scenario.cloud [] [])
    [call_describeStacks "svc-dev"; call_getStages "api"]
    "2" "v1-0-0" (Some []));
    [vm_compute; reflexivity | done | vm_compute; reflexivity
    | vm_compute; reflexivity | vm_compute; reflexivity | by right; left].
Defined.

(** ** The identifier of the REST API *)

(** X6.  The REST API identifier is read from the first stack only, and
    from the first of its outputs whose key is [ApiGatewayRestApi]: the query
    finds an identifier exactly when that output exists and has a value.  An
    empty [Stacks] array is the one case that raises a [TypeError]; every
    other failure is the error "Rest API ID could not be found". *)
Theorem restApiId_first_match (stack : DescribeStacksOutput) :
  (∀ id, restApiId_of stack = Normal id ↔
     ∃ s rest outs o,
       Stacks stack = Some (s :: rest) ∧ Outputs s = Some outs
       ∧ List.find (λ output,
           bool_decide (OutputKey output = Some "ApiGatewayRestApi")) outs
         = Some o
       ∧ OutputValue o = Some id)
  ∧ (restApiId_of stack = Throw (undefined_read "Outputs")
     ↔ Stacks stack = Some [])
  ∧ (∀ e, restApiId_of stack = Throw e →
       e = undefined_read "Outputs"
       ∨ e = Error "Rest API ID could not be found").
Proof.
  unfold restApiId_of.
  destruct (Stacks stack) as [[|s rest]|]; simpl.
  - split; [|split]; [| |intros e [= <-]; by left].
    + intros id. split; [done|]. by intros (? & ? & ? & ? & [=] & _).
    + done.
  - split; [|split].
    + intros id. split.
      * destruct (Outputs s) as [outs|] eqn:Ho; simpl; [|done].
        destruct (List.find _ outs) as [o|] eqn:Hf; simpl; [|done].
        destruct (OutputValue o) as [v|] eqn:Hv; [|done].
        intros [= <-]. by exists s, rest, outs, o.
      * intros (s' & rest' & outs & o & [= <- <-] & Ho & Hf & Hv).
        rewrite Ho. simpl. rewrite Hf. simpl. by rewrite Hv.
    + split; [|done].
      destruct (Outputs s ≫= _) as [o|]; simpl; [|done].
      by destruct (OutputValue o).
    + intros e. destruct (Outputs s ≫= _) as [o|]; simpl.
      * destruct (OutputValue o); [done|]. intros [= <-]. by right.
      * intros [= <-]. by right.
  - split; [|split].
    + intros id. split; [done|]. by intros (? & ? & ? & ? & [=] & _).
    + done.
    + intros e [= <-]. by right.
Qed.

(** ** Cleanup within the retention window *)

Lemma omap_length_le {A B} (f : A → option B) (l : list A) :
  (length (omap f l) ≤ length l)%nat.
Proof.
  induction l as [|x l IH]; [done|]. simpl.
  destruct (f x); simpl; [apply le_n_S|apply le_S]; exact IH.
Qed.

(** X7.  With a positive retention count, a cleanup run makes at most
    [length - retainPolicy] deletions, and when the registry holds no more
    version stages than the retention count it does nothing beyond the
    query: no deletion, no log event, the world as the query left it. *)
Theorem cleanup_within_retention {World : Type} (aws : Sdk World)
    (vm : VersionManager) (w w1 : World) (tr1 : list event)
    (ordered : list StageRef) :
  0 < retainPolicy vm →
  getStagesInOrder aws vm w = (Normal (Some ordered), w1, tr1) →
  (length (deleteStack_calls (trace_of (cleanupVersions aws vm w)))
   ≤ length ordered - Z.to_nat (retainPolicy vm))%nat
  ∧ (Z.of_nat (length ordered) ≤ retainPolicy vm →
     cleanupVersions aws vm w = (Normal VUndefined, w1, tr1)).
Proof.
  intros Hpos Hq.
  assert (Hnd : NoDup (ref <$> ordered))
    by (apply (getStagesInOrder_NoDup aws vm w); by rewrite Hq).
  pose proof (stagesToDelete_take vm Hpos ordered Hnd) as Htake.
  destruct (cleanupVersions_unfold aws vm w w1 tr1 ordered Hq)
    as (svc & Hsvc & Hrun).
  pose proof (getStagesInOrder_registry_trace aws vm w) as Hreg.
  rewrite Hq in Hreg. simpl in Hreg.
  assert (Hno : deleteStack_calls tr1 = [])
    by (destruct Hreg as [->|[[n ->]|(n & id & ->)]]; done).
  rewrite Hrun. split.
  - destruct (retire_loop_spec aws vm svc (stagesToDelete vm ordered) w1)
      as [_ Hdel].
    destruct (for_of _ _ w1) as [[c w2] tr2]. simpl in *.
    rewrite deleteStack_calls_app, Hno, Hdel. simpl.
    etrans; [apply omap_length_le|]. rewrite Htake, length_take.
    unfold kept_count. lia.
  - intros Hle. rewrite Htake.
    replace (length ordered - kept_count vm (length ordered))%nat
      with 0%nat by (unfold kept_count; lia).
    rewrite take_0. simpl. by rewrite app_nil_r.
Qed.

Lemma cleanup_within_retention_witness :
  cleanupVersions Scenario.sdk (Scenario.plugin 2 None)
    (Scenario.cloud [Scenario.tagged "v1-0-0"; Scenario.tagged "v1-1-0"] [])
  = (Normal VUndefined,
     Scenario.cloud [Scenario.tagged "v1-0-0"; Scenario.tagged "v1-1-0"] [],
     [call_describeStacks "svc-dev"; call_getStages "api"]).
Proof.
  destruct (cleanup_within_retention Scenario.sdk (Scenario.plugin 2 None)
    (Scenario.cloud [Scenario.tagged "v1-0-0"; Scenario.tagged "v1-1-0"] [])
    (Scenario.cloud [Scenario.tagged "v1-0-0"; Scenario.tagged "v1-1-0"] [])
    [call_describeStacks "svc-dev"; call_getStages "api"]
    (stage_objects [Scenario.tagged "v1-0-0"; Scenario.tagged "v1-1-0"]))
    as [_ H]; [vm_compute; reflexivity | vm_compute; reflexivity |].
  apply H. vm_compute. discriminate.
Defined.

(** ** [isGreaterVersion] as an order on all strings *)

Section StrictOrder.

Lemma at_or_zero_not_NaN (v : list JSNum) (i : nat) : at_or_zero v i ≠ NaN.
Proof.
  unfold at_or_zero, JS.or. destruct (v !! i) as [x|]; [|done].
  by destruct x as [|z| |]; simpl; [|destruct (z =? 0)| |].
Qed.

Lemma at_or_zero_beyond (v : list JSNum) (i : nat) :
  (length v ≤ i)%nat → at_or_zero v i = Num 0.
Proof.
  intros Hi. unfold at_or_zero. by rewrite (lookup_ge_None_2 v i Hi).
Qed.

Lemma lt_asym (x y : JSNum) : JS.lt x y = true → JS.lt y x = false.
Proof.
  destruct x as [|a| |], y as [|b| |]; simpl; try done.
  intros H%Z.ltb_lt. apply Z.ltb_ge. lia.
Qed.

Lemma lt_trans (x y z : JSNum) :
  JS.lt x y = true → JS.lt y z = true → JS.lt x z = true.
Proof.
  destruct x as [|a| |], y as [|b| |], z as [|c| |]; simpl; try done.
  intros H1%Z.ltb_lt H2%Z.ltb_lt. apply Z.ltb_lt. lia.
Qed.

Lemma lt_trichotomy (x y : JSNum) :
  x ≠ NaN → y ≠ NaN → JS.lt x y = false → JS.lt y x = false → x = y.
Proof.
  destruct x as [|a| |], y as [|b| |]; simpl; try done.
  intros _ _ H1%Z.ltb_ge H2%Z.ltb_ge. f_equal. lia.
Qed.

Lemma isGreaterVersion_loop_iff (n i : nat) (v1 v2 : list JSNum) :
  isGreaterVersion_loop n i v1 v2 = true ↔
  ∃ k, (k < n)%nat
       ∧ (∀ j, (j < k)%nat → at_or_zero v1 (i + j) = at_or_zero v2 (i + j))
       ∧ JS.gt (at_or_zero v1 (i + k)) (at_or_zero v2 (i + k)) = true.
Proof.
  revert i. induction n as [|n IH]; intros i.
  - split; [done|]. intros (k & Hk & _). lia.
  - cbn [isGreaterVersion_loop].
    destruct (JS.gt (at_or_zero v1 i) (at_or_zero v2 i)) eqn:Hgt.
    { split; [intros _|done]. exists 0%nat.
      rewrite Nat.add_0_r. split; [lia|]. split; [intros j Hj; lia|done]. }
    destruct (JS.lt (at_or_zero v1 i) (at_or_zero v2 i)) eqn:Hlt.
    { split; [done|]. intros (k & Hk & Heq & Hk').
      destruct k as [|k].
      - rewrite Nat.add_0_r in Hk'. congruence.
      - specialize (Heq 0%nat ltac:(lia)). rewrite Nat.add_0_r in Heq.
        rewrite Heq, lt_irrefl in Hlt. done. }
    assert (Heq0 : at_or_zero v1 i = at_or_zero v2 i)
      by (apply lt_trichotomy; auto using at_or_zero_not_NaN).
    rewrite IH. split.
    + intros (k & Hk & Heq & Hk'). exists (S k).
      split; [lia|]. split.
      * intros [|j] Hj; [by rewrite Nat.add_0_r|].
        rewrite <- Nat.add_succ_comm. apply Heq. lia.
      * by rewrite <- Nat.add_succ_comm.
    + intros (k & Hk & Heq & Hk'). destruct k as [|k].
      * rewrite Nat.add_0_r in Hk'. congruence.
      * exists k. split; [lia|]. split.
        -- intros j Hj. rewrite Nat.add_succ_comm. apply Heq. lia.
        -- by rewrite Nat.add_succ_comm.
Qed.

(** [isGreaterVersion] holds exactly when the two versions part somewhere
    with the first the greater there; the bound of the loop adds nothing,
    both sides being zero beyond the longer array. *)
Lemma isGreaterVersion_greater_at (a b : string) :
  isGreaterVersion a b = true
  ↔ ∃ k, greater_at (components a) (components b) k.
Proof.
  unfold isGreaterVersion, greater_at. rewrite isGreaterVersion_loop_iff.
  split.
  - intros (k & _ & Heq & Hk). by exists k.
  - intros (k & Heq & Hk). exists k. split; [|done].
    destruct (Nat.lt_ge_cases k
      (Nat.max (length (components a)) (length (components b))))
      as [|Hge]; [done|].
    rewrite !at_or_zero_beyond in Hk by lia. done.
Qed.

Lemma greater_at_asym (v1 v2 : list JSNum) (k1 k2 : nat) :
  greater_at v1 v2 k1 → greater_at v2 v1 k2 → False.
Proof.
  intros [He1 Hg1] [He2 Hg2]. unfold JS.gt in *.
  destruct (Nat.lt_trichotomy k1 k2) as [Hlt|[->|Hlt]].
  - rewrite (He2 k1 Hlt), lt_irrefl in Hg1. done.
  - apply lt_asym in Hg1. congruence.
  - rewrite (He1 k2 Hlt), lt_irrefl in Hg2. done.
Qed.

Lemma greater_at_trans (v1 v2 v3 : list JSNum) (k1 k2 : nat) :
  greater_at v1 v2 k1 → greater_at v2 v3 k2 →
  greater_at v1 v3 (Nat.min k1 k2).
Proof.
  intros [He1 Hg1] [He2 Hg2]. unfold JS.gt in *. split.
  - intros j Hj. rewrite He1, He2 by lia. done.
  - unfold JS.gt. destruct (Nat.lt_trichotomy k1 k2) as [Hlt|[->|Hlt]].
    + rewrite Nat.min_l by lia. by rewrite <- (He2 k1 Hlt).
    + rewrite Nat.min_id. by eapply lt_trans.
    + rewrite Nat.min_r by lia. by rewrite (He1 k2 Hlt).
Qed.

End StrictOrder.

(** X8.  [isGreaterVersion] is a strict order on all strings, well formed or
    not: no version is greater than itself, two versions are never each
    greater than the other, and greater than is transitive.  So the gate of
    [validateVersion] cannot be passed in a circle. *)
Theorem isGreaterVersion_strict_order (a b c : string) :
  isGreaterVersion a a = false
  ∧ (isGreaterVersion a b = true → isGreaterVersion b a = false)
  ∧ (isGreaterVersion a b = true → isGreaterVersion b c = true →
     isGreaterVersion a c = true).
Proof.
  split; [apply isGreaterVersion_irrefl|]. split.
  - intros [k1 H1]%isGreaterVersion_greater_at.
    destruct (isGreaterVersion b a) eqn:Hba; [|done].
    apply isGreaterVersion_greater_at in Hba as [k2 H2].
    destruct (greater_at_asym _ _ _ _ H1 H2).
  - intros [k1 H1]%isGreaterVersion_greater_at
           [k2 H2]%isGreaterVersion_greater_at.
    apply isGreaterVersion_greater_at. exists (Nat.min k1 k2).
    by eapply greater_at_trans.
Qed.

Lemma isGreaterVersion_strict_order_witness :
  isGreaterVersion "v1-10" "v1-2-5" = true
  ∧ isGreaterVersion "v1-2-5" "v1-10" = false.
Proof.
  destruct (isGreaterVersion_strict_order "v1-10" "v1-2-5" "")
    as (_ & Hasym & _).
  assert (H : isGreaterVersion "v1-10" "v1-2-5" = true)
    by (vm_compute; reflexivity).
  split; [exact H | exact (Hasym H)].
Defined.

(** ** Spellings the comparison does not tell apart *)

Section Spellings.

Lemma isGreaterVersion_ext (a a' b : string) :
  (∀ i, at_or_zero (components a) i = at_or_zero (components a') i) →
  isGreaterVersion a b = isGreaterVersion a' b
  ∧ isGreaterVersion b a = isGreaterVersion b a'.
Proof.
  intros Hkey.
  assert (H1 : ∀ k, greater_at (components a) (components b) k
                    ↔ greater_at (components a') (components b) k).
  { intros k. unfold greater_at. rewrite Hkey.
    split; intros [He Hg]; (split; [|done]); intros j Hj;
      [rewrite <- Hkey|rewrite Hkey]; by apply He. }
  assert (H2 : ∀ k, greater_at (components b) (components a) k
                    ↔ greater_at (components b) (components a') k).
  { intros k. unfold greater_at. rewrite Hkey.
    split; intros [He Hg]; (split; [|done]); intros j Hj;
      [rewrite <- Hkey|rewrite Hkey]; by apply He. }
  split; apply eq_true_iff_eq; rewrite !isGreaterVersion_greater_at;
    split; intros [k Hk]; exists k; by first [apply H1|apply H2].
Qed.

Lemma replace_v_marker (a : string) :
  startsWith_v a = false → replace_v (String "v" a) = replace_v a.
Proof.
  destruct a as [|c a]; [done|].
  by destruct c as [[] [] [] [] [] [] [] []].
Qed.

Lemma is_sep_dots_to_dashes (c : ascii) :
  is_sep (if (c =? ".")%char then "-"%char else c) = is_sep c.
Proof.
  destruct (Ascii.eqb_spec c ".") as [->|Hne]; [done|done].
Qed.

Lemma split_dots_to_dashes (s : string) : split (dots_to_dashes s) = split s.
Proof.
  unfold split. induction s as [|c s IH]; [done|].
  cbn [dots_to_dashes split_by]. rewrite is_sep_dots_to_dashes, IH.
  destruct (is_sep c) eqn:Hc; [done|].
  destruct (Ascii.eqb_spec c ".") as [->|Hne]; [done|done].
Qed.

Lemma replace_v_dots_to_dashes (s : string) :
  replace_v (dots_to_dashes s) = dots_to_dashes (replace_v s).
Proof.
  destruct s as [|c s]; [done|].
  by destruct c as [[] [] [] [] [] [] [] []].
Qed.

Lemma split_append_zero (s : string) :
  split (s +:+ "-0") = split s ++ ["0"].
Proof.
  unfold split. induction s as [|c s IH]; [done|].
  change (String c s +:+ "-0") with (String c (s +:+ "-0")).
  cbn [split_by]. rewrite IH.
  destruct (is_sep c); [done|].
  pose proof (split_by_nonempty is_sep s) as Hne.
  by destruct (split_by is_sep s).
Qed.

Lemma replace_v_append (a r : string) :
  startsWith_v r = false → replace_v (a +:+ r) = replace_v a +:+ r.
Proof.
  intros Hr. destruct a as [|c a].
  - simpl. destruct r as [|c r]; [done|].
    by destruct c as [[] [] [] [] [] [] [] []].
  - change (String c a +:+ r) with (String c (a +:+ r)).
    by destruct c as [[] [] [] [] [] [] [] []].
Qed.

Lemma at_or_zero_snoc_zero (v : list JSNum) (i : nat) :
  at_or_zero (v ++ [Num 0]) i = at_or_zero v i.
Proof.
  unfold at_or_zero.
  destruct (Nat.lt_ge_cases i (length v)) as [Hlt|Hge].
  - by rewrite lookup_app_l.
  - rewrite (lookup_ge_None_2 v i Hge), lookup_app_r by done.
    by destruct (i - length v)%nat as [|[|?]].
Qed.

End Spellings.

(** X9.  The comparison reads the numbers only: a version spelt without
    the marker [v], or with [.] for [-], compares as the same version against
    every string, on either side. *)
Theorem comparison_ignores_marker_and_separator (a b : string) :
  (startsWith_v a = false →
   isGreaterVersion (String "v" a) b = isGreaterVersion a b
   ∧ isGreaterVersion b (String "v" a) = isGreaterVersion b a)
  ∧ isGreaterVersion (dots_to_dashes a) b = isGreaterVersion a b
  ∧ isGreaterVersion b (dots_to_dashes a) = isGreaterVersion b a.
Proof.
  split.
  - intros Hv. apply isGreaterVersion_ext. intros i.
    unfold components. by rewrite replace_v_marker.
  - apply isGreaterVersion_ext. intros i. unfold components.
    by rewrite replace_v_dots_to_dashes, split_dots_to_dashes.
Qed.

Lemma comparison_ignores_marker_and_separator_witness :
  isGreaterVersion "v1-2-0" "v1-1-9" = isGreaterVersion "1-2-0" "v1-1-9"
  ∧ isGreaterVersion "v1-1-9" "v1-2-0" = isGreaterVersion "v1-1-9" "1-2-0".
Proof.
  destruct (comparison_ignores_marker_and_separator "1-2-0" "v1-1-9")
    as [H _].
  apply H. reflexivity.
Defined.

(** X10.  A trailing zero component changes nothing: a version and the same
    version with [-0] appended compare alike against every string, on either
    side. *)
Theorem comparison_ignores_trailing_zero (a b : string) :
  isGreaterVersion (a +:+ "-0") b = isGreaterVersion a b
  ∧ isGreaterVersion b (a +:+ "-0") = isGreaterVersion b a.
Proof.
  apply isGreaterVersion_ext. intros i. unfold components.
  rewrite replace_v_append by done. rewrite split_append_zero, fmap_app.
  apply at_or_zero_snoc_zero.
Qed.

(** ** When the comparator of the sort throws *)

Section ComparatorThrows.

Lemma reduce_from_Normal {A B} (f : B → A → nat → completion B)
    (i : nat) (l : list A) (acc : B) :
  (∀ acc cur i, ∃ r, f acc cur i = Normal r) →
  ∃ r, reduce_from f i l acc = Normal r.
Proof.
  intros Hf. revert i acc. induction l as [|cur l IH]; intros i acc;
    [by eexists|].
  simpl. destruct (Hf acc cur i) as [r ->]. simpl. apply IH.
Qed.

Lemma semverSort_Normal (a b : Stage) (alias : string) :
  alias_of a = Some alias →
  (tags b = None ∨ ∃ alias', alias_of b = Some alias') →
  ∃ v, semverSort a b = Normal v.
Proof.
  unfold alias_of. intros Ha Hb. unfold semverSort.
  destruct (tags a) as [ta|]; [|done]. simpl in Ha. rewrite Ha.
  apply reduce_from_Normal. intros acc cur i.
  destruct (JS.truthy acc); [by eexists|].
  unfold semverSort_rhs. destruct Hb as [->|[alias' Hb]]; [by eexists|].
  destruct (tags b) as [tb|]; [|done]. simpl in Hb. rewrite Hb.
  by eexists.
Qed.

End ComparatorThrows.

(** X11.  The comparator of the sort throws exactly when its first stage
    has no [ALIAS] tag to read, or its second stage has a [tags] object
    without [ALIAS]; what it throws is a [TypeError].  A second stage with no
    [tags] object at all does not make it throw. *)
Theorem semverSort_throws_iff (a b : Stage) :
  ((∃ e, semverSort a b = Throw e)
   ↔ alias_of a = None ∨ (∃ tb, tags b = Some tb ∧ tb !! "ALIAS" = None))
  ∧ (∀ e, semverSort a b = Throw e → is_TypeError e).
Proof.
  split; [|apply semverSort_TypeError].
  split.
  - intros [e He].
    destruct (alias_of a) as [alias|] eqn:Ha; [|by left]. right.
    destruct (tags b) as [tb|] eqn:Hb.
    + destruct (tb !! "ALIAS") as [alias'|] eqn:Hb'; [|by exists tb].
      destruct (semverSort_Normal a b alias Ha) as [v Hv]; [|congruence].
      right. exists alias'. unfold alias_of. by rewrite Hb.
    + destruct (semverSort_Normal a b alias Ha) as [v Hv]; [by left|].
      congruence.
  - intros [Ha|(tb & Hb & Hb')].
    + unfold alias_of in Ha. unfold semverSort.
      destruct (tags a) as [ta|]; [|by eexists].
      simpl in Ha. rewrite Ha. by eexists.
    + destruct (semverSort_throws_without_ALIAS a b tb Hb') as [m Hm];
        [by right|]. by eexists.
Qed.

(** ** Cleanup when every version stage is tagged *)

Section SortTotal.
Context {A : Type} (comparefn : A → A → completion JSNum) (P : A → Prop).
Context (Hcmp : ∀ a b, P a → P b → ∃ v, comparefn a b = Normal v).

Lemma sort_insert_total (pivot : A) (l : list A) :
  P pivot → Forall P l → ∃ r, sort_insert comparefn pivot l = Normal r.
Proof using Hcmp.
  intros Hp. induction l as [|x l IH]; intros Hl; [by eexists|].
  inversion_clear Hl as [|? ? Hx Hl']. simpl.
  destruct (Hcmp pivot x Hp Hx) as [v ->]. simpl.
  destruct (JS.lt v (Num 0)); [|by eexists].
  destruct (IH Hl') as [r ->]. by eexists.
Qed.

Lemma sort_from_total (acc rest : list A) :
  Forall P acc → Forall P rest → ∃ r, sort_from comparefn acc rest = Normal r.
Proof using Hcmp.
  revert acc. induction rest as [|x rest IH]; intros acc Hacc Hrest;
    [by eexists|].
  inversion_clear Hrest as [|? ? Hx Hrest']. simpl.
  destruct (sort_insert_total x acc Hx Hacc) as [s Hs]. rewrite Hs. simpl.
  apply IH; [|done]. apply sort_insert_Permutation in Hs. rewrite Hs.
  by constructor.
Qed.

Lemma sort_total (l : list A) :
  Forall P l → ∃ r, sort comparefn l = Normal r.
Proof using Hcmp. intros Hl. by apply sort_from_total. Qed.

End SortTotal.

(** X12.  When the SDK answers and every version stage of the answer has an
    [ALIAS] tag, whatever the tag says, the registry query resolves and the
    cleanup run completes: no tag value, however malformed, makes the
    comparator throw. *)
Theorem cleanup_completes_when_tagged {World : Type} (aws : Sdk World)
    (vm : VersionManager) (w w1 w2 : World) (svc restApiId : string)
    (stack : DescribeStacksOutput) (stages : Stages) (l : list Stage) :
  service vm = Some svc →
  describeStacks aws (svc +:+ "-" +:+ stage vm) w = (Resolved stack, w1) →
  restApiId_of stack = Normal restApiId →
  getStages aws restApiId w1 = (Resolved stages, w2) →
  item stages = Some l →
  Forall (λ st, is_version_stage st = true → ∃ alias, alias_of st = Some alias)
    l →
  (∃ sorted,
     completion_of (getStagesInOrder aws vm w) = Normal (Some sorted)
     ∧ sorted
       ≡ₚ List.filter (λ r, is_version_stage (target r)) (stage_objects l))
  ∧ completion_of (cleanupVersions aws vm w) = Normal VUndefined.
Proof.
  intros Hsvc Hd Hid Hg Hitem Htagged.
  destruct (sort_total (λ a b : StageRef, semverSort (target a) (target b))
              (λ r, ∃ alias, alias_of (target r) = Some alias))
    with (l := List.filter (λ r, is_version_stage (target r))
                 (stage_objects l)) as [sorted Hsort].
  { intros a b [aa Ha] [ab Hb].
    apply (semverSort_Normal (target a) (target b) aa Ha). right. eauto. }
  { apply filter_Forall.
    by apply (stage_objects_Forall
      (λ st, is_version_stage st = true → ∃ alias, alias_of st = Some alias)). }
  assert (Hq : getStagesInOrder aws vm w
               = (Normal (Some sorted), w2,
                  [call_describeStacks (svc +:+ "-" +:+ stage vm);
                   call_getStages restApiId])).
  { unfold getStagesInOrder. rewrite Hsvc.
    unfold mbind, M_bind, await, lift.
    rewrite Hd, Hid, Hg, Hitem. cbn. by rewrite Hsort. }
  split.
  - exists sorted. rewrite Hq. split; [done|].
    by apply sort_Permutation in Hsort.
  - destruct (cleanupVersions_unfold aws vm w _ _ sorted Hq)
      as (svc' & _ & Hrun).
    rewrite Hrun. by destruct (for_of _ _ w2) as [[c w3] tr3].
Qed.

Lemma cleanup_completes_when_tagged_witness :
  completion_of (cleanupVersions Scenario.sdk (Scenario.plugin 1 None)
    (Scenario.cloud [Scenario.tagged "v-beta"; Scenario.tagged "v1-0-0"] []))
  = Normal VUndefined.
Proof.
  set (l := [Scenario.tagged "v-beta"; Scenario.tagged "v1-0-0"]).
  destruct (cleanup_completes_when_tagged Scenario.sdk
    (Scenario.plugin 1 None) (Scenario.cloud l []) (Scenario.cloud l [])
    (Scenario.cloud l []) "svc" "api"
    {| Stacks := Some [ {| Outputs := Some [
         {| OutputKey := Some "ApiGatewayRestApi";
            OutputValue := Some "api" |} ] |} ] |}
    {| item := Some l |} l) as [_ H];
    [reflexivity | reflexivity | reflexivity | reflexivity | reflexivity | |].
  - repeat constructor; intros _; eexists; vm_compute; reflexivity.
  - exact H.
Defined.

(** ** The errors of a validation *)

Definition retainPolicy_message : string :=
  "retainPolicy must be configured in custom.versionManager.retainPolicy".

Lemma validateVersion_throws {World : Type} (aws : Sdk World)
    (vm : VersionManager) (w : World) (e : exn) :
  completion_of (validateVersion aws vm w) = Throw e →
  (e = Error retainPolicy_message
   ∧ truthy_string (or_string (env_retainPolicy (env vm)) "") = false)
  ∨ e = Error "apiVersion must be provided"
  ∨ e = Error format_message
  ∨ e = Error "Service is not defined"
  ∨ e = Error "Rest API ID could not be found"
  ∨ (∃ m, e = AWSError m)
  ∨ is_TypeError e
  ∨ (∃ candidate alias,
       env_apiVersion (env vm) = Some candidate
       ∧ isGreaterVersion candidate alias = false
       ∧ e = Error (not_greater_message candidate alias)).
Proof.
  destruct (env_retainPolicy (env vm)) as [rp|] eqn:Hrp.
  2:{ unfold validateVersion. rewrite Hrp. intros [= <-]. by left. }
  destruct (decide (rp = "")) as [->|Hne].
  { unfold validateVersion. rewrite Hrp. intros [= <-]. by left. }
  destruct (env_apiVersion (env vm)) as [c|] eqn:Hc.
  2:{ unfold validateVersion. rewrite Hrp, Hc. destruct rp; [done|].
      intros [= <-]. right. by left. }
  destruct (format_violation c) eqn:Hfmt.
  { rewrite (validateVersion_format_error aws vm w rp c) by done.
    intros [= <-]. do 2 right. by left. }
  rewrite (validateVersion_unfold aws vm w rp c) by done.
  pose proof (getStagesInOrder_throws aws vm w) as Hthrow.
  destruct (getStagesInOrder aws vm w) as [[[ordered|e'] w1] tr1].
  - cbn zeta.
    destruct ((ordered ≫= last) ≫= (λ st, tags (target st))) as [lastTags|];
      [|done].
    destruct (lastTags !! "ALIAS") as [alias|].
    + destruct (isGreaterVersion c alias) eqn:Hgt; [done|].
      intros [= <-]. do 7 right. by exists c, alias.
    + intros [= <-]. do 6 right. left. by eexists.
  - simpl in *. intros [= <-].
    destruct (Hthrow _ eq_refl) as [->|[->|[[m ->]|Ht]]].
    + do 3 right. by left.
    + do 4 right. by left.
    + do 5 right. left. by exists m.
    + do 6 right. by left.
Qed.

(** X13.  Every error [validateVersion] throws is one of eight: the two of
    the configuration, the one of the format, the two of the registry query,
    a rejection of the SDK, a [TypeError] of the engine, or the error of the
    version gate for the candidate and some tag. *)
Theorem validateVersion_errors {World : Type} (aws : Sdk World)
    (vm : VersionManager) (w : World) (e : exn) :
  completion_of (validateVersion aws vm w) = Throw e →
  e = Error "retainPolicy must be configured in custom.versionManager.retainPolicy"
  ∨ e = Error "apiVersion must be provided"
  ∨ e = Error format_message
  ∨ e = Error "Service is not defined"
  ∨ e = Error "Rest API ID could not be found"
  ∨ (∃ m, e = AWSError m)
  ∨ is_TypeError e
  ∨ (∃ candidate alias,
       env_apiVersion (env vm) = Some candidate
       ∧ isGreaterVersion candidate alias = false
       ∧ e = Error (not_greater_message candidate alias)).
Proof.
  intros H. destruct (validateVersion_throws aws vm w e H) as [[-> _]|H'];
    [by left|by right].
Qed.

Lemma validateVersion_errors_witness :
  ∃ candidate alias,
    env_apiVersion (env (Scenario.plugin 1 (Some "v1-0-0"))) = Some candidate
    ∧ isGreaterVersion candidate alias = false
    ∧ Error (not_greater_message "v1-0-0" "v1-0-0")
      = Error (not_greater_message candidate alias).
Proof.
  destruct (validateVersion_errors Scenario.sdk
    (Scenario.plugin 1 (Some "v1-0-0"))
    (Scenario.cloud [Scenario.tagged "v1-0-0"] [])
    (Error (not_greater_message "v1-0-0" "v1-0-0")))
    as [H|[H|[H|[H|[H|[[m H]|[[m H]|H]]]]]]];
    [vm_compute; reflexivity | try discriminate H ..].
  exact H.
Defined.

(** ** The constructor *)

Lemma parseInt10_leading_integer (d r : string) :
  Token.is_int d = true → no_digit_ahead r →
  parseInt10 (d +:+ r) = round_double (Token.int_of d).
Proof.
  intros Hd Hr. apply is_int_nonempty in Hd as [Hall Hne].
  pose proof (span_digits_append d r Hall Hr) as Hspan.
  pose proof (digits_value_decimal d 0 Hall) as Hval.
  destruct d as [|c d']; [done|].
  pose proof Hall as Hall'. simpl in Hall'.
  apply andb_prop in Hall' as [Hc _].
  change (String c d' +:+ r) with (String c (d' +:+ r)) in *.
  unfold parseInt10.
  assert (Ht : trim_start (String c (d' +:+ r)) = String c (d' +:+ r)).
  { simpl. by rewrite (decimal_not_ws c Hc). }
  rewrite Ht.
  assert (Hsign :
    match String c (d' +:+ r) with
    | String "-" r0 => (true, r0)
    | String "+" r0 => (false, r0)
    | _ => (false, String c (d' +:+ r))
    end = (false, String c (d' +:+ r))).
  { apply decimal_digit_cases in Hc.
    repeat (apply elem_of_cons in Hc as [Hc|Hc]; [by rewrite Hc|]).
    by apply elem_of_nil in Hc. }
  rewrite Hsign, Hspan. unfold digits1. rewrite Hval. f_equal; lia.
Qed.

Lemma constructor_Normal (sls : ServerlessService) (this : Instance) :
  constructor sls = Normal this →
  this_stack this ≠ ""
  ∧ (∃ rp, env_retainPolicy (this_env this) = Some rp ∧ rp ≠ "")
  ∧ (this_retainPolicy this = PInf
     ∨ ∃ z, this_retainPolicy this = Num z ∧ 0 < z).
Proof.
  unfold constructor.
  destruct (custom_versionManager sls ≫= custom_stack) as [[|c stk]|];
    [done| |done].
  destruct (custom_versionManager sls ≫= custom_retainPolicy)
    as [[|c' rp]|]; [done| |done].
  destruct (parseInt10 (String c' rp)) as [|z| |] eqn:Hp; simpl; try done.
  - destruct (0 <? z) eqn:Hz; simpl; [|done]. intros [= <-]. simpl.
    repeat split; [done|by eexists|]. right. exists z. split; [done|lia].
  - intros [= <-]. simpl. repeat split; [done|by eexists|by left].
Qed.

(** X14.  An instance the constructor returns has a non-empty stack name and
    a retention count above zero (or infinite, for a run of digits beyond the
    range of a double): never [NaN], zero or a negative number. *)
Theorem constructor_retention_positive (sls : ServerlessService)
    (this : Instance) :
  constructor sls = Normal this →
  this_stack this ≠ ""
  ∧ (this_retainPolicy this = PInf
     ∨ ∃ z, this_retainPolicy this = Num z ∧ 0 < z).
Proof.
  intros H. by destruct (constructor_Normal sls this H) as (? & _ & ?).
Qed.

Lemma constructor_retention_positive_witness :
  let this :=
    {| this_service := Some "svc"; this_stage := "dev"; this_stack := "api";
       this_env := {| env_retainPolicy := Some "3";
                      env_apiVersion := None |};
       this_retainPolicy := Num 3 |} in
  this_stack this ≠ ""
  ∧ (this_retainPolicy this = PInf
     ∨ ∃ z, this_retainPolicy this = Num z ∧ 0 < z).
Proof.
  apply (constructor_retention_positive
    {| service_service := Some "svc"; provider_stage := None;
       custom_versionManager :=
         Some {| custom_stack := Some "api";
                 custom_retainPolicy := Some "3";
                 custom_apiVersion := None |} |}).
  vm_compute. reflexivity.
Defined.

(** X15.  On an instance the constructor returned, the validation hook never
    fails with the error of a missing [retainPolicy], and the count the
    cleanup uses is positive: the check of line 172 cannot fire after
    construction. *)
Theorem constructed_instance_has_retainPolicy {World : Type}
    (aws : Sdk World) (sls : ServerlessService) (this : Instance)
    (vm : VersionManager) (w : World) :
  constructor sls = Normal this →
  as_VersionManager this = Some vm →
  0 < retainPolicy vm
  ∧ completion_of (validateVersion aws vm w)
    ≠ Throw (Error "retainPolicy must be configured in custom.versionManager.retainPolicy").
Proof.
  intros Hctor Hvm.
  destruct (constructor_Normal sls this Hctor)
    as (_ & (rp & Hrp & Hne) & Hpos).
  unfold as_VersionManager in Hvm.
  destruct (this_retainPolicy this) as [|z| |] eqn:Hz; try done.
  injection Hvm as <-. simpl. split.
  - destruct Hpos as [?|(z' & [= <-] & ?)]; done.
  - intros Hthrow.
    apply validateVersion_throws in Hthrow
      as [[_ Hfalsy]|[H|[H|[H|[H|[[m H]|[[m H]|(c & a & _ & _ & H)]]]]]]];
      try discriminate H.
    simpl in Hfalsy. rewrite Hrp in Hfalsy. by destruct rp.
Qed.

Lemma constructed_instance_has_retainPolicy_witness :
  0 < 3
  ∧ completion_of (validateVersion Scenario.sdk
      {| service := Some "svc"; stage := "dev";
         env := {| env_retainPolicy := Some "3 versions";
                   env_apiVersion := Some "v1-0-0" |};
         retainPolicy := 3 |}
      (Scenario.cloud [] []))
    ≠ Throw (Error "retainPolicy must be configured in custom.versionManager.retainPolicy").
Proof.
  apply (constructed_instance_has_retainPolicy Scenario.sdk
    {| service_service := Some "svc"; provider_stage := None;
       custom_versionManager :=
         Some {| custom_stack := Some "api";
                 custom_retainPolicy := Some "3 versions";
                 custom_apiVersion := Some "v1-0-0" |} |}
    {| this_service := Some "svc"; this_stage := "dev"; this_stack := "api";
       this_env := {| env_retainPolicy := Some "3 versions";
                      env_apiVersion := Some "v1-0-0" |};
       this_retainPolicy := Num 3 |}
    {| service := Some "svc"; stage := "dev";
       env := {| env_retainPolicy := Some "3 versions";
                 env_apiVersion := Some "v1-0-0" |};
       retainPolicy := 3 |}
    (Scenario.cloud [] []));
    vm_compute; reflexivity.
Defined.

(** X16.  The constructor reads the retention count as [parseInt] does: the
    leading run of digits counts and whatever follows it is ignored.  With a
    stack configured and a [retainPolicy] that starts with the digits of an
    integer up to [2^53 - 1], the instance is built with that integer when it
    is not zero, and the constructor throws when it is. *)
Theorem constructor_reads_leading_integer (sls : ServerlessService)
    (c : Custom) (stk d r : string) :
  custom_versionManager sls = Some c →
  custom_stack c = Some stk → stk ≠ "" →
  custom_retainPolicy c = Some (d +:+ r) →
  Token.is_int d = true → no_digit_ahead r → Token.int_of d ≤ MAX_SAFE_INTEGER →
  constructor sls =
  if Token.int_of d =? 0
  then Throw (Error "retainPolicy must be a positive number")
  else Normal {| this_service := service_service sls;
                 this_stage := or_string (provider_stage sls) "dev";
                 this_stack := stk;
                 this_env := {| env_retainPolicy := Some (d +:+ r);
                                env_apiVersion := custom_apiVersion c |};
                 this_retainPolicy := Num (Token.int_of d) |}.
Proof.
  intros Hc Hstk Hne Hrp Hd Hr Hmax.
  pose proof (parseInt10_leading_integer d r Hd Hr) as Hparse.
  pose proof Hd as Hd'. apply is_int_nonempty in Hd' as [Hall Hdne].
  pose proof (int_of_nonneg d Hall) as Hnn.
  rewrite round_double_safe in Hparse by lia.
  remember (Token.int_of d) as n eqn:Hn. clear Hn.
  unfold constructor. rewrite Hc. simpl. rewrite Hstk, Hrp.
  destruct stk as [|a stk]; [done|].
  destruct d as [|a' d']; [done|].
  change (String a' d' +:+ r) with (String a' (d' +:+ r)) in *.
  rewrite Hparse. simpl.
  destruct (n =? 0) eqn:Hz.
  - apply Z.eqb_eq in Hz. rewrite Hz. reflexivity.
  - apply Z.eqb_neq in Hz.
    assert (H0 : (0 <? n) = true) by (apply Z.ltb_lt; lia).
    rewrite H0. reflexivity.
Qed.

Lemma constructor_reads_leading_integer_witness :
  constructor
    {| service_service := Some "svc"; provider_stage := None;
       custom_versionManager :=
         Some {| custom_stack := Some "api";
                 custom_retainPolicy := Some "2.9";
                 custom_apiVersion := None |} |}
  = Normal {| this_service := Some "svc"; this_stage := "dev";
              this_stack := "api";
              this_env := {| env_retainPolicy := Some "2.9";
                             env_apiVersion := None |};
              this_retainPolicy := Num 2 |}.
Proof.
  apply (constructor_reads_leading_integer
    {| service_service := Some "svc"; provider_stage := None;
       custom_versionManager :=
         Some {| custom_stack := Some "api";
                 custom_retainPolicy := Some "2.9";
                 custom_apiVersion := None |} |}
    {| custom_stack := Some "api"; custom_retainPolicy := Some "2.9";
       custom_apiVersion := None |}
    "api" "2" ".9");
    [reflexivity | reflexivity | discriminate | reflexivity | reflexivity
    | reflexivity | vm_compute; discriminate].
Defined.

(** ** [getNextVersion] *)

Lemma last_char_None (s : string) : last_char s = None → s = "".
Proof.
  induction s as [|c s IH]; [done|]. simpl.
  destruct s; [done|]. intros H. by specialize (IH H).
Qed.

(** X17.  [getNextVersion] without a configured [apiVersion], on a string as
    its parameter is declared: the result is ["1.0.0"] for the empty string
    and is otherwise built from the last character alone, ending in
    [.NaN]; in no case is it a version of the format [validateVersion]
    demands. *)
Theorem getNextVersion_without_apiVersion (vm : VersionManager)
    (currentVersions : string) :
  env_apiVersion (env vm) = None ∨ env_apiVersion (env vm) = Some "" →
  versionRegex_test (getNextVersion vm currentVersions) = false
  ∧ (currentVersions = "" → getNextVersion vm currentVersions = "1.0.0")
  ∧ (currentVersions ≠ "" →
     ∃ c, last_char currentVersions = Some c
          ∧ getNextVersion vm currentVersions
            = if (c =? ".")%char then "0.0.NaN"
              else ToString (Number (String c "")) +:+ ".undefined.NaN").
Proof.
  intros Hapi.
  assert (Hnext : getNextVersion vm currentVersions =
    match last_char currentVersions with
    | None => "1.0.0"
    | Some c =>
        if (c =? ".")%char then "0.0.NaN"
        else ToString (Number (String c "")) +:+ ".undefined.NaN"
    end).
  { unfold getNextVersion.
    assert (Hm : ∀ x : string,
      match env_apiVersion (env vm) with
      | Some (String c v) => String c v
      | _ => x
      end = x).
    { intros x. by destruct Hapi as [-> | ->]. }
    rewrite Hm. destruct (last_char currentVersions) as [c|]; [|done].
    simpl. by destruct (c =? ".")%char. }
  rewrite Hnext. repeat split.
  - destruct (last_char currentVersions) as [c|]; [|done].
    destruct c as [[] [] [] [] [] [] [] []]; vm_compute; reflexivity.
  - by intros ->.
  - intros Hne. destruct (last_char currentVersions) as [c|] eqn:Hlast.
    + by exists c.
    + by apply last_char_None in Hlast.
Qed.

Lemma getNextVersion_without_apiVersion_witness :
  getNextVersion (Scenario.plugin 3 None) "1.2.3" = "3.undefined.NaN".
Proof.
  destruct (getNextVersion_without_apiVersion (Scenario.plugin 3 None)
    "1.2.3") as (_ & _ & H); [left; reflexivity|].
  destruct H as (c & Hc & H); [discriminate|].
  injection Hc as <-. exact H.
Defined.

(** ** What the format leaves of a candidate *)

Section ThreeNumbers.
Import Token.

Lemma split_by_dash_decimal (x r : string) :
  all_decimal x = true →
  split_by is_dash (x +:+ String "-" r) = x :: split_by is_dash r.
Proof.
  induction x as [|c x IH]; [done|]. simpl.
  intros [Hc Hx]%andb_prop.
  change (String c x +:+ String "-" r) with (String c (x +:+ String "-" r)).
  simpl. destruct (decimal_not_sep c Hc) as [_ ->]. by rewrite (IH Hx).
Qed.

Lemma split_by_dash_last (z : string) :
  all_decimal z = true → split_by is_dash z = [z].
Proof.
  induction z as [|c z IH]; [done|]. simpl.
  intros [Hc Hz]%andb_prop.
  destruct (decimal_not_sep c Hc) as [_ ->]. by rewrite (IH Hz).
Qed.

Lemma three_components_parse (s x y z : string) :
  is_int x = true → is_int y = true → is_int z = true →
  s = "v" +:+ x +:+ "-" +:+ y +:+ "-" +:+ z →
  parse s = Some [int_of x; int_of y; int_of z].
Proof.
  intros Hx Hy Hz ->.
  change ("v" +:+ x +:+ "-" +:+ y +:+ "-" +:+ z)
    with (String "v" (x +:+ String "-" (y +:+ String "-" z))).
  pose proof Hx as [Hx' _]%is_int_nonempty.
  pose proof Hy as [Hy' _]%is_int_nonempty.
  pose proof Hz as [Hz' _]%is_int_nonempty.
  unfold parse.
  rewrite (split_by_dash_decimal x _ Hx'), (split_by_dash_decimal y _ Hy'),
    (split_by_dash_last z Hz').
  simpl. by rewrite Hx, Hy, Hz.
Qed.

End ThreeNumbers.

(** X18.  A candidate that passes the format test of line 183 is read by the
    comparison as exactly three numbers, the doubles nearest to the integers
    its three runs of digits denote: no component is [NaN] and none is
    missing. *)
Theorem format_gives_three_numbers (s : string) :
  versionRegex_test s = true →
  ∃ x y z,
    s = "v" +:+ x +:+ "-" +:+ y +:+ "-" +:+ z
    ∧ Token.is_int x = true ∧ Token.is_int y = true ∧ Token.is_int z = true
    ∧ components s
      = [round_double (Token.int_of x); round_double (Token.int_of y);
         round_double (Token.int_of z)]
    ∧ Forall (λ n, n ≠ NaN) (components s).
Proof.
  intros Hs. apply versionRegex_three_components in Hs
    as (x & y & z & Hx & Hy & Hz & Hs).
  exists x, y, z. repeat split; try done.
  - by rewrite (components_parse s _ (three_components_parse s x y z Hx Hy Hz Hs)).
  - rewrite (components_parse s _ (three_components_parse s x y z Hx Hy Hz Hs)).
    simpl. repeat constructor; unfold round_double;
      repeat case_match; done.
Qed.

Lemma format_gives_three_numbers_witness :
  ∃ x y z,
    "v2-10-0" = "v" +:+ x +:+ "-" +:+ y +:+ "-" +:+ z
    ∧ Token.is_int x = true ∧ Token.is_int y = true ∧ Token.is_int z = true
    ∧ components "v2-10-0"
      = [round_double (Token.int_of x); round_double (Token.int_of y);
         round_double (Token.int_of z)]
    ∧ Forall (λ n, n ≠ NaN) (components "v2-10-0").
Proof. apply (format_gives_three_numbers "v2-10-0"). reflexivity. Defined.

(** ** The teardown calls of a whole run *)

(** A cleanup run either got the ordered stages and went through the loop
    over those to delete, or it threw with the trace of the registry query,
    in the world the query left. *)
Lemma cleanupVersions_cases {World : Type} (aws : Sdk World)
    (vm : VersionManager) (w : World) :
  (∃ svc ordered w1 tr1,
     service vm = Some svc
     ∧ getStagesInOrder aws vm w = (Normal (Some ordered), w1, tr1)
     ∧ completion_of (cleanupVersions aws vm w) = Normal VUndefined
     ∧ world_of (cleanupVersions aws vm w)
       = world_of (for_of (retire_stage aws vm svc)
                     (stagesToDelete vm ordered) w1)
     ∧ trace_of (cleanupVersions aws vm w)
       = tr1 ++ trace_of (for_of (retire_stage aws vm svc)
                            (stagesToDelete vm ordered) w1))
  ∨ ((∃ e, completion_of (cleanupVersions aws vm w) = Throw e)
     ∧ world_of (cleanupVersions aws vm w)
       = world_of (getStagesInOrder aws vm w)
     ∧ registry_trace (trace_of (cleanupVersions aws vm w))).
Proof.
  destruct (service vm) as [svc|] eqn:Hsvc.
  2:{ right. unfold cleanupVersions, getStagesInOrder. rewrite Hsvc. simpl.
      split; [by eexists|]. split; [done|by left]. }
  pose proof (getStagesInOrder_registry_trace aws vm w) as Hreg.
  destruct (getStagesInOrder aws vm w) as [[[[ordered|]|e] w1] tr1] eqn:Hq;
    simpl in Hreg.
  - left. destruct (cleanupVersions_unfold aws vm w w1 tr1 ordered Hq)
      as (svc' & Hsvc' & Hrun).
    rewrite Hsvc in Hsvc'. injection Hsvc' as <-.
    exists svc, ordered, w1, tr1. rewrite Hrun.
    by destruct (for_of _ _ w1) as [[c w2] tr2].
  - right.
    assert (Hrun : cleanupVersions aws vm w
                   = (Throw (Error "Stages could not be determined"), w1,
                      tr1 ++ [])).
    { unfold cleanupVersions. rewrite Hsvc.
      unfold mbind at 1. unfold M_bind at 1. by rewrite Hq. }
    rewrite Hrun. simpl. rewrite app_nil_r. split; [by eexists|done].
  - right.
    assert (Hrun : cleanupVersions aws vm w = (Throw e, w1, tr1)).
    { unfold cleanupVersions. rewrite Hsvc.
      unfold mbind at 1. unfold M_bind at 1. by rewrite Hq. }
    rewrite Hrun. simpl. split; [by eexists|done].
Qed.

Lemma retire_loop_teardowns {World : Type} (aws : Sdk World)
    (vm : VersionManager) (service : string) (l : list StageRef) (w : World) :
  teardowns aws w
    (List.filter is_teardown_call
       (trace_of (for_of (retire_stage aws vm service) l w)))
    (world_of (for_of (retire_stage aws vm service) l w)).
Proof.
  revert w. induction l as [|st l IH]; intros w; [constructor|].
  rewrite for_of_cons.
  pose proof (retire_stage_unfold aws vm service st w) as Hst.
  destruct (retire_stage aws vm service st w) as [[c w1] tr1].
  specialize (IH w1).
  destruct (for_of _ l w1) as [[c2 w2] tr2]. simpl in IH.
  destruct (stageName (target st)); [|by simplify_eq].
  destruct (tags (target st) ≫= (.!! "ALIAS")); [|by simplify_eq].
  cbn zeta in Hst.
  destruct (deleteStack aws _ w) as [[[]|m] w'] eqn:Hd.
  - destruct (waitFor_stackDeleteComplete aws _ w') as [[[]|m] w''] eqn:Hw;
      simplify_eq; simpl; eapply teardowns_complete; eauto.
  - simplify_eq. simpl. eapply teardowns_rejected; eauto.
Qed.

(** X19.  In a whole cleanup run the teardown calls come one stack at a
    time, each decided by what the SDK answered to the one before: starting
    in the world the registry query left, a [deleteStack] that the SDK
    resolves is followed by the [waitFor] of the same stack, a [deleteStack]
    that the SDK rejects is followed by no [waitFor], and the next
    [deleteStack] is issued only after that, in the world these calls left;
    the run ends in the world the last of them left. *)
Theorem cleanup_teardowns_sequential {World : Type} (aws : Sdk World)
    (vm : VersionManager) (w : World) :
  teardowns aws (world_of (getStagesInOrder aws vm w))
    (List.filter is_teardown_call (trace_of (cleanupVersions aws vm w)))
    (world_of (cleanupVersions aws vm w)).
Proof.
  destruct (cleanupVersions_cases aws vm w)
    as [(svc & ordered & w1 & tr1 & _ & Hq & _ & Hw & Htr)|(_ & Hw & Hreg)].
  - rewrite Htr, Hw, List.filter_app.
    pose proof (getStagesInOrder_registry_trace aws vm w) as Hreg.
    rewrite Hq in Hreg. simpl in Hreg.
    assert (H1 : List.filter is_teardown_call tr1 = [])
      by (destruct Hreg as [Ht|[[n Ht]|(n & id & Ht)]]; by rewrite Ht).
    rewrite H1, Hq. simpl. apply retire_loop_teardowns.
  - assert (H1 : List.filter is_teardown_call
                   (trace_of (cleanupVersions aws vm w)) = [])
      by (destruct Hreg as [Ht|[[n Ht]|(n & id & Ht)]]; by rewrite Ht).
    rewrite H1, Hw. constructor.
Qed.

(** ** Which stages the loop can skip *)

Section Compared.
Context {A : Type} (comparefn : A → A → completion JSNum).

(** [x] took part in a call of the comparator that returned. *)
Definition compared (x : A) : Prop :=
  ∃ y, (∃ v, comparefn x y = Normal v) ∨ (∃ v, comparefn y x = Normal v).

Lemma sort_insert_compared (pivot element : A) (rest s : list A) :
  sort_insert comparefn pivot (element :: rest) = Normal s →
  compared pivot ∧ compared element.
Proof.
  simpl. destruct (comparefn pivot element) as [v|] eqn:Hv; [|done].
  intros _. split; [exists element; left|exists pivot; right]; eauto.
Qed.

Lemma sort_from_compared (acc rest r : list A) :
  sort_from comparefn acc rest = Normal r →
  Forall compared acc ∨ (length acc ≤ 1)%nat →
  Forall compared r ∨ (length r ≤ 1)%nat.
Proof.
  revert acc r. induction rest as [|pivot rest IH]; intros acc r; simpl.
  - intros [= <-] [Hacc|Hlen].
    + left. by apply Forall_rev.
    + right. by rewrite length_rev.
  - destruct (sort_insert comparefn pivot acc) as [s|] eqn:Hs; [|done].
    simpl. intros Hr Hacc. apply (IH s r Hr).
    destruct acc as [|element acc']; [right; by injection Hs as <-|].
    left. destruct (sort_insert_compared _ _ _ _ Hs) as [Hp He].
    apply sort_insert_Permutation in Hs. rewrite Hs.
    constructor; [done|].
    destruct Hacc as [Hacc|Hlen]; [done|].
    destruct acc'; [by constructor|simpl in Hlen; lia].
Qed.

Lemma sort_compared (l r : list A) :
  sort comparefn l = Normal r → (2 ≤ length r)%nat → Forall compared r.
Proof.
  intros Hsort Hlen.
  destruct (sort_from_compared [] l r Hsort) as [H|H];
    [by left|done|lia].
Qed.

End Compared.

Lemma semverSort_compared (l : list StageRef) (st : StageRef)
    (t : gmap string string) :
  compared (λ a b : StageRef, semverSort (target a) (target b)) st →
  tags (target st) = Some t → is_Some (t !! "ALIAS").
Proof.
  intros (y & Hy) Ht.
  destruct (t !! "ALIAS") as [alias|] eqn:Halias; [by eexists|].
  exfalso. destruct Hy as [[v Hv]|[v Hv]].
  - destruct (semverSort_throws_without_ALIAS (target st) (target y) t Halias)
      as [m Hm]; [by left|congruence].
  - destruct (semverSort_throws_without_ALIAS (target y) (target st) t Halias)
      as [m Hm]; [by right|congruence].
Qed.

Lemma getStagesInOrder_sort {World : Type} (aws : Sdk World)
    (vm : VersionManager) (w : World) (ordered : list StageRef) :
  completion_of (getStagesInOrder aws vm w) = Normal (Some ordered) →
  ∃ l, sort (λ a b : StageRef, semverSort (target a) (target b)) l
       = Normal ordered.
Proof.
  intros Hq.
  unfold getStagesInOrder in Hq. destruct (service vm) as [svc|]; [|done].
  unfold mbind, M_bind, await, lift in Hq.
  destruct (describeStacks aws _ w) as [[stack|m] w1] eqn:Hd; [|done].
  destruct (restApiId_of stack) as [restApiId|e] eqn:Hid; [|done].
  destruct (getStages aws restApiId w1) as [[stages|m] w2] eqn:Hg; [|done].
  destruct (item stages) as [l|] eqn:Hitem; [|done]. cbn in Hq.
  destruct (sort _ _) as [sorted|e] eqn:Hsort; [|done]. simpl in Hq.
  injection Hq as <-. eauto.
Qed.

(** X20.  With a positive retention count, a stage of the ones to delete
    that has a [tags] object has an [ALIAS] in it: a stage whose tags lack
    [ALIAS] never reaches the loop, the sort having thrown on it or, when it
    is the only version stage, the retention keeping it.  So the loop skips
    only stages that have no [tags] object at all. *)
Theorem skipped_stage_has_no_tags {World : Type} (aws : Sdk World)
    (vm : VersionManager) (w : World) (svc : string)
    (ordered : list StageRef) :
  0 < retainPolicy vm →
  completion_of (getStagesInOrder aws vm w) = Normal (Some ordered) →
  ∀ st, st ∈ stagesToDelete vm ordered →
    (∀ t, tags (target st) = Some t → is_Some (t !! "ALIAS"))
    ∧ (teardown_name vm svc st = None → tags (target st) = None).
Proof.
  intros Hpos Hq st Hst.
  destruct (getStagesInOrder_answer aws vm w ordered Hq)
    as (Hnd & Hnamed & _).
  destruct (getStagesInOrder_sort aws vm w ordered Hq) as [l Hsort].
  rewrite (stagesToDelete_take vm Hpos ordered Hnd) in Hst.
  assert (Hlen : (2 ≤ length ordered)%nat).
  { destruct ordered as [|a [|b ordered']]; simpl; [| |lia].
    - by apply elem_of_nil in Hst.
    - unfold kept_count in Hst. simpl in Hst.
      replace (Nat.min (Z.to_nat (retainPolicy vm)) 1) with 1%nat in Hst
        by lia.
      by apply elem_of_nil in Hst. }
  assert (Hin : st ∈ ordered).
  { rewrite <- (take_drop (length ordered - kept_count vm (length ordered))
                  ordered).
    apply elem_of_app. by left. }
  pose proof (sort_compared _ l ordered Hsort Hlen) as Hall.
  rewrite Forall_forall in Hall.
  assert (Htag : ∀ t, tags (target st) = Some t → is_Some (t !! "ALIAS")).
  { intros t Ht. apply (semverSort_compared ordered st t); [|done].
    by apply Hall. }
  split; [done|].
  intros Hskip. destruct (Hnamed st Hin) as (n & Hn & _).
  unfold teardown_name in Hskip. rewrite Hn in Hskip.
  destruct (tags (target st)) as [t|] eqn:Ht; [|done].
  destruct (Htag t eq_refl) as [alias Halias].
  simpl in Hskip. by rewrite Halias in Hskip.
Qed.

Lemma skipped_stage_has_no_tags_witness :
  let st := {| ref := 0;
               target := {| stageName := Some "v0-9-0"; tags := None |} |} in
  let ordered := [st; {| ref := 1; target := Scenario.tagged "v1-0-0" |}] in
  st ∈ stagesToDelete (Scenario.plugin 1 None) ordered
  ∧ tags (target st) = None.
Proof.
  intros st ordered.
  assert (Hin : st ∈ stagesToDelete (Scenario.plugin 1 None) ordered)
    by (vm_compute; left).
  split; [exact Hin|].
  destruct (skipped_stage_has_no_tags Scenario.sdk (Scenario.plugin 1 None)
    (Scenario.cloud [ {| stageName := Some "v0-9-0"; tags := None |};
                      Scenario.tagged "v1-0-0" ] [])
    "svc" ordered) with (st := st) as [_ H];
    [reflexivity | vm_compute; reflexivity | exact Hin |].
  apply H. reflexivity.
Defined.

(** ** The order of the deletions, and the two comparators *)

(** X21.  When the SDK answers, the tags of the version stages are tokens
    of one length with exactly representable components, and the retention
    count is positive, the array of the registry query is in ascending order
    of the versions, every stage in it having such a token; the cleanup
    deletes a prefix of it, oldest first, and keeps the rest: no kept stage
    is older than a deleted one.  The run completes and the [deleteStack]
    calls are those of the prefix, in its order. *)
Theorem cleanup_deletes_oldest_first {World : Type} (aws : Sdk World)
    (vm : VersionManager) (w w1 w2 : World) (svc restApiId : string)
    (stack : DescribeStacksOutput) (stages : Stages) (l : list Stage)
    (n : nat) :
  service vm = Some svc →
  describeStacks aws (svc +:+ "-" +:+ stage vm) w = (Resolved stack, w1) →
  restApiId_of stack = Normal restApiId →
  getStages aws restApiId w1 = (Resolved stages, w2) →
  item stages = Some l →
  Forall (λ st, is_version_stage st = true → uniform n st) l →
  0 < retainPolicy vm →
  ∃ sorted,
    completion_of (getStagesInOrder aws vm w) = Normal (Some sorted)
    ∧ Forall (λ r, uniform n (target r)) sorted
    ∧ StronglySorted (λ x y, not_above (target x) (target y)) sorted
    ∧ StronglySorted (λ x y, not_above (target x) (target y))
        (stagesToDelete vm sorted)
    ∧ stagesToDelete vm sorted
      = take (length sorted - kept_count vm (length sorted)) sorted
    ∧ stagesToKeep vm sorted
      = drop (length sorted - kept_count vm (length sorted)) sorted
    ∧ (∀ d k, d ∈ stagesToDelete vm sorted → k ∈ stagesToKeep vm sorted →
         not_above (target d) (target k))
    ∧ completion_of (cleanupVersions aws vm w) = Normal VUndefined
    ∧ deleteStack_calls (trace_of (cleanupVersions aws vm w))
      = omap (teardown_name vm svc) (stagesToDelete vm sorted).
Proof.
  intros Hsvc Hd Hid Hg Hitem Huniform Hpos.
  assert (Hall : Forall (λ r, uniform n (target r))
            (List.filter (λ r, is_version_stage (target r)) (stage_objects l))).
  { apply filter_Forall.
    by apply (stage_objects_Forall
                (λ st, is_version_stage st = true → uniform n st)). }
  destruct (sort_stages_ascending n _ Hall) as (sorted & Hsort & Hsorted & Hperm).
  assert (Hq : getStagesInOrder aws vm w
               = (Normal (Some sorted), w2,
                  [call_describeStacks (svc +:+ "-" +:+ stage vm);
                   call_getStages restApiId])).
  { unfold getStagesInOrder. rewrite Hsvc.
    unfold mbind, M_bind, await, lift.
    rewrite Hd, Hid, Hg, Hitem. cbn. by rewrite Hsort. }
  exists sorted.
  assert (Hnd : NoDup (ref <$> sorted)).
  { apply (getStagesInOrder_NoDup aws vm w). by rewrite Hq. }
  pose proof (stagesToDelete_take vm Hpos sorted Hnd) as Htake.
  pose proof (stagesToKeep_drop vm Hpos sorted) as Hdrop.
  pose proof Hsorted as Hsplit.
  rewrite <- (take_drop (length sorted - kept_count vm (length sorted))
                sorted) in Hsplit.
  split; [by rewrite Hq|]. split; [by rewrite Hperm|]. split; [done|].
  split; [rewrite Htake; by apply StronglySorted_app_1_l in Hsplit|].
  split; [done|]. split; [done|]. split.
  - intros d k. rewrite Htake, Hdrop. intros Hin_d Hin_k.
    by apply (StronglySorted_app_1_elem_of _ _ _ d k Hsplit).
  - destruct (cleanupVersions_unfold aws vm w _ _ sorted Hq)
      as (svc' & Hsvc' & Hrun).
    rewrite Hsvc in Hsvc'. injection Hsvc' as <-.
    rewrite Hrun.
    destruct (retire_loop_spec aws vm svc (stagesToDelete vm sorted) w2)
      as [_ Hcalls].
    destruct (for_of _ _ w2) as [[c w3] tr3]. simpl in *.
    split; [done|]. exact Hcalls.
Qed.

Lemma cleanup_deletes_oldest_first_witness :
  let vm := Scenario.plugin 1 None in
  let w := Scenario.cloud [Scenario.tagged "v1-2-0"; Scenario.tagged "v1-0-0";
                           Scenario.tagged "v1-1-0"] [] in
  ∃ sorted,
    completion_of (getStagesInOrder Scenario.sdk vm w) = Normal (Some sorted)
    ∧ Forall (λ r, uniform 3 (target r)) sorted
    ∧ StronglySorted (λ x y, not_above (target x) (target y)) sorted
    ∧ StronglySorted (λ x y, not_above (target x) (target y))
        (stagesToDelete vm sorted)
    ∧ stagesToDelete vm sorted
      = take (length sorted - kept_count vm (length sorted)) sorted
    ∧ stagesToKeep vm sorted
      = drop (length sorted - kept_count vm (length sorted)) sorted
    ∧ (∀ d k, d ∈ stagesToDelete vm sorted → k ∈ stagesToKeep vm sorted →
         not_above (target d) (target k))
    ∧ completion_of (cleanupVersions Scenario.sdk vm w) = Normal VUndefined
    ∧ deleteStack_calls (trace_of (cleanupVersions Scenario.sdk vm w))
      = omap (teardown_name vm "svc") (stagesToDelete vm sorted).
Proof.
  intros vm w.
  apply (cleanup_deletes_oldest_first Scenario.sdk vm w w w "svc" "api"
    {| Stacks := Some [ {| Outputs := Some [
         {| OutputKey := Some "ApiGatewayRestApi";
            OutputValue := Some "api" |} ] |} ] |}
    {| item := Some (Scenario.stages w) |} (Scenario.stages w) 3);
    [reflexivity | reflexivity | reflexivity | reflexivity | reflexivity
    | | reflexivity].
  repeat constructor; intros _; eexists; (split; [vm_compute; reflexivity|]);
    (split; [reflexivity|]); repeat constructor; vm_compute; discriminate.
Defined.

(** X22.  On tokens of the shape [v<int>(-<int>)*] with exactly
    representable components the two comparators of the code agree on
    "greater": the comparator of the sort returns, and its answer is positive
    exactly when [isGreaterVersion] holds. *)
Theorem comparators_agree_on_greater (sa sb : string) (ta tb : list Z) :
  Token.parse sa = Some ta → Token.parse sb = Some tb →
  Forall (λ z, z ≤ MAX_SAFE_INTEGER) ta →
  Forall (λ z, z ≤ MAX_SAFE_INTEGER) tb →
  ∃ v, semverSort (Scenario.tagged sa) (Scenario.tagged sb) = Normal v
       ∧ JS.gt v (Num 0) = isGreaterVersion sa sb.
Proof. apply isGreaterVersion_semverSort. Qed.

Lemma comparators_agree_on_greater_witness :
  ∃ v, semverSort (Scenario.tagged "v2-10-0") (Scenario.tagged "v2-9-9")
       = Normal v
       ∧ JS.gt v (Num 0) = isGreaterVersion "v2-10-0" "v2-9-9".
Proof.
  apply (comparators_agree_on_greater "v2-10-0" "v2-9-9" [2; 10; 0] [2; 9; 9]);
    [reflexivity | reflexivity | |];
    repeat constructor; vm_compute; discriminate.
Defined.

(** X23.  One turn of the loop on a stage whose name or [ALIAS] tag cannot
    be read completes without any call of the SDK, leaves the world as it
    was and logs the skip once. *)
Theorem unreadable_stage_costs_no_call {World : Type} (aws : Sdk World)
    (vm : VersionManager) (service : string) (st : StageRef) (w : World) :
  teardown_name vm service st = None →
  let r := retire_stage aws vm service st w in
  completion_of r = Normal ()
  ∧ world_of r = w
  ∧ sdk_calls (trace_of r) = []
  ∧ count is_skip (trace_of r) = 1%nat.
Proof. apply retire_stage_skips. Qed.

Lemma unreadable_stage_costs_no_call_witness :
  let r := retire_stage Scenario.sdk (Scenario.plugin 1 None) "svc"
             {| ref := 0;
                target := {| stageName := Some "v0-9-0"; tags := None |} |}
             (Scenario.cloud [] []) in
  completion_of r = Normal ()
  ∧ world_of r = Scenario.cloud [] []
  ∧ sdk_calls (trace_of r) = []
  ∧ count is_skip (trace_of r) = 1%nat.
Proof.
  apply (unreadable_stage_costs_no_call Scenario.sdk (Scenario.plugin 1 None)
    "svc"). reflexivity.
Defined.
